(** * aspectnova: API client, token store, refresh coordinator, resource
    endpoints and the reader's signed-URL cache.

    A shallow embedding of
    - [src/lib/secure-store.ts]   (module [SecureStore]),
    - [src/api/client.ts]         (module [Client]),
    - [src/lib/pdfApi.ts] with the schemas of [src/types/pdf.ts]
                                  (module [PdfApi]),
    - the reader store ([useReader], [isExpired]) (modules [ReaderStore],
      [ReaderActions]) and the library store ([useLibrary]) (module
      [LibraryStore]),
    - the JSON helpers and the session functions of the client (module
      [Session]).

    Asynchronous code is modelled by explicit state passing: a function
    that awaits is cut at the await, and the environment (network, backing
    storage) answers through explicit arguments. *)

From Stdlib Require Import ZArith QArith Qround Lia Ascii.
From stdpp Require Import gmap strings list pretty.

Set Default Proof Using "Type".
Set Warnings "-register-all".

(** ** Results of fallible code *)

Inductive Result (A E : Type) : Type :=
| Ok (a : A)
| Err (e : E).
Arguments Ok {A E} a.
Arguments Err {A E} e.

(** JavaScript truthiness of a [string | null] value: [null] and the empty
    string are falsy. *)
Definition truthy (v : option string) : bool :=
  match v with
  | Some s => negb (bool_decide (s = ""))
  | None => false
  end.

(* ===================================================================== *)
(** ** JavaScript values that cross the wire *)
(* ===================================================================== *)

Module Json.

(** A JavaScript [number]: the non-finite values and the finite ones, the
    latter as exact rationals. *)
Inductive Num :=
| NaN
| PosInf
| NegInf
| Fin (q : Q).

Definition isFinite (n : Num) : bool :=
  match n with Fin _ => true | _ => false end.

(** [a < b] on numbers; any comparison with NaN is false. *)
Definition num_lt (a b : Num) : bool :=
  match a, b with
  | NaN, _ | _, NaN => false
  | Fin x, Fin y => negb (Qle_bool y x)
  | NegInf, NegInf => false
  | NegInf, _ => true
  | _, PosInf => match a with PosInf => false | _ => true end
  | _, _ => false
  end.

Definition num_of_Z (z : Z) : Num := Fin (inject_Z z).

(** [Number.isInteger]. *)
Definition isInteger (n : Num) : bool :=
  match n with
  | Fin q => Qeq_bool q (inject_Z (Qfloor q))
  | _ => false
  end.

(** [Math.round] on a finite number: the nearest integer, ties upwards. *)
Definition round (q : Q) : Z := Qfloor (q + (1 # 2)).

(** A value of type [unknown] as [JSON.parse] and object literals build it.
    The fields of an object are listed with distinct keys; a missing key is
    [undefined]. *)
Inductive JSON :=
| JNull
| JBool (b : bool)
| JNum (n : Num)
| JStr (s : string)
| JArr (items : list JSON)
| JObj (fields : list (string * JSON)).

Fixpoint assoc {A} (k : string) (fs : list (string * A)) : option A :=
  match fs with
  | [] => None
  | (k', v) :: rest => if bool_decide (k = k') then Some v else assoc k rest
  end.

(** Property read [v.k] on a record; on anything else the read is
    [undefined]. *)
Definition prop (k : string) (v : JSON) : option JSON :=
  match v with
  | JObj fs => assoc k fs
  | _ => None
  end.

(** [a ?? b]: [b] when [a] is [null] or [undefined]. *)
Definition nullish (a b : option JSON) : option JSON :=
  match a with
  | None | Some JNull => b
  | Some _ => a
  end.

(** What a failed schema validation reports: for each issue, zod's issue
    code and the path of the offending value. *)
Inductive Seg :=
| Key (k : string)
| Idx (i : nat).

Record Issue := {
  issue_code : string;
  issue_path : list Seg
}.

(** The [data] of an [APIError]. *)
Inductive ErrData :=
| NoData
| Body (j : JSON)                       (* the parsed body of the response *)
| Diagnostics (issues : list Issue).    (* result.error.flatten() *)

(** JavaScript truthiness: [null], [false], [0], [NaN] and the empty
    string are falsy; every array and every object is truthy. *)
Definition js_truthy (v : JSON) : bool :=
  match v with
  | JNull => false
  | JBool b => b
  | JNum NaN => false
  | JNum (Fin q) => negb (Qeq_bool q 0)
  | JNum _ => true
  | JStr s => negb (bool_decide (s = ""))
  | JArr _ | JObj _ => true
  end.

(** Truthiness of a value that may be [null] ([None]). *)
Definition truthy_value (v : option JSON) : bool :=
  match v with
  | Some x => js_truthy x
  | None => false
  end.

(** [String(v)], the conversion a template literal and a DOM string
    parameter apply to a value: a string is itself, an array is its
    elements joined by commas ([null] counting as the empty string), a
    plain object is [[object Object]]. [num] renders a number. *)
Fixpoint to_string (num : Num → string) (v : JSON) : string :=
  match v with
  | JNull => "null"
  | JBool b => if b then "true" else "false"
  | JNum n => num n
  | JStr s => s
  | JArr l =>
      (fix join (l : list JSON) : string :=
         match l with
         | [] => ""
         | x :: rest =>
             (match x with JNull => "" | _ => to_string num x end)
             +:+ (match rest with [] => "" | _ => "," +:+ join rest end)
         end) l
  | JObj _ => "[object Object]"
  end.

(** A rendering of numbers for the sample environments: right on the
    integers, which is all they use. *)
Definition integer_digits (n : Num) : string :=
  match n with
  | NaN => "NaN"
  | PosInf => "Infinity"
  | NegInf => "-Infinity"
  | Fin q => pretty (Qfloor q)
  end.

End Json.

(* ===================================================================== *)
(** ** src/lib/secure-store.ts *)
(* ===================================================================== *)

Module SecureStore.
Import Json.

Definition ACCESS_TOKEN_KEY : string := "access_token_v1".

(** What is fixed when the module is loaded. *)
Record Platform := {
  Platform_OS : string;                  (* Platform.OS *)
  WEB_PERSIST_TOKEN : option string;     (* process.env.WEB_PERSIST_TOKEN *)
  has_window : bool;                     (* hasWindow() *)
  has_bc : bool;                         (* the BroadcastChannel was created *)
  Number_toString : Num → string         (* String(n) of the runtime *)
}.

Definition isWeb (pf : Platform) : bool :=
  bool_decide (Platform_OS pf = "web").

Definition WEB_PERSIST (pf : Platform) : bool :=
  isWeb pf &&
  (bool_decide (WEB_PERSIST_TOKEN pf = Some "1")
   || bool_decide (WEB_PERSIST_TOKEN pf = Some "true")).

(** Module-level variables and the backing stores they sit on. The
    signatures say [string | null] ([None] is [null]); the types are erased
    at run time and the client hands over whatever the server sent as
    [accessToken], so the value in memory is any value, while the backing
    stores keep strings. *)
Record State := {
  inMemoryToken : option JSON;
  secureStoreChecked : bool;
  secureStoreIsAvailable : bool;
  sessionStorage : gmap string string;   (* window.sessionStorage *)
  keychain : gmap string string;         (* Expo SecureStore *)
  posted : list (option JSON)            (* BroadcastChannel messages, newest first *)
}.

(** How the backing storage answers one call: [throws] says that the one
    storage access of the call raises; [probe] is the answer of
    [SecureStore.isAvailableAsync()], [None] when it rejects. *)
Record Faults := {
  throws : bool;
  probe : option bool
}.

Definition set_memory (v : option JSON) (s : State) : State :=
  {| inMemoryToken := v;
     secureStoreChecked := secureStoreChecked s;
     secureStoreIsAvailable := secureStoreIsAvailable s;
     sessionStorage := sessionStorage s;
     keychain := keychain s;
     posted := posted s |}.

Definition set_session (m : gmap string string) (s : State) : State :=
  {| inMemoryToken := inMemoryToken s;
     secureStoreChecked := secureStoreChecked s;
     secureStoreIsAvailable := secureStoreIsAvailable s;
     sessionStorage := m;
     keychain := keychain s;
     posted := posted s |}.

Definition set_keychain (m : gmap string string) (s : State) : State :=
  {| inMemoryToken := inMemoryToken s;
     secureStoreChecked := secureStoreChecked s;
     secureStoreIsAvailable := secureStoreIsAvailable s;
     sessionStorage := sessionStorage s;
     keychain := m;
     posted := posted s |}.

Definition set_probe (avail : bool) (s : State) : State :=
  {| inMemoryToken := inMemoryToken s;
     secureStoreChecked := true;
     secureStoreIsAvailable := avail;
     sessionStorage := sessionStorage s;
     keychain := keychain s;
     posted := posted s |}.

Definition post (v : option JSON) (s : State) : State :=
  {| inMemoryToken := inMemoryToken s;
     secureStoreChecked := secureStoreChecked s;
     secureStoreIsAvailable := secureStoreIsAvailable s;
     sessionStorage := sessionStorage s;
     keychain := keychain s;
     posted := v :: posted s |}.

(** [secureStoreAvailable]: the probe is made once and cached; a probe that
    rejects counts as "not available". *)
Definition secureStoreAvailable (f : Faults) (s : State) : bool * State :=
  if secureStoreChecked s then (secureStoreIsAvailable s, s)
  else
    let avail := match probe f with Some b => b | None => false end in
    (avail, set_probe avail s).

(** [broadcastToken]: [bc?.postMessage(...)] inside a try/catch. *)
Definition broadcastToken (pf : Platform) (v : option JSON) (s : State) : State :=
  if has_bc pf then post v s else s.

(** [secure.getItemAsync]. *)
Definition getItemAsync (pf : Platform) (f : Faults) (key : string) (s : State)
  : option JSON * State :=
  if isWeb pf then
    if WEB_PERSIST pf && has_window pf then
      if throws f then (inMemoryToken s, s)
      else (JStr <$> sessionStorage s !! key, s)
    else (inMemoryToken s, s)
  else
    let '(avail, s1) := secureStoreAvailable f s in
    if negb avail then (None, s1)
    else if throws f then (None, s1)
    else (JStr <$> keychain s1 !! key, s1).

(** [secure.setItemAsync]; [value = None] is [null]. [sessionStorage]
    keeps [String(value)]. The native store (expo-secure-store) takes
    strings only and throws on any other value, which the [catch] swallows
    like every other failure. *)
Definition setItemAsync (pf : Platform) (f : Faults) (key : string)
    (value : option JSON) (s : State) : State :=
  if isWeb pf then
    let s1 :=
      if WEB_PERSIST pf && has_window pf then
        if throws f then set_memory value s
        else
          let store' := match value with
                        | None | Some JNull => delete key (sessionStorage s)
                        | Some v =>
                            <[key := to_string (Number_toString pf) v]> (sessionStorage s)
                        end in
          set_memory value (set_session store' s)
      else set_memory value s in
    if bool_decide (key = ACCESS_TOKEN_KEY) then broadcastToken pf value s1 else s1
  else
    let '(avail, s1) := secureStoreAvailable f s in
    if negb avail then s1
    else if throws f then s1
    else match value with
         | None | Some JNull => set_keychain (delete key (keychain s1)) s1
         | Some (JStr v) => set_keychain (<[key := v]> (keychain s1)) s1
         | Some _ => s1
         end.

(** [secure.deleteItemAsync]. *)
Definition deleteItemAsync (pf : Platform) (f : Faults) (key : string) (s : State)
  : State :=
  if isWeb pf then
    let s1 :=
      if WEB_PERSIST pf && has_window pf then
        if throws f then s else set_session (delete key (sessionStorage s)) s
      else s in
    let s2 := set_memory None s1 in
    if bool_decide (key = ACCESS_TOKEN_KEY) then broadcastToken pf None s2 else s2
  else
    let '(avail, s1) := secureStoreAvailable f s in
    if negb avail then s1
    else if throws f then s1
    else set_keychain (delete key (keychain s1)) s1.

(** The wrappers for the access token: these are the Token Store. *)
Definition getAccessToken (pf : Platform) (f : Faults) (s : State)
  : option JSON * State :=
  getItemAsync pf f ACCESS_TOKEN_KEY s.

Definition setAccessToken (pf : Platform) (f : Faults) (token : option JSON)
    (s : State) : State :=
  setItemAsync pf f ACCESS_TOKEN_KEY token s.

Definition clearAccessToken (pf : Platform) (f : Faults) (s : State) : State :=
  deleteItemAsync pf f ACCESS_TOKEN_KEY s.

(** The state right after the module is loaded ([hydrateFromSessionStorage]
    copies the session value into memory; [f] answers that one read). *)
Definition initial (pf : Platform) (f : Faults) (session chain : gmap string string)
  : State :=
  {| inMemoryToken :=
       if isWeb pf && has_window pf && WEB_PERSIST pf && negb (throws f)
       then JStr <$> session !! ACCESS_TOKEN_KEY else None;
     secureStoreChecked := false;
     secureStoreIsAvailable := false;
     sessionStorage := session;
     keychain := chain;
     posted := [] |}.

(** The three configurations of the header comment. *)
Definition native : Platform :=
  {| Platform_OS := "ios"; WEB_PERSIST_TOKEN := None;
     has_window := false; has_bc := false; Number_toString := integer_digits |}.
Definition web_memory : Platform :=
  {| Platform_OS := "web"; WEB_PERSIST_TOKEN := None;
     has_window := true; has_bc := true; Number_toString := integer_digits |}.
Definition web_session : Platform :=
  {| Platform_OS := "web"; WEB_PERSIST_TOKEN := Some "1";
     has_window := true; has_bc := true; Number_toString := integer_digits |}.

Definition healthy : Faults := {| throws := false; probe := Some true |}.
Definition blocked : Faults := {| throws := true; probe := None |}.

(** Whether a write followed by a read reaches the same backing cell:
    - web, memory only: always;
    - web, session persistence: unless the write throws and the read does not
      (the read then answers from [sessionStorage], which missed the write);
    - native: the store answers the probe with "available" and neither call
      throws. *)
Definition write_then_read_ok (pf : Platform) (fw fr : Faults) (s : State) : bool :=
  if isWeb pf then
    if WEB_PERSIST pf && has_window pf then negb (throws fw) || throws fr
    else true
  else
    fst (secureStoreAvailable fw s) && negb (throws fw) && negb (throws fr).

End SecureStore.

(* ===================================================================== *)
(** ** Character and string helpers *)
(* ===================================================================== *)

Module Text.

Definition code (c : ascii) : nat := nat_of_ascii c.

Definition is_lower (c : ascii) : bool := (97 <=? code c)%nat && (code c <=? 122)%nat.
Definition is_upper (c : ascii) : bool := (65 <=? code c)%nat && (code c <=? 90)%nat.
Definition is_digit (c : ascii) : bool := (48 <=? code c)%nat && (code c <=? 57)%nat.
Definition is_alpha (c : ascii) : bool := is_lower c || is_upper c.
Definition is_slash (c : ascii) : bool := bool_decide (c = "/"%char).

Definition to_upper (c : ascii) : ascii :=
  if is_lower c then ascii_of_nat (code c - 32) else c.
Definition to_lower (c : ascii) : ascii :=
  if is_upper c then ascii_of_nat (code c + 32) else c.

Fixpoint map_chars (f : ascii -> ascii) (s : string) : string :=
  match s with
  | EmptyString => EmptyString
  | String c r => String (f c) (map_chars f r)
  end.

Definition toUpperCase : string -> string := map_chars to_upper.
Definition toLowerCase : string -> string := map_chars to_lower.

Fixpoint starts_with (p s : string) : bool :=
  match p, s with
  | EmptyString, _ => true
  | String a p', String b s' => bool_decide (a = b) && starts_with p' s'
  | String _ _, EmptyString => false
  end.

(** [s.replace(/^\/+/, "")]. *)
Fixpoint strip_leading_slashes (s : string) : string :=
  match s with
  | String c r => if is_slash c then strip_leading_slashes r else s
  | EmptyString => EmptyString
  end.

(** [s.replace(/\/+$/, "")]: the match starts at the first slash from which
    only slashes follow. *)
Fixpoint strip_trailing_slashes (s : string) : string :=
  match s with
  | EmptyString => EmptyString
  | String c r =>
      let r' := strip_trailing_slashes r in
      if is_slash c && bool_decide (r' = EmptyString) then EmptyString
      else String c r'
  end.

(** A run of [n] slashes. *)
Fixpoint slashes (n : nat) : string :=
  match n with
  | O => EmptyString
  | S k => String "/"%char (slashes k)
  end.

Fixpoint last_char (s : string) : option ascii :=
  match s with
  | EmptyString => None
  | String c r => match r with EmptyString => Some c | _ => last_char r end
  end.

Definition first_char (s : string) : option ascii :=
  match s with
  | EmptyString => None
  | String c _ => Some c
  end.

(** [/^[a-z][a-z0-9+.-]*:\/\//i.test(s)]. The class does not hold [':'],
    so the star stops at the first character outside the class. *)
Definition is_scheme_char (c : ascii) : bool :=
  is_alpha c || is_digit c
  || bool_decide (c = "+"%char) || bool_decide (c = "."%char)
  || bool_decide (c = "-"%char).

Fixpoint scheme_tail (s : string) : bool :=
  match s with
  | EmptyString => false
  | String c r => if is_scheme_char c then scheme_tail r else starts_with "://" s
  end.

Definition is_absolute (s : string) : bool :=
  match s with
  | EmptyString => false
  | String c r => is_alpha c && scheme_tail r
  end.

(** The same pattern, read off the regular expression: a letter, a run of
    class characters, then [://], then anything. *)
Definition absolute_pattern (s : string) : Prop :=
  ∃ (c : ascii) (mid rest : string),
    s = String c (mid +:+ "://" +:+ rest)
    ∧ is_alpha c = true
    ∧ (∀ x, In x (String.list_ascii_of_string mid) → is_scheme_char x = true).

End Text.

(* ===================================================================== *)
(** ** src/api/client.ts *)
(* ===================================================================== *)

Module Client.
Import Json Text.

(** A [Headers] object: names are case-insensitive and kept in lower case,
    one value per name. A runtime may besides reject a name or a value it
    finds invalid, or strip white space round a value; neither is modelled,
    values are kept as given. *)
Definition headers_set (k v : string) (h : gmap string string) : gmap string string :=
  <[toLowerCase k := v]> h.

(** [h.append(k, v)]: a second value for a name is joined to the first. *)
Definition headers_append (k v : string) (h : gmap string string) : gmap string string :=
  match h !! toLowerCase k with
  | Some old => <[toLowerCase k := old +:+ ", " +:+ v]> h
  | None => <[toLowerCase k := v]> h
  end.

(** [new Headers(init)] for the entries of [init] (the properties of a
    record in their order, the pairs of an array, the entries of another
    [Headers] object): each entry is appended. *)
Definition Headers_new (init : list (string * string)) : gmap string string :=
  foldl (λ h kv, headers_append (fst kv) (snd kv) h) ∅ init.

(** The entries of a [Headers] object, as [new Headers(h)] reads them. *)
Definition entries (h : gmap string string) : list (string * string) := map_to_list h.

(** [mergeHeaders(a, b)]: every entry of [new Headers(b)] is [set] over
    [new Headers(a)]. *)
Definition mergeHeaders (a b : list (string * string)) : gmap string string :=
  Headers_new b ∪ Headers_new a.

(** [jsonHeaders]. *)
Definition jsonHeaders (existing : list (string * string)) : gmap string string :=
  let h := Headers_new existing in
  match h !! toLowerCase "Content-Type" with
  | Some _ => h
  | None => headers_set "Content-Type" "application/json" h
  end.

Record Response := {
  status : Z;
  text : string               (* the body, which [res.text()] reads in full *)
}.

(** [res.ok]. *)
Definition ok (r : Response) : bool := (200 <=? status r)%Z && (status r <=? 299)%Z.

(** What [fetch] settles with: a response, or a rejection (network failure,
    or the abort of the composed timeout/caller signal). *)
Inductive FetchOutcome :=
| Responded (r : Response)
| Rejected (reason : string).

Record Request := {
  url : string;
  method : string;
  headers : gmap string string;
  credentials : string;
  body : option string
}.

Definition with_headers (h : gmap string string) (rq : Request) : Request :=
  {| url := url rq; method := method rq; headers := h;
     credentials := credentials rq; body := body rq |}.

(** What the client does to the outside, in order. *)
Inductive Event :=
| EvFetch (rq : Request) (timeoutMs : Z)   (* fetchWithTimeout(url, init, timeoutMs) *)
| EvRefreshCall                            (* a call of refreshAccessToken() by apiFetch *)
| EvRefreshPost (u : string)               (* the POST to /auth/refresh *)
| EvSleep (ms : Z)                         (* setTimeout(r, ms) of the backoff *)
| EvLoginPost (u : string) (body : string) (* the POST to /auth/login *)
| EvLogoutPost (u : string).               (* the POST to /auth/logout *)

Definition is_post (e : Event) : bool :=
  match e with EvRefreshPost _ => true | _ => false end.
Definition is_refresh_call (e : Event) : bool :=
  match e with EvRefreshCall => true | _ => false end.
Definition is_fetch (e : Event) : bool :=
  match e with EvFetch _ _ => true | _ => false end.

Definition posts (l : list Event) : nat := length (filter (λ e, is_post e = true) l).
Definition refresh_calls (l : list Event) : nat :=
  length (filter (λ e, is_refresh_call e = true) l).
Definition fetches (l : list Event) : nat := length (filter (λ e, is_fetch e = true) l).

Fixpoint sleeps (l : list Event) : list Z :=
  match l with
  | [] => []
  | EvSleep ms :: r => ms :: sleeps r
  | _ :: r => sleeps r
  end.

(** Where the body of the async arrow in [refreshAccessToken] is suspended. *)
Inductive Phase :=
| AwaitFetch                    (* await fetch(url, ...) *)
| AwaitText (r : Response)      (* await safeJsonTyped(res) *)
| AwaitStore (next : JSON).     (* await TokenStore.set(next) *)

Definition awaits_fetch (ph : Phase) : bool :=
  match ph with AwaitFetch => true | _ => false end.

(** The module-level state of the client. A promise is named by a number;
    [settled] holds the value of every promise that has settled. *)
Record State := {
  store : SecureStore.State;
  refreshPromise : option nat;
  bodies : list (nat * Phase);
  settled : gmap nat (option JSON);
  fresh : nat;
  log : list Event
}.

Definition add_log (e : Event) (c : State) : State :=
  {| store := store c; refreshPromise := refreshPromise c; bodies := bodies c;
     settled := settled c; fresh := fresh c; log := log c ++ [e] |}.

(** The token as the in-memory store holds it. *)
Definition inMemoryTokenOf (c : State) : option JSON :=
  SecureStore.inMemoryToken (store c).

Definition set_store (st : SecureStore.State) (c : State) : State :=
  {| store := st; refreshPromise := refreshPromise c; bodies := bodies c;
     settled := settled c; fresh := fresh c; log := log c |}.

Definition set_phase (p : nat) (ph : Phase) (c : State) : State :=
  {| store := store c; refreshPromise := refreshPromise c;
     bodies := map (λ b, if bool_decide (fst b = p) then (p, ph) else b) (bodies c);
     settled := settled c; fresh := fresh c; log := log c |}.

Fixpoint drop_body (p : nat) (bs : list (nat * Phase)) : list (nat * Phase) :=
  match bs with
  | [] => []
  | (q, ph) :: rest =>
      if bool_decide (q = p) then drop_body p rest else (q, ph) :: drop_body p rest
  end.

(** The body of promise [p] returns [v]: the [finally] block clears the
    slot, then the promise settles with [v]. *)
Definition finish (p : nat) (v : option JSON) (c : State) : State :=
  {| store := store c; refreshPromise := None;
     bodies := drop_body p (bodies c);
     settled := <[p := v]> (settled c); fresh := fresh c; log := log c |}.

Fixpoint phase_in (p : nat) (bs : list (nat * Phase)) : option Phase :=
  match bs with
  | [] => None
  | (q, ph) :: rest => if bool_decide (q = p) then Some ph else phase_in p rest
  end.

Definition phase_of (p : nat) (c : State) : option Phase := phase_in p (bodies c).

(** Requests to the refresh endpoint that have not been answered yet. *)
Definition inflight (c : State) : nat :=
  length (filter (λ b, awaits_fetch (snd b) = true) (bodies c)).

Definition idle (st : SecureStore.State) : State :=
  {| store := st; refreshPromise := None; bodies := []; settled := ∅;
     fresh := 0; log := [] |}.

(** Two states that differ in the log and the token store only. *)
Definition same_coordinator (c c' : State) : Prop :=
  refreshPromise c' = refreshPromise c ∧ bodies c' = bodies c
  ∧ settled c' = settled c ∧ fresh c' = fresh c.

(** What the client runs against: configuration, the platform of the token
    store and how its backing storage answers, the runtime's [JSON.parse]
    ([None] when it throws), and the server: what a request, or the POST to
    the refresh endpoint, is answered with, given everything the client has
    done so far. *)
Record Env := {
  BASE_URL : string;                           (* env.API_BASE_URL *)
  pf : SecureStore.Platform;
  sf : SecureStore.Faults;
  JSON_parse : string → option JSON;
  net : list Event → Request → FetchOutcome;
  auth_net : list Event → FetchOutcome
}.

Section WithEnv.

Variable E : Env.

(** [toURL]. *)
Definition toURL (input : string) : string :=
  if is_absolute input then input
  else
    let base := strip_trailing_slashes (BASE_URL E) in
    let path := strip_leading_slashes input in
    base +:+ "/" +:+ path.

(** [safeJson]. *)
Definition safeJson (res : Response) : JSON :=
  if bool_decide (text res = "") then JNull
  else match JSON_parse E (text res) with
       | Some v => v
       | None => JStr (text res)
       end.

(** [data?.accessToken ?? null]: whatever value the body holds under
    [accessToken], [None] ([null]) when there is none or it is [null]. The
    declared type [{ accessToken?: string } | null] is a cast, erased at
    run time. *)
Definition accessToken_of (data : JSON) : option JSON :=
  nullish (prop "accessToken" data) None.

(** [refreshAccessToken]: the shared promise when there is one; otherwise a
    new body that runs up to its [await fetch], which sends the request.
    The number returned names the promise in the slot; the promise of the
    [async] wrapper that each caller holds is resolved with it and settles
    as it does. *)
Definition refreshAccessToken (c : State) : nat * State :=
  match refreshPromise c with
  | Some p => (p, c)
  | None =>
      let p := fresh c in
      (p, {| store := store c;
             refreshPromise := Some p;
             bodies := (p, AwaitFetch) :: bodies c;
             settled := settled c;
             fresh := S p;
             log := log c ++ [EvRefreshPost (toURL "/auth/refresh")] |})
  end.

(** The three resumptions of the body of promise [p]. *)
Definition fetch_settles (p : nat) (o : FetchOutcome) (c : State) : State :=
  match phase_of p c with
  | Some AwaitFetch =>
      match o with
      | Rejected _ => finish p None c                 (* catch: return null *)
      | Responded r =>
          if negb (ok r) then finish p None c         (* if (!res.ok) return null *)
          else set_phase p (AwaitText r) c
      end
  | _ => c
  end.

Definition text_settles (p : nat) (c : State) : State :=
  match phase_of p c with
  | Some (AwaitText r) =>
      let next := accessToken_of (safeJson r) in
      match next with
      | Some v => if truthy_value next then set_phase p (AwaitStore v) c
                  else finish p next c
      | None => finish p None c
      end
  | _ => c
  end.

Definition store_settles (p : nat) (c : State) : State :=
  match phase_of p c with
  | Some (AwaitStore s) =>
      finish p (Some s)
        (set_store (SecureStore.setAccessToken (pf E) (sf E) (Some s) (store c)) c)
  | _ => c
  end.

(** What can happen to the coordinator: a caller asks for a refresh, or
    the environment lets an await of a body settle. *)
Inductive Action :=
| Call
| FetchSettles (p : nat) (o : FetchOutcome)
| TextSettles (p : nat)
| StoreSettles (p : nat).

Definition step (a : Action) (c : State) : State :=
  match a with
  | Call => snd (refreshAccessToken c)
  | FetchSettles p o => fetch_settles p o c
  | TextSettles p => text_settles p c
  | StoreSettles p => store_settles p c
  end.

Definition run (acts : list Action) (c : State) : State :=
  foldl (λ c a, step a c) c acts.

(** [n] callers ask for a refresh one after the other, nothing settling in
    between; the promises they are handed, and the state after. *)
Fixpoint calls (n : nat) (c : State) : list nat * State :=
  match n with
  | O => ([], c)
  | S k =>
      let '(p, c1) := refreshAccessToken c in
      let '(ps, c2) := calls k c1 in
      (p :: ps, c2)
  end.

(** [await refreshAccessToken()] as one caller sees it when nothing else
    runs in between: the body of the promise is resumed until it settles. *)
Definition drive (p : nat) (c : State) : State :=
  store_settles p (text_settles p (fetch_settles p (auth_net E (log c)) c)).

Definition await_refresh (c : State) : option JSON * State :=
  let '(p, c1) := refreshAccessToken (add_log EvRefreshCall c) in
  let c2 := drive p c1 in
  (default None (settled c2 !! p), c2).

(** What the outstanding promise settles with, by where its body stands:
    [null] when the request is rejected or answered outside 2xx, otherwise
    whatever the response holds under [accessToken]. *)
Definition outcome_of (ph : Phase) (o : FetchOutcome) : option JSON :=
  match ph with
  | AwaitFetch =>
      match o with
      | Responded r => if ok r then accessToken_of (safeJson r) else None
      | Rejected _ => None
      end
  | AwaitText r => accessToken_of (safeJson r)
  | AwaitStore t => Some t
  end.

(** States the coordinator can be in: the slot names the one running body,
    whose promise is pending; a body past the response holds a real token. *)
Definition wf (c : State) : Prop :=
  match refreshPromise c with
  | Some p =>
      ∃ ph, bodies c = [(p, ph)] ∧ settled c !! p = None ∧ p < fresh c
            ∧ (∀ v, ph = AwaitStore v → js_truthy v = true)
  | None => bodies c = []
  end
  ∧ (∀ q, is_Some (settled c !! q) → q < fresh c).

(** *** apiFetch *)

Record RequestInit := {
  init_method : option string;
  init_headers : list (string * string);   (* the entries of [init.headers] *)
  init_body : option string;
  init_credentials : option string
}.

Record ApiFetchOptions := {
  auth : option bool;
  retryOn401 : option bool;
  throwOnHTTPError : option bool;
  timeoutMs : option Z;
  idempotentRetries : option Z
}.

Definition no_options : ApiFetchOptions :=
  {| auth := None; retryOn401 := None; throwOnHTTPError := None;
     timeoutMs := None; idempotentRetries := None |}.

(** [DEFAULT_FETCH_OPTS] *)
Definition DEFAULT_auth : bool := true.
Definition DEFAULT_retryOn401 : bool := true.
Definition DEFAULT_throwOnHTTPError : bool := true.
Definition DEFAULT_timeoutMs : Z := 20000.
Definition DEFAULT_idempotentRetries : Z := 2.

(** [{ ...DEFAULT_FETCH_OPTS, ...options }], field by field. *)
Definition opt_auth (o : ApiFetchOptions) : bool := default DEFAULT_auth (auth o).
Definition opt_retryOn401 (o : ApiFetchOptions) : bool :=
  default DEFAULT_retryOn401 (retryOn401 o).
Definition opt_throwOnHTTPError (o : ApiFetchOptions) : bool :=
  default DEFAULT_throwOnHTTPError (throwOnHTTPError o).
Definition opt_timeoutMs (o : ApiFetchOptions) : Z :=
  default DEFAULT_timeoutMs (timeoutMs o).
Definition opt_idempotentRetries (o : ApiFetchOptions) : Z :=
  default DEFAULT_idempotentRetries (idempotentRetries o).

Inductive Error :=
| APIError (message : string) (status : Z) (url : string) (data : ErrData)
| FetchFailed (reason : string)       (* the rejection of fetch, passed on *)
| PlainError (message : string).      (* new Error(message) *)

Definition transientStatuses : list Z := [408; 425; 429; 500; 502; 503; 504]%Z.

Definition isTransient (code : Z) : bool :=
  bool_decide (code ∈ transientStatuses).

(** [`Bearer ${token}`] *)
Definition bearer (token : JSON) : string :=
  "Bearer " +:+ to_string (SecureStore.Number_toString (pf E)) token.

(** [fetchWithTimeout]: the composed signal and the timer live in the
    environment, whose answer [net] may be the abort. *)
Definition fetchWithTimeout (rq : Request) (tmo : Z) (c : State)
  : Result Response Error * State :=
  let c1 := add_log (EvFetch rq tmo) c in
  match net E (log c) rq with
  | Responded r => (Ok r, c1)
  | Rejected e => (Err (FetchFailed e), c1)
  end.

(** The part of [apiFetch] before the first request: headers, token, url,
    method. Returns the first request and the state after the token read. *)
Definition first_request (input : string) (init : RequestInit)
    (options : ApiFetchOptions) (c : State) : Request * State :=
  let h0 := mergeHeaders [("Accept", "application/json")] (init_headers init) in
  let '(token, c0) :=
    if opt_auth options then
      let '(t, st) := SecureStore.getAccessToken (pf E) (sf E) (store c) in (t, set_store st c)
    else (None, c) in
  let h1 :=
    match token with
    | Some t => if opt_auth options && truthy_value token
                then headers_set "Authorization" (bearer t) h0 else h0
    | None => h0
    end in
  ({| url := toURL input;
      method := toUpperCase (default "GET" (init_method init));
      headers := h1;
      credentials := default "include" (init_credentials init);
      body := init_body init |}, c0).

(** The attempt number and the wait of one backoff round. *)
Definition attempt_of (options : ApiFetchOptions) (remaining : Z) : Z :=
  (opt_idempotentRetries options - remaining + 1)%Z.

Definition waitMs_of (attempt : Z) : Z := Z.min (1500 * attempt) 4000.

(** The [while] loop of the backoff. [fuel] bounds the rounds; the loop
    is entered with [fuel = Z.to_nat remaining], which is never exhausted
    before [remaining > 0] fails. *)
Fixpoint backoff (fuel : nat) (options : ApiFetchOptions) (isGet : bool)
    (rq : Request) (remaining : Z) (res : Response) (c : State)
  : Result Response Error * State :=
  if negb (ok res) && isGet && (0 <? remaining)%Z && isTransient (status res) then
    match fuel with
    | O => (Ok res, c)
    | S fuel' =>
        let attempt := attempt_of options remaining in
        let c1 := add_log (EvSleep (waitMs_of attempt)) c in
        match fetchWithTimeout rq (opt_timeoutMs options) c1 with
        | (Ok res', c2) => backoff fuel' options isGet rq (remaining - 1)%Z res' c2
        | (Err e, c2) => (Err e, c2)
        end
    end
  else (Ok res, c).

(** The 401 branch: one refresh, and one more request when it gave a token.
    Returns the response to go on with and the request to repeat. *)
Definition on401 (options : ApiFetchOptions) (rq : Request) (res : Response)
    (c : State) : Result (Response * Request) Error * State :=
  if bool_decide (status res = 401%Z) && opt_retryOn401 options then
    let '(next, c2) := await_refresh c in
    match next with
    | Some t =>
        if truthy_value next then
          let rq' := with_headers (headers_set "Authorization" (bearer t) (headers rq)) rq in
          match fetchWithTimeout rq' (opt_timeoutMs options) c2 with
          | (Ok res', c3) => (Ok (res', rq'), c3)
          | (Err e, c3) => (Err e, c3)
          end
        else (Ok (res, rq), c2)
    | None => (Ok (res, rq), c2)
    end
  else (Ok (res, rq), c).

(** The end of [apiFetch]: raise on a non-2xx response when asked to. *)
Definition surface (options : ApiFetchOptions) (u : string) (res : Response)
  : Result Response Error :=
  if opt_throwOnHTTPError options && negb (ok res) then
    Err (APIError ("HTTP " +:+ pretty (status res)) (status res) u (Body (safeJson res)))
  else Ok res.

Definition apiFetch (input : string) (init : RequestInit)
    (options : ApiFetchOptions) (c : State) : Result Response Error * State :=
  let '(rq, c0) := first_request input init options c in
  let isGet := bool_decide (method rq = "GET") in
  let remainingIdempotent := if isGet then opt_idempotentRetries options else 0%Z in
  match fetchWithTimeout rq (opt_timeoutMs options) c0 with
  | (Err e, c1) => (Err e, c1)
  | (Ok res, c1) =>
      match on401 options rq res c1 with
      | (Err e, c2) => (Err e, c2)
      | (Ok (res1, rq1), c2) =>
          match backoff (Z.to_nat remainingIdempotent) options isGet rq1
                  remainingIdempotent res1 c2 with
          | (Err e, c3) => (Err e, c3)
          | (Ok res2, c3) => (surface options (url rq) res2, c3)
          end
      end
  end.

(** The trace of [k] rounds of the backoff that start at attempt [a]: a
    wait, then the request [rq] again. *)
Fixpoint rounds (rq : Request) (tmo : Z) (a : Z) (k : nat) : list Event :=
  match k with
  | O => []
  | S k' => EvSleep (waitMs_of a) :: EvFetch rq tmo :: rounds rq tmo (a + 1)%Z k'
  end.

(** The request of the last [fetchWithTimeout] of a trace. *)
Fixpoint last_fetch (l : list Event) : option Request :=
  match l with
  | [] => None
  | e :: r =>
      match last_fetch r with
      | Some rq => Some rq
      | None => match e with EvFetch rq _ => Some rq | _ => None end
      end
  end.

(** [o] is the answer to the last request of the trace [l] that was sent
    after [base]; the request went to [u]. *)
Definition last_answer (base l : list Event) (u : string) (o : FetchOutcome) : Prop :=
  ∃ pre rq tmo post,
    l = base ++ pre ++ EvFetch rq tmo :: post
    ∧ fetches post = 0
    ∧ url rq = u
    ∧ net E (base ++ pre) rq = o.

(** The status a result carries to the caller. *)
Definition final_status (r : Result Response Error) : option Z :=
  match r with
  | Ok res => Some (status res)
  | Err (APIError _ st _ _) => Some st
  | Err _ => None
  end.

(** [getJSON] and [api.get]. *)
Definition with_method (m : string) (init : RequestInit) : RequestInit :=
  {| init_method := Some m; init_headers := init_headers init;
     init_body := init_body init; init_credentials := init_credentials init |}.

Definition empty_init : RequestInit :=
  {| init_method := None; init_headers := []; init_body := None;
     init_credentials := None |}.

Definition getJSON (path : string) (init : RequestInit) (opts : ApiFetchOptions)
    (c : State) : Result JSON Error * State :=
  match apiFetch path (with_method "GET" init) opts c with
  | (Ok res, c') => (Ok (safeJson res), c')
  | (Err e, c') => (Err e, c')
  end.

Definition api_get (path : string) (opts : ApiFetchOptions) (c : State)
  : Result JSON Error * State :=
  getJSON path empty_init opts c.

End WithEnv.

End Client.

(* ===================================================================== *)
(** ** src/types/pdf.ts and src/lib/pdfApi.ts *)
(* ===================================================================== *)

Module PdfApi.
Import Json Text Client.

(** Functions of the runtime and of zod that the endpoints call. *)
Record Lib := {
  encodeURIComponent : string → string;
  form_encode : string → string;      (* URLSearchParams: one name or value *)
  Number_toString : Num → string;     (* String(n) *)
  now_iso : string;                   (* new Date().toISOString() *)
  zod_datetime : string → bool;       (* what z.string().datetime() accepts *)
  rejects_unknown_keys : bool         (* what .strict(false) makes of extra keys *)
}.

(** *** Schemas *)

Definition Check : Type := list Seg → JSON → Result JSON (list Issue).

Definition issue (code : string) (path : list Seg) : list Issue :=
  [{| issue_code := code; issue_path := path |}].

(** The white space that [s.trim()] strips, for a string held in UTF-8:
    the ASCII blanks and line ends (one byte), U+00A0 (two bytes), and
    U+1680, U+2000 to U+200A, U+2028, U+2029, U+202F, U+205F, U+3000 and
    U+FEFF (three bytes). *)
Definition blank2 (a b : ascii) : bool :=
  (code a =? 194)%nat && (code b =? 160)%nat.

Definition blank3 (a b c : ascii) : bool :=
  ((code a =? 225)%nat && (code b =? 154)%nat && (code c =? 128)%nat)
  || ((code a =? 226)%nat && (code b =? 128)%nat
      && (((128 <=? code c)%nat && (code c <=? 138)%nat)
          || (code c =? 168)%nat || (code c =? 169)%nat || (code c =? 175)%nat))
  || ((code a =? 226)%nat && (code b =? 129)%nat && (code c =? 159)%nat)
  || ((code a =? 227)%nat && (code b =? 128)%nat && (code c =? 128)%nat)
  || ((code a =? 239)%nat && (code b =? 187)%nat && (code c =? 191)%nat).

Fixpoint trim_start (s : string) : string :=
  match s with
  | EmptyString => EmptyString
  | String a r =>
      if Ascii.is_space a then trim_start r
      else match r with
           | EmptyString => s
           | String b r2 =>
               if blank2 a b then trim_start r2
               else match r2 with
                    | EmptyString => s
                    | String c r3 => if blank3 a b c then trim_start r3 else s
                    end
           end
  end.

(** The cut is at the first place from which only white space follows. *)
Fixpoint trim_end (s : string) : string :=
  match s with
  | EmptyString => EmptyString
  | String c r =>
      if bool_decide (trim_start s = EmptyString) then EmptyString
      else String c (trim_end r)
  end.

Definition trim (s : string) : string := trim_end (trim_start s).

(** [URL_LIKE_RE.test(v)]. *)
Definition URL_LIKE_RE (v : string) : bool :=
  let l := toLowerCase v in
  starts_with "http://" l || starts_with "https://" l
  || starts_with "data:image/" l || starts_with "blob:" l
  || starts_with "file:" l || starts_with "asset:" l.

Definition z_string : Check := λ path v,
  match v with
  | JStr s => Ok (JStr s)
  | _ => Err (issue "invalid_type" path)
  end.

Definition z_string_min1 : Check := λ path v,
  match v with
  | JStr s => if bool_decide (s = "") then Err (issue "too_small" path) else Ok (JStr s)
  | _ => Err (issue "invalid_type" path)
  end.

Definition z_datetime (L : Lib) : Check := λ path v,
  match v with
  | JStr s => if zod_datetime L s then Ok (JStr s) else Err (issue "invalid_string" path)
  | _ => Err (issue "invalid_type" path)
  end.

(** [z.number().int().positive()]. *)
Definition z_int_positive : Check := λ path v,
  match v with
  | JNum NaN => Err (issue "invalid_type" path)
  | JNum n =>
      match (if isInteger n then [] else issue "invalid_type" path)
            ++ (if num_lt (Fin 0) n then [] else issue "too_small" path) with
      | [] => Ok (JNum n)
      | found => Err found
      end
  | _ => Err (issue "invalid_type" path)
  end.

(** [UrlLike]: a non-empty string, trimmed, then matched. *)
Definition UrlLike : Check := λ path v,
  match v with
  | JStr s =>
      if bool_decide (s = "") then Err (issue "too_small" path)
      else if URL_LIKE_RE (trim s) then Ok (JStr (trim s))
      else Err (issue "custom" path)
  | _ => Err (issue "invalid_type" path)
  end.

Definition z_nullable (chk : Check) : Check := λ path v,
  match v with
  | JNull => Ok JNull
  | _ => chk path v
  end.

Fixpoint check_items (chk : Check) (path : list Seg) (i : nat) (l : list JSON)
  : Result (list JSON) (list Issue) :=
  match l with
  | [] => Ok []
  | x :: rest =>
      match chk (path ++ [Idx i]) x, check_items chk path (S i) rest with
      | Ok y, Ok ys => Ok (y :: ys)
      | Ok _, Err e => Err e
      | Err e, Ok _ => Err e
      | Err e1, Err e2 => Err (e1 ++ e2)
      end
  end.

Definition z_array (chk : Check) : Check := λ path v,
  match v with
  | JArr l =>
      match check_items chk path 0 l with
      | Ok ys => Ok (JArr ys)
      | Err e => Err e
      end
  | _ => Err (issue "invalid_type" path)
  end.

(** How a key of an object schema treats [undefined]. *)
Inductive Presence :=
| Required
| Optional                  (* .optional() *)
| Defaulted (d : JSON).     (* .default(d) *)

Definition Field : Type := string * Presence * Check.

Fixpoint check_fields (path : list Seg) (fields : list Field)
    (fs : list (string * JSON)) : Result (list (string * JSON)) (list Issue) :=
  match fields with
  | [] => Ok []
  | (k, pres, chk) :: rest =>
      let here :=
        match assoc k fs, pres with
        | Some v, _ =>
            match chk (path ++ [Key k]) v with
            | Ok y => Ok [(k, y)]
            | Err e => Err e
            end
        | None, Required => Err (issue "invalid_type" (path ++ [Key k]))
        | None, Optional => Ok []
        | None, Defaulted d => Ok [(k, d)]
        end in
      match here, check_fields path rest fs with
      | Ok a, Ok b => Ok (a ++ b)
      | Ok _, Err e => Err e
      | Err e, Ok _ => Err e
      | Err e1, Err e2 => Err (e1 ++ e2)
      end
  end.

Definition known_key (fields : list Field) (k : string) : bool :=
  existsb (λ f, bool_decide (fst (fst f) = k)) fields.

(** [z.object(...)]; unknown keys are dropped, or reported when [strict]. *)
Definition z_object (strict : bool) (fields : list Field) : Check := λ path v,
  match v with
  | JObj fs =>
      let extra :=
        if strict && negb (forallb (λ kv, known_key fields (fst kv)) fs)
        then issue "unrecognized_keys" path else [] in
      match check_fields path fields fs, extra with
      | Ok out, [] => Ok (JObj out)
      | Ok _, e => Err e
      | Err e, e' => Err (e ++ e')
      end
  | _ => Err (issue "invalid_type" path)
  end.

Definition SearchHitSchema : Check :=
  z_object false [("page", Required, z_int_positive); ("snippet", Optional, z_string)].

Definition PdfItemSchema (L : Lib) : Check :=
  z_object false
    [("id", Required, z_string_min1);
     ("title", Required, z_string_min1);
     ("pages", Required, z_int_positive);
     ("coverUrl", Optional, z_nullable UrlLike);
     ("category", Optional, z_string);
     ("tags", Defaulted (JArr []), z_array z_string);
     ("updatedAt", Required, z_datetime L)].

Definition PdfDetailSchema : Check :=
  z_object false
    [("id", Required, z_string_min1);
     ("title", Required, z_string_min1);
     ("pages", Required, z_int_positive);
     ("category", Optional, z_string);
     ("tags", Defaulted (JArr []), z_array z_string);
     ("pageUrls", Optional, z_nullable (z_array UrlLike))].

Definition ListResponseSchema (L : Lib) : Check :=
  z_object false
    [("items", Required, z_array (PdfItemSchema L));
     ("nextCursor", Optional, z_string)].

Definition PageUrlSchema (L : Lib) : Check :=
  z_object (rejects_unknown_keys L)
    [("url", Required, UrlLike);
     ("expiresAt", Optional, z_datetime L);
     ("contentType", Optional, z_string);
     ("width", Optional, z_int_positive);
     ("height", Optional, z_int_positive);
     ("etag", Optional, z_string);
     ("cacheControl", Optional, z_string)].

Definition SearchResponseSchema : Check :=
  z_object false [("hits", Required, z_array SearchHitSchema)].

(** A check is loud when its failures always report an issue. *)
Definition loud (chk : Check) : Prop :=
  ∀ path v d, chk path v = Err d → d ≠ [].

(** [parseOrThrow] *)
Definition parseOrThrow (schema : Check) (data : JSON) (u : string)
  : Result JSON Error :=
  match schema [] data with
  | Ok v => Ok v
  | Err d => Err (APIError "Invalid API response shape" 200 u (Diagnostics d))
  end.

(** *** Helpers *)

Definition isRecord (u : JSON) : bool :=
  match u with JObj _ => true | _ => false end.

Definition as_string (v : JSON) : option string :=
  match v with JStr s => Some s | _ => None end.

(** [isStringArray(u) ? u : []], as the strings. *)
Definition string_array (u : option JSON) : list string :=
  match u with
  | Some (JArr l) =>
      if forallb (λ x, bool_decide (is_Some (as_string x))) l
      then omap as_string l else []
  | _ => []
  end.

Definition isStringArray (u : option JSON) : bool :=
  match u with
  | Some (JArr l) => forallb (λ x, bool_decide (is_Some (as_string x))) l
  | _ => false
  end.

(** [typeof v === "string" && v.length > 0 ? v : undefined]. *)
Definition nonempty_string (v : option JSON) : option string :=
  match v with
  | Some (JStr s) => if bool_decide (s = "") then None else Some s
  | _ => None
  end.

(** [{ idempotentRetries: 2, ...(opts ?? {}), ...(extra ?? {}) }]. *)
Definition spread (a b : ApiFetchOptions) : ApiFetchOptions :=
  {| auth := match auth b with Some x => Some x | None => auth a end;
     retryOn401 := match retryOn401 b with Some x => Some x | None => retryOn401 a end;
     throwOnHTTPError :=
       match throwOnHTTPError b with Some x => Some x | None => throwOnHTTPError a end;
     timeoutMs := match timeoutMs b with Some x => Some x | None => timeoutMs a end;
     idempotentRetries :=
       match idempotentRetries b with Some x => Some x | None => idempotentRetries a end |}.

Definition retries (n : Z) : ApiFetchOptions :=
  {| auth := None; retryOn401 := None; throwOnHTTPError := None;
     timeoutMs := None; idempotentRetries := Some n |}.

Definition withGetDefaults (opts extra : option ApiFetchOptions) : ApiFetchOptions :=
  spread (spread (retries 2) (default no_options opts)) (default no_options extra).

(** A value of the parameter record of [qs]. *)
Inductive QV :=
| QStr (s : string)
| QNum (n : Num).

Definition qv_string (L : Lib) (v : QV) : string :=
  match v with
  | QStr s => s
  | QNum n => Number_toString L n
  end.

Fixpoint join_pairs (L : Lib) (l : list (string * string)) : string :=
  match l with
  | [] => ""
  | [(k, v)] => form_encode L k +:+ "=" +:+ form_encode L v
  | (k, v) :: rest =>
      form_encode L k +:+ "=" +:+ form_encode L v +:+ "&" +:+ join_pairs L rest
  end.

Definition qs (L : Lib) (params : list (string * option QV)) : string :=
  let kept :=
    omap (λ kv, match snd kv with
                | None => None
                | Some x =>
                    let s := qv_string L x in
                    if bool_decide (s = "") then None else Some (fst kv, s)
                end) params in
  let s := join_pairs L kept in
  if bool_decide (s = "") then "" else "?" +:+ s.

(** *** Normalizers *)

Definition coerceId (L : Lib) (idRaw : option JSON) (index : nat) : string :=
  match idRaw with
  | Some (JStr s) => if bool_decide (s = "") then "tmp-" +:+ pretty index else s
  | Some (JNum n) => Number_toString L n
  | Some (JBool b) => if b then "true" else "false"
  | _ => "tmp-" +:+ pretty index
  end.

Record PdfItem := {
  item_id : string;
  item_title : string;
  item_pages : Num;
  item_coverUrl : option string;       (* string | null *)
  item_category : option string;
  item_tags : list string;
  item_updatedAt : string
}.

(** The object literal an item is returned as: [category] and [tags] are
    spread in only when they are truthy / non-empty. *)
Definition item_json (n : PdfItem) : JSON :=
  JObj ([("id", JStr (item_id n));
         ("title", JStr (item_title n));
         ("pages", JNum (item_pages n));
         ("coverUrl", match item_coverUrl n with Some u => JStr u | None => JNull end)]
        ++ (if truthy (item_category n)
            then [("category", JStr (default "" (item_category n)))] else [])
        ++ (match item_tags n with
            | [] => []
            | ts => [("tags", JArr (map JStr ts))]
            end)
        ++ [("updatedAt", JStr (item_updatedAt n))]).

(** [typeof p === "number" && Number.isFinite(p) && p > 0 ? p : 1]. *)
Definition coerce_pages (pagesRaw : option JSON) : Num :=
  match pagesRaw with
  | Some (JNum n) => if isFinite n && num_lt (Fin 0) n then n else Fin 1
  | _ => Fin 1
  end.

Definition coerce_title (r : JSON) : string :=
  match nonempty_string (prop "title" r) with
  | Some t => t
  | None => match nonempty_string (prop "name" r) with
            | Some t => t
            | None => "Untitled"
            end
  end.

Definition normalizeItemLike (L : Lib) (raw : JSON) (index : nat) : PdfItem :=
  let r := if isRecord raw then raw else JObj [] in
  {| item_id := coerceId L (nullish (prop "id" r) (prop "_id" r)) index;
     item_title := coerce_title r;
     item_pages := coerce_pages (nullish (prop "pages" r) (prop "pageCount" r));
     item_coverUrl :=
       match prop "coverUrl" r with
       | Some (JStr u) => Some u
       | _ => match prop "thumbnailUrl" r with
              | Some (JStr u) => Some u
              | _ => None
              end
       end;
     item_category := nonempty_string (prop "category" r);
     item_tags := string_array (prop "tags" r);
     item_updatedAt :=
       match nonempty_string (prop "updatedAt" r) with
       | Some t => t
       | None => now_iso L
       end |}.

Definition items_in (raw : JSON) : list JSON :=
  let rr := if isRecord raw then raw else JObj [] in
  match prop "items" rr with
  | Some (JArr l) => l
  | _ => []
  end.

Definition next_cursor (raw : JSON) : list (string * JSON) :=
  let rr := if isRecord raw then raw else JObj [] in
  match nonempty_string (prop "nextCursor" rr) with
  | Some c => [("nextCursor", JStr c)]
  | None => []
  end.

Definition normalizeListResponse (L : Lib) (raw : JSON) : JSON :=
  JObj (("items", JArr (imap (λ i it, item_json (normalizeItemLike L it i)) (items_in raw)))
        :: next_cursor raw).

(** The last coercion of [listPdfs]. *)
Definition coerce_item (n : PdfItem) (i : nat) : PdfItem :=
  {| item_id := if bool_decide (item_id n = "") then "tmp-" +:+ pretty i else item_id n;
     item_title := if bool_decide (item_title n = "") then "Untitled" else item_title n;
     item_pages := if num_lt (Fin 0) (item_pages n) then item_pages n else Fin 1;
     item_coverUrl := item_coverUrl n;
     item_category := item_category n;
     item_tags := item_tags n;
     item_updatedAt := item_updatedAt n |}.

Definition fallbackListResponse (L : Lib) (raw : JSON) : JSON :=
  JObj (("items",
         JArr (imap (λ i it, item_json (coerce_item (normalizeItemLike L it i) i))
                 (items_in raw)))
        :: next_cursor raw).

Record PdfDetail := {
  detail_id : string;
  detail_title : string;
  detail_pages : Num;
  detail_pageUrls : option (list string);   (* string[] | null *)
  detail_category : option string;
  detail_tags : list string
}.

Definition detail_json (d : PdfDetail) : JSON :=
  JObj ([("id", JStr (detail_id d));
         ("title", JStr (detail_title d));
         ("pages", JNum (detail_pages d));
         ("pageUrls", match detail_pageUrls d with
                      | Some us => JArr (map JStr us)
                      | None => JNull
                      end)]
        ++ (if truthy (detail_category d)
            then [("category", JStr (default "" (detail_category d)))] else [])
        ++ (match detail_tags d with
            | [] => []
            | ts => [("tags", JArr (map JStr ts))]
            end)).

Definition normalizeDetail (L : Lib) (raw : JSON) : PdfDetail :=
  let r := if isRecord raw then raw else JObj [] in
  {| detail_id := coerceId L (nullish (prop "id" r) (prop "_id" r)) 0;
     detail_title := coerce_title r;
     detail_pages := coerce_pages (nullish (prop "pages" r) (prop "pageCount" r));
     detail_pageUrls :=
       if isStringArray (prop "pageUrls" r)
       then Some (string_array (prop "pageUrls" r)) else None;
     detail_category := nonempty_string (prop "category" r);
     detail_tags := string_array (prop "tags" r) |}.

(** *** What each endpoint makes of the parsed body *)

Definition listPdfs_shape (L : Lib) (path : string) (raw : JSON) : Result JSON Error :=
  match parseOrThrow (ListResponseSchema L) raw path with
  | Ok v => Ok v
  | Err _ =>
      match parseOrThrow (ListResponseSchema L) (normalizeListResponse L raw) path with
      | Ok v => Ok v
      | Err _ => parseOrThrow (ListResponseSchema L) (fallbackListResponse L raw) path
      end
  end.

Definition getPdfDetail_shape (L : Lib) (path : string) (raw : JSON)
  : Result JSON Error :=
  match parseOrThrow PdfDetailSchema raw path with
  | Ok v => Ok v
  | Err (APIError _ _ _ _) =>
      parseOrThrow PdfDetailSchema (detail_json (normalizeDetail L raw)) path
  | Err e => Err e
  end.

Definition getPageUrl_shape (L : Lib) (path : string) (raw : JSON)
  : Result JSON Error :=
  parseOrThrow (PageUrlSchema L) raw path.

Definition searchPdf_shape (path : string) (raw : JSON) : Result JSON Error :=
  parseOrThrow SearchResponseSchema raw path.

(** *** Endpoints *)

Definition then_shape (shape : JSON → Result JSON Error)
    (r : Result JSON Error * State) : Result JSON Error * State :=
  match r with
  | (Ok raw, c) => (shape raw, c)
  | (Err e, c) => (Err e, c)
  end.

Definition listPdfs (E : Env) (L : Lib) (cursor q category tag sort : option string)
    (opts : option ApiFetchOptions) (c : State) : Result JSON Error * State :=
  let path := "/pdfs" +:+ qs L [("cursor", QStr <$> cursor); ("q", QStr <$> q);
                                ("category", QStr <$> category); ("tag", QStr <$> tag);
                                ("sort", QStr <$> sort)] in
  then_shape (listPdfs_shape L path) (api_get E path (withGetDefaults opts None) c).

Definition getPdfDetail (E : Env) (L : Lib) (id : string)
    (opts : option ApiFetchOptions) (c : State) : Result JSON Error * State :=
  let path := "/pdfs/" +:+ encodeURIComponent L id in
  then_shape (getPdfDetail_shape L path) (api_get E path (withGetDefaults opts None) c).

Record Hints := {
  hint_w : option Num;
  hint_h : option Num;
  hint_dpr : option Num;
  hint_quality : option Num
}.

(** The third argument of [getPageUrl]: rendering hints, or fetch options
    in the old calling convention. *)
Inductive HintsOrOpts :=
| AsHints (h : Hints)
| AsOpts (o : ApiFetchOptions).

(** [isHints]: an object with one of the keys [w], [h], [dpr], [quality]. *)
Definition isHints (u : option HintsOrOpts) : bool :=
  match u with
  | Some (AsHints h) =>
      bool_decide (is_Some (hint_w h)) || bool_decide (is_Some (hint_h h))
      || bool_decide (is_Some (hint_dpr h)) || bool_decide (is_Some (hint_quality h))
  | _ => false
  end.

Definition clampInt (n : option Num) : option Num :=
  match n with
  | Some (Fin q) => Some (num_of_Z (Z.max 1 (round q)))
  | _ => None
  end.

Definition clampQuality (n : option Num) : option Num :=
  match n with
  | Some (Fin q) => Some (num_of_Z (Z.min 100 (Z.max 1 (round q))))
  | _ => None
  end.

Definition getPageUrl (E : Env) (L : Lib) (id : string) (page : Num)
    (hintsOrOpts : option HintsOrOpts) (maybeOpts : option ApiFetchOptions)
    (c : State) : Result JSON Error * State :=
  if negb (isFinite page) || num_lt page (Fin 1) then
    (Err (APIError "Page must be an integer >= 1" 400
            ("/pdfs/" +:+ encodeURIComponent L id +:+ "/pages/"
             +:+ Number_toString L page +:+ "/url") NoData), c)
  else
    let hints := match hintsOrOpts with
                 | Some (AsHints h) => if isHints hintsOrOpts then Some h else None
                 | _ => None
                 end in
    let fetchOpts :=
      if isHints hintsOrOpts then maybeOpts
      else match hintsOrOpts with
           | Some (AsOpts o) => Some o
           | Some (AsHints _) => Some no_options
           | None => None
           end in
    let w := clampInt (hints ≫= hint_w) in
    let h := clampInt (hints ≫= hint_h) in
    let dpr := match hints ≫= hint_dpr with
               | Some n => if num_lt (Fin 0) n then Some n else None
               | None => None
               end in
    let q := clampQuality (hints ≫= hint_quality) in
    let path := "/pdfs/" +:+ encodeURIComponent L id +:+ "/pages/"
                +:+ encodeURIComponent L (Number_toString L page) +:+ "/url"
                +:+ qs L [("w", QNum <$> w); ("h", QNum <$> h);
                          ("dpr", QNum <$> dpr); ("q", QNum <$> q)] in
    then_shape (getPageUrl_shape L path)
      (api_get E path (withGetDefaults fetchOpts (Some (retries 3))) c).

Definition searchPdf (E : Env) (L : Lib) (id q : string)
    (opts : option ApiFetchOptions) (c : State) : Result JSON Error * State :=
  let path := "/pdfs/" +:+ encodeURIComponent L id +:+ "/search"
              +:+ qs L [("q", Some (QStr q))] in
  then_shape (searchPdf_shape path) (api_get E path (withGetDefaults opts None) c).

(** The four endpoints, for statements about all of them. *)
Inductive Endpoint := List | Detail | PageUrl | Search.

Definition shape_of (L : Lib) (e : Endpoint) (path : string) (raw : JSON)
  : Result JSON Error :=
  match e with
  | List => listPdfs_shape L path raw
  | Detail => getPdfDetail_shape L path raw
  | PageUrl => getPageUrl_shape L path raw
  | Search => searchPdf_shape path raw
  end.

(** The strict validation an endpoint starts with. *)
Definition strict_of (L : Lib) (e : Endpoint) : Check :=
  match e with
  | List => ListResponseSchema L
  | Detail => PdfDetailSchema
  | PageUrl => PageUrlSchema L
  | Search => SearchResponseSchema
  end.

(** The normalization pass of an endpoint, where it has one. *)
Definition normalized_of (L : Lib) (e : Endpoint) (raw : JSON) : option JSON :=
  match e with
  | List => Some (normalizeListResponse L raw)
  | Detail => Some (detail_json (normalizeDetail L raw))
  | PageUrl | Search => None
  end.

End PdfApi.

(* ===================================================================== *)
(** ** The reader store ([useReader]) *)
(* ===================================================================== *)

Module ReaderStore.
Import Json.

(** [PageCacheEntry] *)
Record PageCacheEntry := {
  entry_url : string;
  expiresAt : option string
}.

(** The part of [PdfDetail] the store reads; [pageUrls] is [null] or absent
    ([None]), or an array whose slots may be [undefined]. *)
Record PdfDetail := {
  id : string;
  pages : option Z;
  pageUrls : option (list (option string))
}.

Record ReaderState := {
  current : option PdfDetail;
  page : Z;
  searchHits : list (Z * option string);
  loadingDoc : bool;
  pageCache : gmap Z PageCacheEntry
}.

Definition initial : ReaderState :=
  {| current := None; page := 1; searchHits := []; loadingDoc := false; pageCache := ∅ |}.

(** The clock and the runtime's [Date.parse] ([None] is NaN). *)
Record Clock := {
  Date_parse : string → option Z;
  nowMs : Z
}.

(** [isExpired(expiresAt, skewSeconds = 20)] *)
Definition isExpired (K : Clock) (expiresAt : option string) : bool :=
  match expiresAt with
  | None => false
  | Some e =>
      if bool_decide (e = "") then false
      else match Date_parse K e with
           | None => false
           | Some t => (t - 20 * 1000 <=? nowMs K)%Z
           end
  end.

(** [Math.max(1, Math.min(n, total))] *)
Definition clamp (n total : Z) : Z := Z.max 1 (Z.min n total).

(** [arr[i] = x] on a JavaScript array: past the end the array grows, the
    slots in between staying empty. *)
Definition array_set {A} (i : nat) (x : A) (l : list (option A)) : list (option A) :=
  if decide (i < length l) then <[i := Some x]> l
  else l ++ replicate (i - length l) None ++ [Some x].

(** [arr[i]] as a string, [None] for a hole, [undefined] or out of range. *)
Definition array_get {A} (i : nat) (l : list (option A)) : option A :=
  mjoin (l !! i).

Definition set_cache (m : gmap Z PageCacheEntry) (s : ReaderState) : ReaderState :=
  {| current := current s; page := page s; searchHits := searchHits s;
     loadingDoc := loadingDoc s; pageCache := m |}.

(** Errors the store raises itself, and those that come up from the API. *)
Inductive RError :=
| Failure (message : string)          (* new Error(message) *)
| Upstream (e : Client.Error).

(** [isPageUrlResponse] *)
Definition isPageUrlResponse (u : JSON) : bool :=
  match prop "url" u with
  | Some (JStr _) => true
  | _ => false
  end.

Definition resp_url (resp : JSON) : string :=
  match prop "url" resp with Some (JStr u) => u | _ => "" end.

Definition resp_expiresAt (resp : JSON) : option string :=
  match prop "expiresAt" resp with Some (JStr e) => Some e | _ => None end.

(** [safeGetPageUrl], given what [getPageUrlApi] settled with. *)
Definition safeGetPageUrl (answer : Result JSON Client.Error) : Result JSON RError :=
  match answer with
  | Ok resp => if isPageUrlResponse resp then Ok resp
               else Err (Failure "Invalid page-url response")
  | Err e => Err (Upstream e)
  end.

(** [resolvePageUrl] up to its [await]. *)
Inductive Started :=
| Returned (u : string) (s' : ReaderState)    (* resolved without the network *)
| Threw (e : RError)
| Awaiting (docId : string) (pg : Z).         (* await safeGetPageUrl(docId, pg, opts) *)

(** The static URL of a page: [Array.isArray(cur.pageUrls)] and the slot
    holds a non-empty string. *)
Definition static_url (cur : PdfDetail) (pg : Z) : option string :=
  match pageUrls cur with
  | Some urls =>
      match array_get (Z.to_nat (pg - 1)) urls with
      | Some staticUrl => if bool_decide (staticUrl = "") then None else Some staticUrl
      | None => None
      end
  | None => None
  end.

Definition resolve_start (K : Clock) (n : Z) (s : ReaderState) : Started :=
  match current s with
  | None => Threw (Failure "No document is open.")
  | Some cur =>
      let total := default 1%Z (pages cur) in
      let pg := clamp n total in
      let docId := id cur in
      let cached := pageCache s !! pg in
      match cached with
      | Some e =>
          if negb (isExpired K (expiresAt e)) then Returned (entry_url e) s
          else Awaiting docId pg
      | None =>
          match static_url cur pg with
          | Some staticUrl =>
              Returned staticUrl
                (set_cache (<[pg := {| entry_url := staticUrl; expiresAt := None |}]>
                              (pageCache s)) s)
          | None => Awaiting docId pg
          end
      end
  end.

(** [resolvePageUrl] from its [await] on, in the state [s] the store is in
    by then. *)
Definition resolve_resume (docId : string) (pg : Z)
    (answer : Result JSON Client.Error) (s : ReaderState)
  : Result string RError * ReaderState :=
  match safeGetPageUrl answer with
  | Err e => (Err e, s)
  | Ok resp =>
      match current s with
      | Some cur =>
          if bool_decide (id cur = docId) then
            let totalPages := Z.max 1 (default 1%Z (pages cur)) in
            let base := match pageUrls cur with
                        | Some urls => urls
                        | None => replicate (Z.to_nat totalPages) None
                        end in
            let nextPageUrls := array_set (Z.to_nat (pg - 1)) (resp_url resp) base in
            (Ok (resp_url resp),
             {| current := Some {| id := id cur; pages := pages cur;
                                   pageUrls := Some nextPageUrls |};
                page := page s; searchHits := searchHits s; loadingDoc := loadingDoc s;
                pageCache := <[pg := {| entry_url := resp_url resp;
                                        expiresAt := resp_expiresAt resp |}]>
                               (pageCache s) |})
          else (Err (Failure "Document changed"), s)
      | None => (Err (Failure "Document changed"), s)
      end
  end.

(** The page-url endpoint as the store sees it: what a call (document,
    page, rendering hints) is answered with, given the calls made before.
    [PageUrlOpts] has the fields of the endpoint's hints. *)
Definition Call : Type := string * Z * option PdfApi.Hints.
Definition Api : Type :=
  list Call → string → Z → option PdfApi.Hints → Result JSON Client.Error.

(** One whole [resolvePageUrl] with nothing else running in between.
    Returns the result, the state, and the calls of the endpoint. *)
Definition resolvePageUrl (K : Clock) (api : Api) (n : Z)
    (opts : option PdfApi.Hints) (s : ReaderState) (calls : list Call)
  : Result string RError * ReaderState * list Call :=
  match resolve_start K n s with
  | Returned u s' => (Ok u, s', calls)
  | Threw e => (Err e, s, calls)
  | Awaiting docId pg =>
      let '(r, s') := resolve_resume docId pg (api calls docId pg opts) s in
      (r, s', calls ++ [(docId, pg, opts)])
  end.

(** What a call that goes to the network does: one call of the endpoint
    for the clamped page of the open document and, when it answers with a
    page-url response, that URL as the result, [{url, expiresAt}] in the
    cache, and the URL in the static list at the page's index. *)
Definition via_network (K : Clock) (api : Api) (n : Z) (opts : option PdfApi.Hints)
    (s : ReaderState) (calls : list Call) (cur : PdfDetail) (pg : Z) : Prop :=
  ∃ r s',
    resolvePageUrl K api n opts s calls = (r, s', calls ++ [(id cur, pg, opts)])
    ∧ ∀ resp, api calls (id cur) pg opts = Ok resp → isPageUrlResponse resp = true →
        r = Ok (resp_url resp)
        ∧ pageCache s' !! pg = Some {| entry_url := resp_url resp;
                                       expiresAt := resp_expiresAt resp |}
        ∧ ∃ cur', current s' = Some cur' ∧ id cur' = id cur
                  ∧ ∃ urls, pageUrls cur' = Some urls
                            ∧ array_get (Z.to_nat (pg - 1)) urls = Some (resp_url resp).

(** [open(id)], given what [getPdfDetail] settled with; the same document
    is not fetched again. *)
Definition open (docId : string) (answer : Result PdfDetail Client.Error)
    (s : ReaderState) : Result unit RError * ReaderState :=
  let s1 := set_cache ∅ s in
  match current s with
  | Some cur =>
      if bool_decide (id cur = docId) then
        (Ok (), {| current := current s1; page := page s1; searchHits := [];
                   loadingDoc := false; pageCache := pageCache s1 |})
      else
        match answer with
        | Ok detail =>
            (Ok (), {| current := Some detail; page := 1; searchHits := [];
                       loadingDoc := false; pageCache := ∅ |})
        | Err _ =>
            (Err (Failure "Failed to open document"),
             {| current := current s1; page := 1; searchHits := [];
                loadingDoc := false; pageCache := pageCache s1 |})
        end
  | None =>
      match answer with
      | Ok detail =>
          (Ok (), {| current := Some detail; page := 1; searchHits := [];
                     loadingDoc := false; pageCache := ∅ |})
      | Err _ =>
          (Err (Failure "Failed to open document"),
           {| current := current s1; page := 1; searchHits := [];
              loadingDoc := false; pageCache := pageCache s1 |})
      end
  end.

(** [n] calls of [resolvePageUrl] for the same page, one after the other,
    each at its own time. *)
Fixpoint resolve_many (parse : string → option Z) (api : Api) (n : Z)
    (opts : option PdfApi.Hints) (times : list Z) (s : ReaderState)
    (calls : list Call)
  : list (Result string RError) * ReaderState * list Call :=
  match times with
  | [] => ([], s, calls)
  | t :: rest =>
      let '(r, s1, calls1) :=
        resolvePageUrl {| Date_parse := parse; nowMs := t |} api n opts s calls in
      let '(rs, s2, calls2) := resolve_many parse api n opts rest s1 calls1 in
      (r :: rs, s2, calls2)
  end.

End ReaderStore.

(* ===================================================================== *)
(** ** Sample environments *)
(* ===================================================================== *)

Module Demo.
Import Json Text Client.

Definition quote : string := String "034"%char EmptyString.

(** The text [{"accessToken":"t"}]. *)
Definition token_body (t : string) : string :=
  "{" +:+ quote +:+ "accessToken" +:+ quote +:+ ":" +:+ quote +:+ t +:+ quote +:+ "}".

(** The text [{"accessToken":123}]. *)
Definition number_body : string :=
  "{" +:+ quote +:+ "accessToken" +:+ quote +:+ ":123}".

(** [JSON.parse] on the few texts the samples use. *)
Definition parse (s : string) : option JSON :=
  if bool_decide (s = token_body "t2") then Some (JObj [("accessToken", JStr "t2")])
  else if bool_decide (s = number_body)
  then Some (JObj [("accessToken", JNum (num_of_Z 123))])
  else if bool_decide (s = "{}") then Some (JObj [])
  else if bool_decide (s = "null") then Some JNull
  else None.

(** The credentials the samples log in with, and [JSON.stringify] on a
    record of two strings ([{}] on what is used besides). *)
Definition credentials : JSON :=
  JObj [("email", JStr "reader@example.com"); ("password", JStr "secret")].

Definition stringify (j : JSON) : string :=
  match j with
  | JObj [(k1, JStr e); (k2, JStr pw)] =>
      "{" +:+ quote +:+ k1 +:+ quote +:+ ":" +:+ quote +:+ e +:+ quote +:+ ","
      +:+ quote +:+ k2 +:+ quote +:+ ":" +:+ quote +:+ pw +:+ quote +:+ "}"
  | _ => "{}"
  end.

(** A server that answers the [i]-th request with the [i]-th outcome. *)
Definition scripted (answers : list FetchOutcome) : list Event → Request → FetchOutcome :=
  λ l _, nth (fetches l) answers (Rejected "offline").

Definition reply (st : Z) (body : string) : FetchOutcome :=
  Responded {| status := st; text := body |}.

Definition env (answers : list FetchOutcome) (refresh : FetchOutcome) : Env :=
  {| BASE_URL := "https://api.example.com//";
     pf := SecureStore.web_memory;
     sf := SecureStore.healthy;
     JSON_parse := parse;
     net := scripted answers;
     auth_net := λ _, refresh |}.

Definition store0 : SecureStore.State :=
  SecureStore.setAccessToken SecureStore.web_memory SecureStore.healthy (Some (JStr "t1"))
    (SecureStore.initial SecureStore.web_memory SecureStore.healthy ∅ ∅).

(** A protected resource that wants a fresh token. *)
Definition env_401 : Env :=
  env [reply 401 ""; reply 200 "{}"] (reply 200 (token_body "t2")).

(** The same, with a refresh endpoint that answers with a number for a
    token. *)
Definition env_401_number : Env :=
  env [reply 401 ""; reply 200 "{}"] (reply 200 number_body).

(** A rate-limited resource. *)
Definition env_429 : Env :=
  env [reply 429 ""; reply 429 ""; reply 200 "{}"] (Rejected "offline").

(** A server that answers every request with an empty object. *)
Definition env_empty : Env := env [reply 200 "{}"] (Rejected "offline").

Definition lib : PdfApi.Lib :=
  {| PdfApi.encodeURIComponent := λ s, s;
     PdfApi.form_encode := λ s, s;
     PdfApi.Number_toString :=
       λ n, match n with
            | NaN => "NaN"
            | PosInf => "Infinity"
            | NegInf => "-Infinity"
            | Fin q => pretty (Qfloor q)
            end;
     PdfApi.now_iso := "2025-06-01T12:00:00.000Z";
     PdfApi.zod_datetime :=
       λ s, bool_decide (s = "2025-06-01T12:00:00.000Z")
            || bool_decide (s = "2025-01-01T00:00:00.000Z");
     PdfApi.rejects_unknown_keys := false |}.

(** [Date.parse] on one timestamp (and NaN on what is used besides). *)
Definition date_parse (s : string) : option Z :=
  if bool_decide (s = "1970-01-01T01:00:00.000Z") then Some 3600000%Z
  else None.

Definition clock (now : Z) : ReaderStore.Clock :=
  {| ReaderStore.Date_parse := date_parse; ReaderStore.nowMs := now |}.

(** A page-url endpoint that signs a URL valid for one hour. *)
Definition signer : ReaderStore.Api :=
  λ _ docId pg _,
    Ok (JObj [("url", JStr ("https://cdn.example.com/" +:+ docId +:+ "/fresh.png"));
              ("expiresAt", JStr "1970-01-01T01:00:00.000Z")]).

Definition doc1 : ReaderStore.PdfDetail :=
  {| ReaderStore.id := "doc1"; ReaderStore.pages := Some 3%Z;
     ReaderStore.pageUrls := Some [Some "https://cdn.example.com/doc1/1.png"; None; None] |}.

Definition doc2 : ReaderStore.PdfDetail :=
  {| ReaderStore.id := "doc2"; ReaderStore.pages := Some 5%Z;
     ReaderStore.pageUrls := None |}.

Definition reading (d : ReaderStore.PdfDetail) (cache : gmap Z ReaderStore.PageCacheEntry)
  : ReaderStore.ReaderState :=
  {| ReaderStore.current := Some d; ReaderStore.page := 1; ReaderStore.searchHits := [];
     ReaderStore.loadingDoc := false; ReaderStore.pageCache := cache |}.

(** An entry whose expiry does not parse. *)
Definition garbled : gmap Z ReaderStore.PageCacheEntry :=
  {[ 1%Z := {| ReaderStore.entry_url := "https://cdn.example.com/doc1/old.png";
               ReaderStore.expiresAt := Some "soon" |} ]}.

End Demo.

(* ===================================================================== *)
(** ** src/api/client.ts: JSON helpers and the session *)
(* ===================================================================== *)

Module Session.
Import Json Text Client.

(** The [body] argument of [postJSON], [patchJSON], [putJSON]: absent, a
    value to be serialised, or a [FormData] (named by its payload). *)
Inductive Payload :=
| NoPayload
| JsonPayload (j : JSON)
| FormPayload (form : string).

Definition isForm (b : Payload) : bool :=
  match b with FormPayload _ => true | _ => false end.

Section WithEnv.

Variable E : Env.
Variable stringify : JSON → string.        (* JSON.stringify *)

(** [{ ...init, method, headers, body }] as the three helpers build it;
    for a body that is not a form the headers are the [Headers] object of
    [jsonHeaders]. *)
Definition body_init (m : string) (b : Payload) (init : RequestInit) : RequestInit :=
  {| init_method := Some m;
     init_headers := if isForm b then init_headers init
                     else entries (jsonHeaders (init_headers init));
     init_body := match b with
                  | FormPayload f => Some f
                  | JsonPayload JNull => None          (* body != null fails *)
                  | JsonPayload j => Some (stringify j)
                  | NoPayload => None
                  end;
     init_credentials := init_credentials init |}.

Definition parsed (r : Result Response Error * State) : Result JSON Error * State :=
  match r with
  | (Ok res, c) => (Ok (safeJson E res), c)
  | (Err e, c) => (Err e, c)
  end.

Definition postJSON (path : string) (b : Payload) (init : RequestInit)
    (opts : ApiFetchOptions) (c : State) : Result JSON Error * State :=
  parsed (apiFetch E path (body_init "POST" b init) opts c).

Definition patchJSON (path : string) (b : Payload) (init : RequestInit)
    (opts : ApiFetchOptions) (c : State) : Result JSON Error * State :=
  parsed (apiFetch E path (body_init "PATCH" b init) opts c).

Definition putJSON (path : string) (b : Payload) (init : RequestInit)
    (opts : ApiFetchOptions) (c : State) : Result JSON Error * State :=
  parsed (apiFetch E path (body_init "PUT" b init) opts c).

Definition deleteJSON (path : string) (init : RequestInit)
    (opts : ApiFetchOptions) (c : State) : Result JSON Error * State :=
  parsed (apiFetch E path (with_method "DELETE" init) opts c).

(** [loginWithPassword(input)], given what the POST to [/auth/login]
    settles with. Returns [{ accessToken }], here the token: whatever
    truthy value the body holds under [accessToken]. *)
Definition loginWithPassword (input : JSON) (answer : FetchOutcome) (c : State)
  : Result JSON Error * State :=
  let u := toURL E "/auth/login" in
  let c1 := add_log (EvLoginPost u (stringify input)) c in
  match answer with
  | Rejected reason => (Err (FetchFailed reason), c1)
  | Responded res =>
      if negb (ok res) then
        (Err (APIError "Login failed" (status res) u (Body (safeJson E res))), c1)
      else
        match accessToken_of (safeJson E res) with
        | Some t =>
            if js_truthy t then
              (Ok t, set_store (SecureStore.setAccessToken (pf E) (sf E) (Some t) (store c1)) c1)
            else
              (Err (APIError "No access token in response" (status res) u
                      (Body (safeJson E res))), c1)
        | None =>
            (Err (APIError "No access token in response" (status res) u
                    (Body (safeJson E res))), c1)
        end
  end.

(** [getAccessToken] of the client. *)
Definition getAccessToken (c : State) : option JSON * State :=
  let '(t, st) := SecureStore.getAccessToken (pf E) (sf E) (store c) in
  (t, set_store st c).


End WithEnv.

End Session.

(* ===================================================================== *)
(** ** The library store ([useLibrary]) and the reader's [setPage] *)
(* ===================================================================== *)

Module LibraryStore.
Import Json.

(** [ListResponse] as [listPdfs] returns it. *)
Record ListResponse := {
  res_items : list PdfApi.PdfItem;
  res_nextCursor : option string
}.

Record LibraryState := {
  items : list PdfApi.PdfItem;
  nextCursor : option string;
  loading : bool;
  hasMore : bool;
  query : string;
  category : option string;
  tag : option string
}.

Definition initial : LibraryState :=
  {| items := []; nextCursor := None; loading := false; hasMore := false;
     query := ""; category := None; tag := None |}.

(** [m.set(k, v)] on a [Map] kept in insertion order: an existing key keeps
    its place and takes the new value, a new key goes to the end. *)
Fixpoint map_set {A} (k : string) (v : A) (m : list (string * A)) : list (string * A) :=
  match m with
  | [] => [(k, v)]
  | (k', v') :: rest =>
      if bool_decide (k = k') then (k, v) :: rest else (k', v') :: map_set k v rest
  end.

(** [new Map(merged.map(it => [it.id, it]))] *)
Definition map_of (merged : list PdfApi.PdfItem) : list (string * PdfApi.PdfItem) :=
  foldl (λ m it, map_set (PdfApi.item_id it) it m) [] merged.

(** [Array.from(new Map(...).values())] *)
Definition uniqueById (merged : list PdfApi.PdfItem) : list PdfApi.PdfItem :=
  map snd (map_of merged).

(** The options of [refresh]. *)
Record Filters := {
  f_query : option string;
  f_category : option string;
  f_tag : option string
}.

(** [refresh(opts)], given what [listPdfs] settles with. *)
Definition refresh (opts : Filters) (answer : Result ListResponse Client.Error)
    (s : LibraryState) : Result unit string * LibraryState :=
  let nextQuery := default "" (f_query opts) in
  let s1 :=
    if negb (loading s) then
      {| items := []; nextCursor := None; loading := true; hasMore := false;
         query := nextQuery; category := f_category opts; tag := f_tag opts |}
    else
      {| items := items s; nextCursor := nextCursor s; loading := loading s;
         hasMore := hasMore s;
         query := nextQuery; category := f_category opts; tag := f_tag opts |} in
  match answer with
  | Ok res =>
      (Ok (),
       {| items := res_items res; nextCursor := res_nextCursor res; loading := false;
          hasMore := truthy (res_nextCursor res);
          query := nextQuery; category := f_category opts; tag := f_tag opts |})
  | Err _ =>
      (Err "Failed to refresh library",
       {| items := items s1; nextCursor := nextCursor s1; loading := false;
          hasMore := hasMore s1; query := query s1; category := category s1;
          tag := tag s1 |})
  end.

(** What [fetchNext] asks [listPdfs] for, if anything. *)
Definition fetchNext_request (s : LibraryState)
  : option (string * string * option string * option string) :=
  if loading s || negb (truthy (nextCursor s)) then None
  else Some (default "" (nextCursor s), query s, category s, tag s).

(** [fetchNext()], given what [listPdfs] settles with (not asked when the
    guard returns early). *)
Definition fetchNext (answer : Result ListResponse Client.Error) (s : LibraryState)
  : Result unit string * LibraryState :=
  match fetchNext_request s with
  | None => (Ok (), s)
  | Some _ =>
      match answer with
      | Ok res =>
          (Ok (),
           {| items := uniqueById (items s ++ res_items res);
              nextCursor := res_nextCursor res;
              hasMore := truthy (res_nextCursor res);
              loading := false;
              query := query s; category := category s; tag := tag s |})
      | Err _ =>
          (Err "Failed to fetch next page",
           {| items := items s; nextCursor := nextCursor s; loading := false;
              hasMore := hasMore s; query := query s; category := category s;
              tag := tag s |})
      end
  end.

Definition ids (l : list PdfApi.PdfItem) : list string := map PdfApi.item_id l.

End LibraryStore.

Module ReaderActions.
Import Json ReaderStore.

(** [setPage(n)] *)
Definition setPage (n : Z) (s : ReaderState) : ReaderState :=
  let total := match current s with
               | Some cur => default 1%Z (pages cur)
               | None => 1%Z
               end in
  {| current := current s; page := clamp n total; searchHits := searchHits s;
     loadingDoc := loadingDoc s; pageCache := pageCache s |}.

End ReaderActions.

(* ===================================================================== *)
(** * Properties *)
(* ===================================================================== *)

(** ** Token store *)

Section TokenStoreFacts.
Import Json SecureStore.

Lemma available_after_probe f s :
  secureStoreChecked (snd (secureStoreAvailable f s)) = true
  ∧ secureStoreIsAvailable (snd (secureStoreAvailable f s))
    = fst (secureStoreAvailable f s).
Proof.
  unfold secureStoreAvailable.
  destruct (secureStoreChecked s) eqn:Hc; simpl; auto.
Qed.

(** Once the probe has been made its answer is kept. *)
Lemma available_cached f g s :
  secureStoreAvailable g (snd (secureStoreAvailable f s))
  = (fst (secureStoreAvailable f s), snd (secureStoreAvailable f s)).
Proof.
  destruct (available_after_probe f s) as [Hc Ha].
  unfold secureStoreAvailable at 1. rewrite Hc, Ha. reflexivity.
Qed.

Lemma memory_after_broadcast pf v s :
  inMemoryToken (broadcastToken pf v s) = inMemoryToken s
  ∧ sessionStorage (broadcastToken pf v s) = sessionStorage s.
Proof. unfold broadcastToken. destruct (has_bc pf); auto. Qed.

(** C8 (as amended). A read after [set(x)] returns [x] whenever the write
    and the read reach the same backing cell ([write_then_read_ok]: always
    on web with memory only; on web with session persistence unless the
    write throws and the read does not; on native when the secure store is
    available and neither call throws). A read whose storage access throws
    never raises: it answers [null] on native and the in-memory copy on
    web. *)
Theorem token_store_contract pf fw fr s (x : string) :
  write_then_read_ok pf fw fr s = true →
  fst (getAccessToken pf fr (setAccessToken pf fw (Some (JStr x)) s)) = Some (JStr x)
  ∧ fst (getAccessToken pf {| throws := true; probe := probe fr |} s)
    = (if isWeb pf then inMemoryToken s else None).
Proof.
  intros Hok. split.
  - unfold write_then_read_ok in Hok.
    unfold getAccessToken, setAccessToken, getItemAsync, setItemAsync.
    destruct (isWeb pf) eqn:Hweb.
    + rewrite bool_decide_eq_true_2 by reflexivity.
      destruct (WEB_PERSIST pf && has_window pf) eqn:Hp.
      * destruct (throws fw) eqn:Hw, (throws fr) eqn:Hr; simpl in Hok;
          try discriminate; simpl.
        -- apply memory_after_broadcast.
        -- destruct (memory_after_broadcast pf (Some (JStr x))
             (set_memory (Some (JStr x))
                (set_session (<[ACCESS_TOKEN_KEY:=x]> (sessionStorage s)) s)))
             as [Hm _].
           exact Hm.
        -- destruct (memory_after_broadcast pf (Some (JStr x))
             (set_memory (Some (JStr x))
                (set_session (<[ACCESS_TOKEN_KEY:=x]> (sessionStorage s)) s)))
             as [_ Hs].
           rewrite Hs. simpl. rewrite lookup_insert_eq. reflexivity.
      * simpl. apply memory_after_broadcast.
    + destruct (available_after_probe fw s) as [Hch Hav'].
      destruct (secureStoreAvailable fw s) as [av s1] eqn:Hs. simpl in *.
      apply andb_prop in Hok as [Hok Hr]. apply andb_prop in Hok as [Hav Hw].
      subst av. simpl.
      apply negb_true_iff in Hw, Hr. rewrite Hw.
      unfold secureStoreAvailable. simpl. rewrite Hch, Hav'. simpl.
      rewrite Hr, lookup_insert_eq. reflexivity.
  - unfold getAccessToken, getItemAsync. simpl.
    destruct (isWeb pf).
    + destruct (WEB_PERSIST pf && has_window pf); reflexivity.
    + destruct (secureStoreAvailable _ s) as [av s1].
      destruct av; reflexivity.
Qed.

(** The contract at work on the session-persistent web store. *)
Lemma token_store_contract_witness :
  fst (getAccessToken web_session healthy
         (setAccessToken web_session healthy (Some (JStr "tok"))
            (initial web_session healthy ∅ ∅))) = Some (JStr "tok")
  ∧ fst (getAccessToken web_session {| throws := true; probe := probe healthy |}
           (initial web_session healthy ∅ ∅))
    = (if isWeb web_session
       then inMemoryToken (initial web_session healthy ∅ ∅) else None).
Proof.
  apply (token_store_contract web_session healthy healthy
           (initial web_session healthy ∅ ∅) "tok").
  reflexivity.
Defined.

(** C8 as stated fails: with session persistence on the web and
    [sessionStorage] blocked, so that every access throws, a read does not
    answer [null]; it answers the in-memory copy. *)
Lemma token_read_failure_not_null :
  fst (getAccessToken web_session blocked
         (setAccessToken web_session blocked (Some (JStr "tok"))
            (initial web_session blocked ∅ ∅))) = Some (JStr "tok").
Proof. reflexivity. Qed.

End TokenStoreFacts.

(** ** URL building *)

Section UrlFacts.
Import Text Client.

Lemma append_cons c s t : String c s +:+ t = String c (s +:+ t).
Proof. reflexivity. Qed.

Lemma append_empty_l t : "" +:+ t = t.
Proof. reflexivity. Qed.

Lemma starts_with_split p s :
  starts_with p s = true → ∃ rest, s = p +:+ rest.
Proof.
  revert s. induction p as [|a p IH]; intros s H.
  - exists s. reflexivity.
  - destruct s as [|b s]; simpl in H; [discriminate|].
    apply andb_prop in H as [Hab Hp].
    apply bool_decide_eq_true_1 in Hab. subst b.
    destruct (IH s Hp) as [rest ->]. exists rest. reflexivity.
Qed.

Lemma starts_with_append p rest : starts_with p (p +:+ rest) = true.
Proof.
  induction p as [|a p IH]; simpl; [reflexivity|].
  rewrite IH. rewrite bool_decide_eq_true_2; reflexivity.
Qed.

Lemma scheme_tail_spec r :
  scheme_tail r = true ↔
  ∃ mid rest, r = mid +:+ "://" +:+ rest
              ∧ ∀ x, In x (String.list_ascii_of_string mid) → is_scheme_char x = true.
Proof.
  split.
  - induction r as [|c r IH]; cbn [scheme_tail]; [discriminate|].
    destruct (is_scheme_char c) eqn:Hc.
    + intros H. destruct (IH H) as (mid & rest & -> & Hall).
      exists (String c mid), rest. split; [reflexivity|].
      intros x [<-|Hx]; auto.
    + intros H. apply (starts_with_split "://") in H as [rest Hr].
      exists "", rest. split; [exact Hr|]. intros x [].
  - intros (mid & rest & -> & Hall).
    induction mid as [|x mid IH].
    + reflexivity.
    + rewrite ?append_cons. cbn [scheme_tail].
      rewrite (Hall x) by (left; reflexivity).
      apply IH. intros y Hy. apply Hall. right. exact Hy.
Qed.

(** The test of [toURL] is the regular expression it is written with. *)
Lemma is_absolute_spec s : is_absolute s = true ↔ absolute_pattern s.
Proof.
  unfold absolute_pattern. destruct s as [|c r]; simpl.
  - split; [discriminate|]. intros (c & mid & rest & H & _). discriminate.
  - rewrite andb_true_iff, scheme_tail_spec. split.
    + intros (Hc & mid & rest & -> & Hall). exists c, mid, rest. auto.
    + intros (c' & mid & rest & Heq & Hc & Hall).
      injection Heq as -> ->. split; [exact Hc|]. exists mid, rest. auto.
Qed.

Lemma strip_leading_spec s :
  ∃ j, s = slashes j +:+ strip_leading_slashes s
       ∧ first_char (strip_leading_slashes s) ≠ Some "/"%char.
Proof.
  induction s as [|c r IH]; simpl.
  - exists 0. split; [reflexivity|discriminate].
  - unfold is_slash. case_bool_decide as Hc.
    + subst c. destruct IH as (j & Hj & Hf). exists (S j). split; [|exact Hf].
      simpl. rewrite ?append_cons. f_equal. exact Hj.
    + exists 0. split; [reflexivity|]. simpl. congruence.
Qed.

Lemma strip_trailing_spec s :
  ∃ i, s = strip_trailing_slashes s +:+ slashes i
       ∧ last_char (strip_trailing_slashes s) ≠ Some "/"%char.
Proof.
  induction s as [|c r IH]; simpl.
  - exists 0. split; [reflexivity|discriminate].
  - destruct IH as (i & Hi & Hl).
    unfold is_slash. case_bool_decide as Hc; simpl.
    + case_bool_decide as He.
      * subst c. exists (S i). rewrite He in Hi. rewrite ?append_empty_l in *.
        split; [|discriminate]. simpl. f_equal. exact Hi.
      * exists i. rewrite ?append_cons. split; [f_equal; exact Hi|].
        simpl. destruct (strip_trailing_slashes r); [congruence|exact Hl].
    + exists i. rewrite ?append_cons. split; [f_equal; exact Hi|].
      simpl. destruct (strip_trailing_slashes r); [congruence|exact Hl].
Qed.

(** C6. An input that matches the absolute-URI pattern is used as it is.
    Any other input gives: the base URL without its trailing slashes, one
    slash, the input without its leading slashes; what comes before that
    slash does not end in a slash and what comes after does not start with
    one. *)
Theorem toURL_contract (E : Env) (input : string) :
  (absolute_pattern input → toURL E input = input)
  ∧ (¬ absolute_pattern input →
     ∃ base path i j,
       toURL E input = base +:+ "/" +:+ path
       ∧ BASE_URL E = base +:+ slashes i
       ∧ input = slashes j +:+ path
       ∧ last_char base ≠ Some "/"%char
       ∧ first_char path ≠ Some "/"%char).
Proof.
  split.
  - intros H. apply is_absolute_spec in H. unfold toURL. rewrite H. reflexivity.
  - intros H.
    assert (Hf : is_absolute input = false).
    { destruct (is_absolute input) eqn:Hb; [|reflexivity].
      exfalso. apply H, is_absolute_spec, Hb. }
    destruct (strip_trailing_spec (BASE_URL E)) as (i & Hi & Hl).
    destruct (strip_leading_spec input) as (j & Hj & Hp).
    exists (strip_trailing_slashes (BASE_URL E)), (strip_leading_slashes input), i, j.
    unfold toURL. rewrite Hf. auto.
Qed.

End UrlFacts.

(** ** The refresh coordinator *)

Section CoordinatorFacts.
Import Json Text Client.

Variable E : Env.

Lemma posts_snoc l e : posts (l ++ [e]) = posts l + (if is_post e then 1 else 0).
Proof.
  unfold posts. rewrite filter_app, length_app. f_equal.
  destruct e; reflexivity.
Qed.

Lemma refresh_calls_snoc l e :
  refresh_calls (l ++ [e]) = refresh_calls l + (if is_refresh_call e then 1 else 0).
Proof.
  unfold refresh_calls. rewrite filter_app, length_app. f_equal.
  destruct e; reflexivity.
Qed.

Lemma fetches_snoc l e : fetches (l ++ [e]) = fetches l + (if is_fetch e then 1 else 0).
Proof.
  unfold fetches. rewrite filter_app, length_app. f_equal.
  destruct e; reflexivity.
Qed.

Lemma wf_idle st : wf (idle st).
Proof.
  split; simpl; [reflexivity|].
  intros q [v Hv]. rewrite lookup_empty in Hv. discriminate.
Qed.

(** A body that is suspended is the one the slot names. *)
Lemma wf_phase c p ph :
  wf c → phase_of p c = Some ph →
  refreshPromise c = Some p ∧ bodies c = [(p, ph)]
  ∧ settled c !! p = None ∧ p < fresh c
  ∧ (∀ v, ph = AwaitStore v → js_truthy v = true).
Proof.
  intros [Hslot _] Hph. unfold phase_of in Hph.
  destruct (refreshPromise c) as [p'|].
  - destruct Hslot as (ph' & Hb & Hs & Hlt & Htok).
    rewrite Hb in Hph. simpl in Hph.
    case_bool_decide as Hp; [|discriminate].
    subst p'. injection Hph as ->. rewrite Hb. auto.
  - rewrite Hslot in Hph. discriminate.
Qed.

Lemma wf_finish c p ph v :
  wf c → phase_of p c = Some ph → wf (finish p v c).
Proof.
  intros Hwf Hph. destruct (wf_phase _ _ _ Hwf Hph) as (Hs & Hb & Hn & Hlt & _).
  destruct Hwf as [_ Hset]. split; simpl.
  - rewrite Hb. simpl. rewrite bool_decide_eq_true_2 by reflexivity. reflexivity.
  - intros q Hq. destruct (decide (q = p)) as [->|Hne]; [exact Hlt|].
    rewrite lookup_insert_ne in Hq by congruence. auto.
Qed.

Lemma wf_set_phase c p ph ph' :
  wf c → phase_of p c = Some ph → (∀ v, ph' = AwaitStore v → js_truthy v = true) →
  wf (set_phase p ph' c).
Proof.
  intros Hwf Hph Htok.
  destruct (wf_phase _ _ _ Hwf Hph) as (Hs & Hb & Hn & Hlt & _).
  destruct Hwf as [_ Hset]. split; simpl; [|exact Hset].
  rewrite Hs. exists ph'. rewrite Hb. simpl.
  rewrite bool_decide_eq_true_2 by reflexivity. auto.
Qed.

Lemma wf_set_store c st : wf c → wf (set_store st c).
Proof. intros H. exact H. Qed.


Lemma wf_refreshAccessToken c : wf c → wf (snd (refreshAccessToken E c)).
Proof.
  intros Hwf. unfold refreshAccessToken.
  destruct (refreshPromise c) as [p|] eqn:Hs; [exact Hwf|].
  destruct Hwf as [Hb Hset]. rewrite Hs in Hb. split; simpl.
  - exists AwaitFetch. rewrite Hb. split; [reflexivity|]. split.
    + destruct (settled c !! fresh c) eqn:Hl; [|reflexivity].
      assert (fresh c < fresh c) by (apply Hset; eauto). lia.
    + split; [lia|]. discriminate.
  - intros q Hq. apply Hset in Hq. lia.
Qed.

Lemma wf_step a c : wf c → wf (step E a c).
Proof.
  intros Hwf. destruct a as [|p o|p|p]; simpl.
  - apply wf_refreshAccessToken, Hwf.
  - unfold fetch_settles. destruct (phase_of p c) as [[|r|s]|] eqn:Hph; auto.
    destruct o as [r|?]; [|eapply wf_finish; eauto].
    destruct (negb (ok r)); [eapply wf_finish; eauto|].
    eapply wf_set_phase; eauto; discriminate.
  - unfold text_settles. destruct (phase_of p c) as [[|r|s]|] eqn:Hph; auto.
    destruct (accessToken_of (safeJson E r)) as [s|] eqn:Hn;
      [|eapply wf_finish; eauto].
    destruct (truthy_value (Some s)) eqn:Ht; [|eapply wf_finish; eauto].
    eapply wf_set_phase; eauto.
    intros s' [= <-]. exact Ht.
  - unfold store_settles. destruct (phase_of p c) as [[|r|s]|] eqn:Hph; auto.
    eapply wf_finish; [apply wf_set_store, Hwf|exact Hph].
Qed.

Lemma wf_run acts c : wf c → wf (run E acts c).
Proof.
  revert c. induction acts as [|a acts IH]; intros c Hwf; [exact Hwf|].
  simpl. apply IH, wf_step, Hwf.
Qed.

Lemma wf_inflight c : wf c → inflight c ≤ 1.
Proof.
  intros [Hslot _]. unfold inflight.
  destruct (refreshPromise c) as [p|].
  - destruct Hslot as (ph & -> & _). destruct ph; simpl; lia.
  - rewrite Hslot. simpl. lia.
Qed.

(** A settled promise keeps its value. *)
Lemma settled_step a c p v :
  wf c → settled c !! p = Some v → settled (step E a c) !! p = Some v.
Proof.
  intros Hwf Hv.
  assert (Hfin : ∀ q ph w, phase_of q c = Some ph →
                 settled (finish q w c) !! p = Some v).
  { intros q ph w Hph. destruct (wf_phase _ _ _ Hwf Hph) as (_ & _ & Hn & _).
    simpl. rewrite lookup_insert_ne by congruence. exact Hv. }
  destruct a as [|q o|q|q]; simpl.
  - unfold refreshAccessToken. destruct (refreshPromise c); exact Hv.
  - unfold fetch_settles. destruct (phase_of q c) as [[|r|s]|] eqn:Hph; auto.
    destruct o as [r|?]; [|eauto].
    destruct (negb (ok r)); [eauto|exact Hv].
  - unfold text_settles. destruct (phase_of q c) as [[|r|s]|] eqn:Hph; auto.
    destruct (accessToken_of (safeJson E r)) as [s|]; [|eauto].
    destruct (truthy_value (Some s)); [exact Hv|eauto].
  - unfold store_settles. destruct (phase_of q c) as [[|r|s]|] eqn:Hph; auto.
    simpl. destruct (wf_phase _ _ _ Hwf Hph) as (_ & _ & Hn & _).
    rewrite lookup_insert_ne by congruence. exact Hv.
Qed.

Lemma settled_run acts c p v :
  wf c → settled c !! p = Some v → settled (run E acts c) !! p = Some v.
Proof.
  revert c. induction acts as [|a acts IH]; intros c Hwf Hv; [exact Hv|].
  simpl. apply IH; [apply wf_step, Hwf|apply settled_step; assumption].
Qed.

(** The step that settles the shared promise clears the slot. *)
Lemma settling_clears_slot a c p :
  wf c → refreshPromise c = Some p → is_Some (settled (step E a c) !! p) →
  refreshPromise (step E a c) = None.
Proof.
  intros Hwf Hs Hset.
  assert (Hn : settled c !! p = None).
  { destruct Hwf as [Hslot _]. rewrite Hs in Hslot.
    destruct Hslot as (? & _ & Hn & _). exact Hn. }
  assert (Hcontra : is_Some (settled c !! p) → refreshPromise (step E a c) = None).
  { intros [v Hv]. congruence. }
  destruct a as [|q o|q|q]; simpl in *.
  - apply Hcontra. unfold refreshAccessToken in Hset. rewrite Hs in Hset. exact Hset.
  - unfold fetch_settles in *. destruct (phase_of q c) as [[|r|s]|]; auto.
    destruct o as [r|?]; [|reflexivity].
    destruct (negb (ok r)); [reflexivity|auto].
  - unfold text_settles in *. destruct (phase_of q c) as [[|r|s]|]; auto.
    destruct (accessToken_of (safeJson E r)) as [s|]; [|reflexivity].
    destruct (truthy_value (Some s)); [auto|reflexivity].
  - unfold store_settles in *. destruct (phase_of q c) as [[|r|s]|]; auto.
Qed.

(** A call in the idle state sends one request and leaves it in flight. *)
Lemma call_when_idle c :
  wf c → refreshPromise c = None →
  fst (refreshAccessToken E c) = fresh c
  ∧ posts (log (snd (refreshAccessToken E c))) = S (posts (log c))
  ∧ inflight (snd (refreshAccessToken E c)) = 1
  ∧ refreshPromise (snd (refreshAccessToken E c)) = Some (fresh c)
  ∧ settled (snd (refreshAccessToken E c)) !! fresh c = None.
Proof.
  intros Hwf Hs. pose proof (wf_refreshAccessToken c Hwf) as Hwf'.
  unfold refreshAccessToken in *. rewrite Hs in *. simpl in *.
  destruct Hwf as [Hb _]. rewrite Hs in Hb. rewrite Hb.
  repeat split; try reflexivity.
  - rewrite posts_snoc. simpl. lia.
  - destruct Hwf' as [(ph & _ & Hn & _) _]. exact Hn.
Qed.

(** While the promise is outstanding every caller is handed it, and
    nothing else happens. *)
Lemma calls_shared n c p :
  refreshPromise c = Some p → calls E n c = (replicate n p, c).
Proof.
  intros Hs. induction n as [|n IH]; simpl; [reflexivity|].
  unfold refreshAccessToken. rewrite Hs, IH. reflexivity.
Qed.

Lemma calls_from_idle n c :
  wf c → refreshPromise c = None →
  fst (calls E (S n) c) = replicate (S n) (fresh c)
  ∧ posts (log (snd (calls E (S n) c))) = S (posts (log c)).
Proof.
  intros Hwf Hs. destruct (call_when_idle c Hwf Hs) as (Hp & Hposts & _ & Hslot & _).
  simpl. destruct (refreshAccessToken E c) as [p c1]. simpl in *. subst p.
  rewrite (calls_shared n c1 (fresh c) Hslot). simpl. auto.
Qed.

Local Ltac crunch :=
  repeat (progress (simpl; rewrite ?bool_decide_eq_true_2 by reflexivity)).

(** Once its awaits are answered the outstanding promise settles, whatever
    the answers: the slot is cleared, no body is left, nothing is sent, the
    promise holds [outcome_of], and the token store is written exactly when
    that value is truthy. *)
Lemma settles c p o :
  wf c → refreshPromise c = Some p →
  let c' := run E [FetchSettles p o; TextSettles p; StoreSettles p] c in
  ∃ ph, phase_of p c = Some ph
    ∧ settled c' !! p = Some (outcome_of E ph o)
    ∧ refreshPromise c' = None ∧ bodies c' = [] ∧ log c' = log c
    ∧ fresh c' = fresh c
    ∧ store c' = (if truthy_value (outcome_of E ph o)
                  then SecureStore.setAccessToken (pf E) (sf E) (outcome_of E ph o) (store c)
                  else store c).
Proof.
  intros Hwf Hs.
  destruct Hwf as [Hslot Hset]. rewrite Hs in Hslot.
  destruct Hslot as (ph & Hb & Hn & Hlt & Htok).
  destruct c as [st slot bs stl fr lg]. simpl in *. subst slot bs.
  exists ph.
  unfold run, step, fetch_settles, text_settles, store_settles, phase_of,
    finish, set_phase, set_store, outcome_of.
  destruct ph as [|r|t]; crunch.
  - split; [reflexivity|].
    destruct o as [r|reason]; crunch.
    2:{ rewrite lookup_insert_eq. auto 10. }
    destruct (ok r) eqn:Hok; crunch.
    2:{ rewrite lookup_insert_eq. auto 10. }
    destruct (accessToken_of (safeJson E r)) as [t|] eqn:Hacc; crunch.
    2:{ rewrite lookup_insert_eq. auto 10. }
    destruct (js_truthy t) eqn:Ht; crunch; rewrite lookup_insert_eq; auto 10.
  - split; [reflexivity|].
    destruct (accessToken_of (safeJson E r)) as [t|] eqn:Hacc; crunch.
    2:{ rewrite lookup_insert_eq. auto 10. }
    destruct (js_truthy t) eqn:Ht; crunch; rewrite lookup_insert_eq; auto 10.
  - split; [reflexivity|]. rewrite lookup_insert_eq, (Htok t eq_refl). auto 10.
Qed.

(** C1. After any sequence of calls and settlements, starting from the
    idle coordinator:
    - at most one refresh request is in flight;
    - while a promise is outstanding, a call returns that promise and
      changes nothing (no request is sent);
    - the step that settles the promise clears the slot, and the next call
      sends exactly one new request;
    - a settled promise keeps its value, so everyone who awaits it sees the
      same token (or null);
    - any number of callers that ask in a row from the idle state are all
      handed one promise, for one request;
    - an outstanding promise does settle once its awaits are answered,
      whatever the answers: with [null] when the request is rejected or
      answered outside 2xx, otherwise with what the response holds under
      [accessToken]; the slot is then clear, nothing is in flight, no
      request was sent on the way, the token store was written exactly
      when the value is truthy, and the next call sends one new request. *)
Theorem single_flight_refresh (st : SecureStore.State) (acts : list Action) :
  let c := run E acts (idle st) in
  inflight c ≤ 1
  ∧ (∀ p, refreshPromise c = Some p → refreshAccessToken E c = (p, c))
  ∧ (∀ a p, refreshPromise c = Some p →
       is_Some (settled (step E a c) !! p) →
       let c1 := step E a c in
       refreshPromise c1 = None
       ∧ posts (log (snd (refreshAccessToken E c1))) = S (posts (log c1))
       ∧ inflight (snd (refreshAccessToken E c1)) = 1)
  ∧ (∀ p v more, settled c !! p = Some v → settled (run E more c) !! p = Some v)
  ∧ (∀ n, refreshPromise c = None →
       fst (calls E (S n) c) = replicate (S n) (fresh c)
       ∧ posts (log (snd (calls E (S n) c))) = S (posts (log c)))
  ∧ (∀ p o, refreshPromise c = Some p →
       let c1 := run E [FetchSettles p o; TextSettles p; StoreSettles p] c in
       ∃ ph, phase_of p c = Some ph
         ∧ settled c1 !! p = Some (outcome_of E ph o)
         ∧ refreshPromise c1 = None ∧ inflight c1 = 0
         ∧ posts (log c1) = posts (log c)
         ∧ store c1 = (if truthy_value (outcome_of E ph o)
                       then SecureStore.setAccessToken (pf E) (sf E)
                              (outcome_of E ph o) (store c)
                       else store c)
         ∧ posts (log (snd (refreshAccessToken E c1))) = S (posts (log c))).
Proof.
  intros c. assert (Hwf : wf c) by apply wf_run, wf_idle.
  split; [apply wf_inflight, Hwf|].
  split.
  { intros p Hs. unfold refreshAccessToken. rewrite Hs. reflexivity. }
  split.
  { intros a p Hs Hset c1.
    assert (Hnone : refreshPromise c1 = None)
      by (apply (settling_clears_slot a c p); assumption).
    assert (Hwf1 : wf c1) by apply wf_step, Hwf.
    destruct (call_when_idle c1 Hwf1 Hnone) as (_ & Hposts & Hfl & _).
    auto. }
  split.
  { intros p v more Hv. apply settled_run; assumption. }
  split.
  { intros n Hs. apply calls_from_idle; assumption. }
  intros p o Hs c1.
  destruct (settles c p o Hwf Hs) as (ph & Hph & Hv & Hnone & Hb & Hlog & _ & Hst).
  fold c1 in Hv, Hnone, Hb, Hlog, Hst.
  assert (Hwf1 : wf c1) by apply wf_run, Hwf.
  destruct (call_when_idle c1 Hwf1 Hnone) as (_ & Hposts & _).
  exists ph. split; [exact Hph|]. split; [exact Hv|]. split; [exact Hnone|].
  split; [unfold inflight; rewrite Hb; reflexivity|].
  split; [rewrite Hlog; reflexivity|]. split; [exact Hst|].
  rewrite Hposts, Hlog. reflexivity.
Qed.

End CoordinatorFacts.

(** ** apiFetch *)

Section FetchFacts.
Import Json Text Client.

Variable E : Env.


Lemma fetchWithTimeout_spec rq tmo c :
  snd (fetchWithTimeout E rq tmo c) = add_log (EvFetch rq tmo) c
  ∧ fst (fetchWithTimeout E rq tmo c)
    = match net E (log c) rq with
      | Responded r => Ok r
      | Rejected e => Err (FetchFailed e)
      end.
Proof. unfold fetchWithTimeout. destruct (net E (log c) rq); auto. Qed.

Local Ltac crunch :=
  repeat (progress (simpl; rewrite ?bool_decide_eq_true_2 by reflexivity)).





Lemma log_drive c p : log (drive E p c) = log c.
Proof.
  unfold drive, store_settles, text_settles, fetch_settles.
  repeat match goal with
         | |- context [match ?x with _ => _ end] => destruct x; simpl
         end; reflexivity.
Qed.

Lemma await_refresh_log c :
  log (snd (await_refresh E c))
  = log c ++ EvRefreshCall ::
      match refreshPromise c with
      | Some _ => []
      | None => [EvRefreshPost (toURL E "/auth/refresh")]
      end.
Proof.
  unfold await_refresh.
  destruct (refreshAccessToken E (add_log EvRefreshCall c)) as [p c1] eqn:Hr.
  simpl. rewrite log_drive.
  unfold refreshAccessToken, add_log in Hr. simpl in Hr.
  destruct (refreshPromise c); injection Hr as <- <-; simpl; [reflexivity|].
  rewrite <- app_assoc. reflexivity.
Qed.

Lemma transient_not_ok r : isTransient (status r) = true → ok r = false.
Proof.
  unfold isTransient, transientStatuses, ok. intros H.
  apply bool_decide_eq_true_1 in H.
  repeat (apply elem_of_cons in H as [->|H]; [reflexivity|]).
  apply elem_of_nil in H. destruct H.
Qed.

Lemma attempt_next options remaining :
  attempt_of options (remaining - 1) = (attempt_of options remaining + 1)%Z.
Proof. unfold attempt_of. lia. Qed.

(** The backoff loop, entered with [fuel = Z.to_nat remaining]: [k] rounds,
    each a wait and the same request again; none unless the method is GET;
    and it only stops on a transient response when the budget is used up. *)
Lemma backoff_spec options isGet rq fuel :
  ∀ remaining res c,
    fuel = Z.to_nat remaining →
    ∃ k, k ≤ fuel
      ∧ log (snd (backoff E fuel options isGet rq remaining res c))
        = log c ++ rounds rq (opt_timeoutMs options) (attempt_of options remaining) k
      ∧ (isGet = false → k = 0)
      ∧ (isTransient (status res) = false → k = 0)
      ∧ (∀ res', fst (backoff E fuel options isGet rq remaining res c) = Ok res' →
           isGet = true → isTransient (status res') = true → k = fuel)
      ∧ (∀ e, fst (backoff E fuel options isGet rq remaining res c) = Err e →
           final_status (Err e) = None).
Proof.
  induction fuel as [|fuel IH]; intros remaining res c Hfuel.
  - exists 0. simpl.
    destruct (negb (ok res) && isGet && (0 <? remaining)%Z && isTransient (status res))
      eqn:Hcond; simpl; rewrite app_nil_r; repeat split; auto; discriminate.
  - simpl.
    destruct (negb (ok res) && isGet && (0 <? remaining)%Z && isTransient (status res))
      eqn:Hcond.
    + apply andb_prop in Hcond as [Hcond Htr]. apply andb_prop in Hcond as [Hcond Hrem].
      apply andb_prop in Hcond as [Hnok Hget].
      apply Z.ltb_lt in Hrem.
      destruct (fetchWithTimeout_spec rq (opt_timeoutMs options)
                  (add_log (EvSleep (waitMs_of (attempt_of options remaining))) c))
        as [Hc2 Hres].
      destruct (fetchWithTimeout E rq (opt_timeoutMs options)
                  (add_log (EvSleep (waitMs_of (attempt_of options remaining))) c))
        as [[res'|e] c2]; simpl in Hc2, Hres.
      * destruct (IH (remaining - 1)%Z res' c2 ltac:(lia))
          as (k & Hk & Hlog & Hng & _ & Hstop & Herr).
        exists (S k). split; [lia|]. split.
        { rewrite Hlog, Hc2, attempt_next. simpl.
          rewrite <- !app_assoc. reflexivity. }
        split; [intros ->; discriminate|].
        split; [intros Hf; congruence|].
        split; [|exact Herr].
        intros res'' Hfst Hg Ht. f_equal. eauto.
      * exists 1. split; [lia|]. simpl. split.
        { rewrite Hc2. simpl. rewrite <- app_assoc. reflexivity. }
        split; [intros ->; discriminate|].
        split; [intros Hf; congruence|].
        split; [discriminate|].
        intros e' [= <-]. destruct (net E _ rq); [discriminate|].
        injection Hres as ->. reflexivity.
    + exists 0. simpl. rewrite app_nil_r. repeat split; auto; try lia;
        try discriminate.
      intros res' [= <-] Hg Ht. exfalso.
      rewrite Hg, Ht, (transient_not_ok _ Ht) in Hcond. simpl in Hcond.
      rewrite andb_true_r in Hcond. apply Z.ltb_ge in Hcond. lia.
Qed.

Lemma sleeps_app l1 l2 : sleeps (l1 ++ l2) = sleeps l1 ++ sleeps l2.
Proof.
  induction l1 as [|e l1 IH]; [reflexivity|].
  destruct e; simpl; rewrite IH; reflexivity.
Qed.

Lemma sleeps_rounds rq tmo k : ∀ a,
  sleeps (rounds rq tmo a k)
  = map (λ i, Z.min (1500 * (a + Z.of_nat i)) 4000) (seq 0 k).
Proof.
  induction k as [|k IH]; intros a; [reflexivity|].
  cbn [rounds sleeps seq map]. rewrite IH. f_equal.
  - unfold waitMs_of. f_equal. lia.
  - rewrite <- seq_shift, map_map. apply map_ext. intros i. f_equal. lia.
Qed.

Lemma sleeps_rounds_1 rq tmo k :
  sleeps (rounds rq tmo 1 k)
  = map (λ i, Z.min (1500 * Z.of_nat i) 4000) (seq 1 k).
Proof.
  rewrite sleeps_rounds, <- seq_shift, map_map.
  apply map_ext. intros i. f_equal. lia.
Qed.


Lemma first_request_log input init options c :
  log (snd (first_request E input init options c)) = log c
  ∧ same_coordinator c (snd (first_request E input init options c)).
Proof.
  unfold first_request, same_coordinator.
  destruct (opt_auth options).
  - destruct (SecureStore.getAccessToken (pf E) (sf E) (store c)) as [t st].
    simpl. auto.
  - simpl. auto.
Qed.


(** The two ways through the 401 branch. *)
Lemma on401_cases options rq res c :
  (bool_decide (status res = 401%Z) && opt_retryOn401 options = false
   ∧ on401 E options rq res c = (Ok (res, rq), c))
  ∨ (status res = 401%Z ∧ opt_retryOn401 options = true
     ∧ ((truthy_value (fst (await_refresh E c)) = false
         ∧ on401 E options rq res c = (Ok (res, rq), snd (await_refresh E c)))
        ∨ (∃ t, fst (await_refresh E c) = Some t
             ∧ truthy_value (Some t) = true
             ∧ let rq' := with_headers
                            (headers_set "Authorization" (bearer E t) (headers rq)) rq in
               let c2 := snd (await_refresh E c) in
               snd (on401 E options rq res c)
               = add_log (EvFetch rq' (opt_timeoutMs options)) c2
               ∧ fst (on401 E options rq res c)
                 = match net E (log c2) rq' with
                   | Responded r1 => Ok (r1, rq')
                   | Rejected e => Err (FetchFailed e)
                   end))).
Proof.
  unfold on401.
  destruct (bool_decide (status res = 401%Z) && opt_retryOn401 options) eqn:Hb.
  - right. apply andb_prop in Hb as [H401 Hr].
    apply bool_decide_eq_true_1 in H401. split; [exact H401|]. split; [exact Hr|].
    destruct (await_refresh E c) as [next c2]. simpl.
    destruct next as [t|]; [|left; auto].
    destruct (truthy_value (Some t)) eqn:Ht; [|left; auto].
    right. exists t. split; [reflexivity|]. split; [exact Ht|].
    unfold fetchWithTimeout.
    destruct (net E (log c2) _); simpl; auto.
  - left. auto.
Qed.

(** The loop as [apiFetch] enters it. *)
Lemma backoff_entry options (isGet : bool) rq res c :
  let N := opt_idempotentRetries options in
  let rem := if isGet then N else 0%Z in
  let out := backoff E (Z.to_nat rem) options isGet rq rem res c in
  ∃ k, k ≤ Z.to_nat N
    ∧ log (snd out) = log c ++ rounds rq (opt_timeoutMs options) 1 k
    ∧ (isGet = false → k = 0)
    ∧ (isTransient (status res) = false → k = 0)
    ∧ (∀ res', fst out = Ok res' →
         isGet = true → isTransient (status res') = true → k = Z.to_nat N)
    ∧ (∀ e, fst out = Err e → final_status (Err e) = None).
Proof.
  intros N rem out. subst out.
  destruct (backoff_spec options isGet rq (Z.to_nat rem) rem res c eq_refl)
    as (k & Hk & Hlog & Hng & Hnt & Hstop & Herr).
  exists k. destruct isGet; subst rem; simpl in *.
  - replace (attempt_of options N) with 1%Z in Hlog by (unfold attempt_of; lia).
    repeat split; auto.
  - assert (k = 0) as -> by lia. simpl in *.
    repeat split; auto; try lia; try (intros; discriminate).
Qed.



Lemma refresh_calls_app l1 l2 :
  refresh_calls (l1 ++ l2) = refresh_calls l1 + refresh_calls l2.
Proof. unfold refresh_calls. rewrite filter_app, length_app. reflexivity. Qed.

Lemma refresh_calls_rounds rq tmo k : ∀ a, refresh_calls (rounds rq tmo a k) = 0.
Proof. induction k as [|k IH]; intros a; [reflexivity|]. apply IH. Qed.


Lemma not_transient_401 : isTransient 401 = false.
Proof. reflexivity. Qed.


End FetchFacts.

(** ** Witnesses for the client *)

Section ClientWitnesses.
Import Json Text Client Demo.

Lemma toURL_contract_witness :
  toURL env_empty "mock://pdfs/1" = "mock://pdfs/1".
Proof.
  apply (proj1 (toURL_contract env_empty "mock://pdfs/1")).
  exists "m"%char, "ock", "pdfs/1". split; [reflexivity|]. split; [reflexivity|].
  intros x Hx. simpl in Hx.
  repeat (destruct Hx as [<-|Hx]; [reflexivity|]). destruct Hx.
Defined.

Example toURL_relative :
  toURL env_empty "//pdfs/1" = "https://api.example.com/pdfs/1".
Proof. reflexivity. Qed.

Lemma single_flight_refresh_witness :
  let c := run env_401 [Call; Call; Call] (idle store0) in
  inflight c ≤ 1 ∧ refreshAccessToken env_401 c = (0, c) ∧ posts (log c) = 1.
Proof.
  intros c.
  destruct (single_flight_refresh env_401 store0 [Call; Call; Call])
    as (H1 & H2 & _).
  split; [exact H1|]. split; [apply H2; reflexivity|reflexivity].
Defined.

(** Two callers share one refresh; after it has settled both find the
    token under the one promise, and a later call starts a second refresh. *)
Example refresh_cycle :
  let answer := reply 200 (token_body "t2") in
  let c := run env_401 [Call; Call; FetchSettles 0 answer; TextSettles 0;
                        StoreSettles 0] (idle store0) in
  posts (log c) = 1
  ∧ settled c !! 0 = Some (Some (JStr "t2"))
  ∧ refreshPromise c = None
  ∧ inMemoryTokenOf c = Some (JStr "t2")
  ∧ posts (log (step env_401 Call c)) = 2.
Proof. repeat split; reflexivity. Qed.


(** A refresh answered with [{"accessToken":123}]: the number is truthy,
    so it is stored as it is and the request goes out again with
    [Bearer 123]. *)
Example refresh_yields_a_number :
  let out := apiFetch env_401_number "/protected" empty_init no_options (idle store0) in
  fetches (log (snd out)) = 2
  ∧ posts (log (snd out)) = 1
  ∧ (headers <$> last_fetch (log (snd out))) ≫= (.!! "authorization")
    = Some "Bearer 123"
  ∧ inMemoryTokenOf (snd out) = Some (JNum (num_of_Z 123))
  ∧ final_status (fst out) = Some 200%Z.
Proof. repeat split; reflexivity. Qed.


Example backoff_429_429_200 :
  let out := apiFetch env_429 "/pdfs" empty_init no_options (idle store0) in
  sleeps (log (snd out)) = [1500; 3000]%Z
  ∧ fetches (log (snd out)) = 3
  ∧ final_status (fst out) = Some 200%Z.
Proof. repeat split; reflexivity. Qed.

End ClientWitnesses.

(** ** The page-url endpoint guards its page number *)

Section PageGuardFacts.
Import Json Text Client PdfApi.

(** C9. A page that is not finite, or below 1, is rejected with an
    [APIError] of status 400; the client state (token store, coordinator,
    trace of requests) is returned as it was, so no request was made. *)
Theorem getPageUrl_rejects_invalid_page
    (E : Env) (L : Lib) (id : string) (pg : Num)
    (hintsOrOpts : option HintsOrOpts) (maybeOpts : option ApiFetchOptions)
    (c : State) :
  isFinite pg = false ∨ num_lt pg (Fin 1) = true →
  ∃ u, getPageUrl E L id pg hintsOrOpts maybeOpts c
       = (Err (APIError "Page must be an integer >= 1" 400 u NoData), c).
Proof.
  intros H. unfold getPageUrl.
  assert (Hg : negb (isFinite pg) || num_lt pg (Fin 1) = true).
  { destruct H as [-> | ->]; [reflexivity|apply orb_true_r]. }
  rewrite Hg. eexists. reflexivity.
Qed.

Lemma getPageUrl_rejects_invalid_page_witness :
  ∃ u, getPageUrl Demo.env_empty Demo.lib "doc1" (num_of_Z 0) None None
         (idle Demo.store0)
       = (Err (APIError "Page must be an integer >= 1" 400 u NoData), idle Demo.store0).
Proof.
  apply (getPageUrl_rejects_invalid_page Demo.env_empty Demo.lib "doc1" (num_of_Z 0)).
  right. reflexivity.
Defined.

(** A valid page does go to the network. *)
Example getPageUrl_valid_page_fetches :
  fetches (log (snd (getPageUrl Demo.env_empty Demo.lib "doc1" (num_of_Z 1) None None
                       (idle Demo.store0)))) = 1.
Proof. reflexivity. Qed.

End PageGuardFacts.

(** ** The signed-URL cache of the reader *)

Section ReaderFacts.
Import Json ReaderStore.

Lemma isExpired_unparseable K e :
  Date_parse K e = None → isExpired K (Some e) = false.
Proof.
  intros H. unfold isExpired. rewrite H. destruct (bool_decide (e = "")); reflexivity.
Qed.

(** Staleness is: an expiry that parses, minus 20 s, at or before now. *)
Lemma isExpired_spec K x :
  isExpired K x = true ↔
  ∃ e t, x = Some e ∧ e ≠ "" ∧ Date_parse K e = Some t ∧ (t - 20000 ≤ nowMs K)%Z.
Proof.
  unfold isExpired. split.
  - destruct x as [e|]; [|discriminate].
    case_bool_decide as He; [discriminate|].
    destruct (Date_parse K e) as [t|] eqn:Ht; [|discriminate].
    intros H. apply Z.leb_le in H. exists e, t. repeat split; auto; lia.
  - intros (e & t & -> & He & Ht & Hle).
    rewrite bool_decide_eq_false_2 by exact He. rewrite Ht.
    apply Z.leb_le. lia.
Qed.

(** A hit on an entry that is not stale: the URL, no call, no change. *)
Lemma resolve_cached K api n opts s calls cur e :
  current s = Some cur →
  pageCache s !! clamp n (default 1%Z (pages cur)) = Some e →
  isExpired K (expiresAt e) = false →
  resolvePageUrl K api n opts s calls = (Ok (entry_url e), s, calls).
Proof.
  intros Hc He Hx. unfold resolvePageUrl, resolve_start.
  rewrite Hc. simpl. rewrite He, Hx. reflexivity.
Qed.

(** C10. An expiry that does not parse is never stale, so the entry is
    served from the cache at any time, any number of times, without a call
    of the endpoint and without a change of the store. *)
Theorem unparseable_expiry_never_expires
    (parse : string → option Z) (api : Api) (n : Z) (opts : option PdfApi.Hints)
    (s : ReaderState) (calls : list Call) (cur : PdfDetail) (e : PageCacheEntry)
    (x : string) (times : list Z) :
  current s = Some cur →
  pageCache s !! clamp n (default 1%Z (pages cur)) = Some e →
  expiresAt e = Some x →
  parse x = None →
  (∀ now, isExpired {| Date_parse := parse; nowMs := now |} (expiresAt e) = false)
  ∧ resolve_many parse api n opts times s calls
    = (map (λ _, Ok (entry_url e)) times, s, calls).
Proof.
  intros Hc He Hx Hp.
  assert (Hnever : ∀ now, isExpired {| Date_parse := parse; nowMs := now |}
                            (expiresAt e) = false).
  { intros now. rewrite Hx. apply isExpired_unparseable. exact Hp. }
  split; [exact Hnever|].
  induction times as [|t times IH]; [reflexivity|].
  simpl. rewrite (resolve_cached _ api n opts s calls cur e Hc He (Hnever t)).
  rewrite IH. reflexivity.
Qed.

Lemma unparseable_expiry_never_expires_witness :
  resolve_many Demo.date_parse Demo.signer 1 None [0; 1000000; 1000000000000]%Z
    (Demo.reading Demo.doc1 Demo.garbled) []
  = (map (λ _, Ok "https://cdn.example.com/doc1/old.png") [0; 1000000; 1000000000000]%Z,
     Demo.reading Demo.doc1 Demo.garbled, []).
Proof.
  refine (proj2 (unparseable_expiry_never_expires Demo.date_parse Demo.signer 1 None
                   (Demo.reading Demo.doc1 Demo.garbled) [] Demo.doc1
                   {| entry_url := "https://cdn.example.com/doc1/old.png";
                      expiresAt := Some "soon" |}
                   "soon" [0; 1000000; 1000000000000]%Z _ _ _ _)); reflexivity.
Defined.

(** C5. When the fetch comes back and the open document is no longer the
    one the call started with, the store raises "Document changed" and is
    left exactly as it was: neither the page cache nor the static list of
    the document now open receives the result. *)
Theorem document_changed_discards
    (docId : string) (pg : Z) (resp : JSON) (s : ReaderState) :
  isPageUrlResponse resp = true →
  (∀ cur, current s = Some cur → id cur ≠ docId) →
  resolve_resume docId pg (Ok resp) s = (Err (Failure "Document changed"), s).
Proof.
  intros Hresp Hchanged. unfold resolve_resume, safeGetPageUrl. rewrite Hresp.
  destruct (current s) as [cur|] eqn:Hc; [|reflexivity].
  rewrite bool_decide_eq_false_2 by (apply Hchanged; reflexivity). reflexivity.
Qed.

End ReaderFacts.

Section ReaderContract.
Import Json ReaderStore.

Lemma array_get_set {A} (i : nat) (x : A) (l : list (option A)) :
  array_get i (array_set i x l) = Some x.
Proof.
  unfold array_get, array_set. destruct (decide (i < length l)) as [Hlt|Hge].
  - rewrite list_lookup_insert_eq by exact Hlt. reflexivity.
  - rewrite lookup_app_r by lia.
    rewrite lookup_app_r by (rewrite length_replicate; lia).
    rewrite length_replicate. replace (i - length l - (i - length l)) with 0 by lia.
    reflexivity.
Qed.

Lemma clamp_range n total : (1 ≤ total → 1 ≤ clamp n total ≤ total)%Z.
Proof. unfold clamp. lia. Qed.

Lemma resolve_via_network K api n opts s calls cur :
  current s = Some cur →
  resolve_start K n s = Awaiting (id cur) (clamp n (default 1%Z (pages cur))) →
  via_network K api n opts s calls cur (clamp n (default 1%Z (pages cur))).
Proof.
  intros Hc Hstart. unfold via_network, resolvePageUrl. rewrite Hstart.
  set (pg := clamp n (default 1%Z (pages cur))).
  destruct (resolve_resume (id cur) pg (api calls (id cur) pg opts) s) as [r s'] eqn:Hres.
  exists r, s'. split; [reflexivity|].
  intros resp Hapi Hresp. unfold resolve_resume, safeGetPageUrl in Hres.
  rewrite Hapi, Hresp, Hc in Hres.
  rewrite bool_decide_eq_true_2 in Hres by reflexivity.
  injection Hres as <- <-. simpl. split; [reflexivity|].
  split; [apply lookup_insert_eq|].
  eexists. split; [reflexivity|]. split; [reflexivity|].
  eexists. split; [reflexivity|]. apply array_get_set.
Qed.

(** C4 (as amended). With a document open whose page count is at least 1,
    the page is clamped into [1, pages]; then
    - an entry that is not stale is answered from the cache: no call of
      the endpoint, no change of the store;
    - with no entry at all, a non-empty static URL for the page is adopted
      as an entry without expiry and returned, again without a call;
    - otherwise, and in particular whenever the entry is stale, the
      endpoint is called once, and its answer is returned, cached with its
      expiry and written into the static list at the page's index. *)
Theorem resolvePageUrl_contract
    (K : Clock) (api : Api) (n : Z) (opts : option PdfApi.Hints) (s : ReaderState)
    (calls : list Call) (cur : PdfDetail) :
  current s = Some cur →
  (1 ≤ default 1 (pages cur))%Z →
  let total := default 1%Z (pages cur) in
  let pg := clamp n total in
  (1 ≤ pg ≤ total)%Z
  ∧ match pageCache s !! pg with
    | Some e =>
        if isExpired K (expiresAt e) then via_network K api n opts s calls cur pg
        else resolvePageUrl K api n opts s calls = (Ok (entry_url e), s, calls)
    | None =>
        match static_url cur pg with
        | Some u =>
            resolvePageUrl K api n opts s calls
            = (Ok u,
               set_cache (<[pg := {| entry_url := u; expiresAt := None |}]> (pageCache s)) s,
               calls)
        | None => via_network K api n opts s calls cur pg
        end
    end.
Proof.
  intros Hc Htotal total pg. split; [apply clamp_range, Htotal|].
  destruct (pageCache s !! pg) as [e|] eqn:He.
  - destruct (isExpired K (expiresAt e)) eqn:Hx.
    + apply resolve_via_network; [exact Hc|].
      unfold resolve_start. rewrite Hc. simpl. fold total pg.
      rewrite He, Hx. reflexivity.
    + apply (resolve_cached K api n opts s calls cur e); assumption.
  - destruct (static_url cur pg) as [u|] eqn:Hs.
    + unfold resolvePageUrl, resolve_start. rewrite Hc. simpl. fold total pg.
      rewrite He, Hs. reflexivity.
    + apply resolve_via_network; [exact Hc|].
      unfold resolve_start. rewrite Hc. simpl. fold total pg.
      rewrite He, Hs. reflexivity.
Qed.

Lemma resolvePageUrl_contract_witness :
  (1 ≤ clamp 7 3 ≤ 3)%Z
  ∧ via_network (Demo.clock 0) Demo.signer 7 None (Demo.reading Demo.doc1 ∅) [] Demo.doc1 3.
Proof.
  exact (resolvePageUrl_contract (Demo.clock 0) Demo.signer 7 None
           (Demo.reading Demo.doc1 ∅) [] Demo.doc1 eq_refl ltac:(simpl; lia)).
Defined.

(** C4 as stated fails. A page is fetched once at time 0; the answer is
    cached with its expiry and written into the static list. Within 20 s
    of that expiry the entry is stale and the static list holds a
    non-empty URL for the page, yet the next call does not return that
    URL: it calls the endpoint a second time. *)
Lemma stale_entry_skips_static_list :
  let first := resolvePageUrl (Demo.clock 0) Demo.signer 1 None
                 (Demo.reading Demo.doc2 ∅) [] in
  let s1 := snd (fst first) in
  let second := resolvePageUrl (Demo.clock 3590000) Demo.signer 1 None s1 (snd first) in
  (current s1 ≫= λ cur, static_url cur 1)
    = Some "https://cdn.example.com/doc2/fresh.png"
  ∧ (expiresAt <$> pageCache s1 !! 1%Z) = Some (Some "1970-01-01T01:00:00.000Z")
  ∧ isExpired (Demo.clock 3590000) (Some "1970-01-01T01:00:00.000Z") = true
  ∧ snd second = [("doc2", 1%Z, None); ("doc2", 1%Z, None)].
Proof. repeat split; reflexivity. Qed.

Lemma document_changed_discards_witness :
  let s := snd (open "doc2" (Ok Demo.doc2) (Demo.reading Demo.doc1 ∅)) in
  resolve_start (Demo.clock 0) 2 (Demo.reading Demo.doc1 ∅) = Awaiting "doc1" 2
  ∧ resolve_resume "doc1" 2 (Demo.signer [] "doc1" 2%Z None) s
    = (Err (Failure "Document changed"), s).
Proof.
  intros s. split; [reflexivity|].
  apply document_changed_discards; [reflexivity|].
  intros cur Hc. simpl in Hc. injection Hc as <-. discriminate.
Defined.

End ReaderContract.

(** ** Shape validation in the resource endpoints *)

Section ValidationFacts.
Import Json Text Client PdfApi.

Lemma issue_nonempty code path : issue code path ≠ [].
Proof. discriminate. Qed.

Lemma app_nonempty_l {A} (a b : list A) : a ≠ [] → a ++ b ≠ [].
Proof. destruct a; [congruence|discriminate]. Qed.

Lemma loud_z_string : loud z_string.
Proof. intros path v d. unfold z_string. destruct v; intros [= <-]; discriminate. Qed.

Lemma loud_z_string_min1 : loud z_string_min1.
Proof.
  intros path v d. unfold z_string_min1.
  destruct v; try (intros [= <-]; discriminate).
  case_bool_decide; intros [= <-]; discriminate.
Qed.

Lemma loud_z_datetime L : loud (z_datetime L).
Proof.
  intros path v d. unfold z_datetime.
  destruct v; try (intros [= <-]; discriminate).
  destruct (zod_datetime L s); intros [= <-]; discriminate.
Qed.

Lemma loud_z_int_positive : loud z_int_positive.
Proof.
  intros path v d. unfold z_int_positive.
  destruct v as [| |n| | |]; try (intros [= <-]; discriminate).
  destruct n; try (intros [= <-]; discriminate);
    match goal with
    | |- context [match ?l with [] => _ | _ :: _ => _ end] =>
        destruct l eqn:Hl; intros [= <-]; discriminate
    end.
Qed.

Lemma loud_UrlLike : loud UrlLike.
Proof.
  intros path v d. unfold UrlLike.
  destruct v; try (intros [= <-]; discriminate).
  case_bool_decide; [intros [= <-]; discriminate|].
  destruct (URL_LIKE_RE (trim s)); intros [= <-]; discriminate.
Qed.

Lemma loud_z_nullable chk : loud chk → loud (z_nullable chk).
Proof.
  intros H path v d. unfold z_nullable. destruct v; try apply H. discriminate.
Qed.

Lemma check_items_loud chk : loud chk →
  ∀ l path i d, check_items chk path i l = Err d → d ≠ [].
Proof.
  intros H l. induction l as [|x l IH]; intros path i d; simpl; [discriminate|].
  destruct (chk (path ++ [Idx i]) x) as [y|e] eqn:Hx;
    destruct (check_items chk path (S i) l) as [ys|e'] eqn:Hl;
    intros [= <-]; eauto.
  apply app_nonempty_l. eauto.
Qed.

Lemma loud_z_array chk : loud chk → loud (z_array chk).
Proof.
  intros H path v d. unfold z_array.
  destruct v; try (intros [= <-]; discriminate).
  destruct (check_items chk path 0 items) eqn:Hl; [discriminate|].
  intros [= <-]. eapply check_items_loud; eauto.
Qed.

Lemma check_fields_loud fields :
  Forall (λ f : Field, loud (snd f)) fields →
  ∀ path fs d, check_fields path fields fs = Err d → d ≠ [].
Proof.
  induction 1 as [|[[k pres] chk] fields Hchk _ IH]; intros path fs d; simpl;
    [discriminate|].
  simpl in Hchk.
  assert (Hhere : ∀ e,
    match assoc k fs, pres with
    | Some v, _ => match chk (path ++ [Key k]) v with Ok y => Ok [(k, y)] | Err e => Err e end
    | None, Required => Err (issue "invalid_type" (path ++ [Key k]))
    | None, Optional => Ok []
    | None, Defaulted d => Ok [(k, d)]
    end = Err e → e ≠ []).
  { intros e. destruct (assoc k fs) as [v|].
    - destruct (chk (path ++ [Key k]) v) eqn:Hv; [discriminate|].
      intros [= <-]. eapply Hchk; eauto.
    - destruct pres; try discriminate. intros [= <-]. discriminate. }
  destruct (match assoc k fs, pres with
            | Some v, _ => _ | None, Required => _ | None, Optional => _
            | None, Defaulted _ => _ end) as [a|e] eqn:Hh;
    destruct (check_fields path fields fs) as [b|e'] eqn:Hr;
    intros [= <-]; eauto.
  apply app_nonempty_l. eauto.
Qed.

Lemma loud_z_object strict fields :
  Forall (λ f : Field, loud (snd f)) fields → loud (z_object strict fields).
Proof.
  intros H path v d. unfold z_object.
  destruct v; try (intros [= <-]; discriminate).
  destruct (check_fields path fields fields0) as [out|e] eqn:Hf.
  - destruct (strict && _); [|discriminate]. intros [= <-]. discriminate.
  - intros [= <-]. apply app_nonempty_l. eapply check_fields_loud; eauto.
Qed.

Lemma loud_SearchResponseSchema : loud SearchResponseSchema.
Proof.
  apply loud_z_object. repeat constructor; simpl.
  apply loud_z_array, loud_z_object. repeat constructor; simpl.
  - apply loud_z_int_positive.
  - apply loud_z_string.
Qed.

Lemma loud_PdfItemSchema L : loud (PdfItemSchema L).
Proof.
  apply loud_z_object. repeat constructor; simpl;
    auto using loud_z_string, loud_z_string_min1, loud_z_int_positive,
      loud_z_datetime, loud_z_nullable, loud_UrlLike, loud_z_array.
Qed.

Lemma loud_ListResponseSchema L : loud (ListResponseSchema L).
Proof.
  apply loud_z_object. repeat constructor; simpl;
    auto using loud_z_string, loud_z_array, loud_PdfItemSchema.
Qed.

Lemma loud_PdfDetailSchema : loud PdfDetailSchema.
Proof.
  apply loud_z_object. repeat constructor; simpl;
    auto using loud_z_string, loud_z_string_min1, loud_z_int_positive,
      loud_z_nullable, loud_UrlLike, loud_z_array.
Qed.

Lemma loud_PageUrlSchema L : loud (PageUrlSchema L).
Proof.
  apply loud_z_object. repeat constructor; simpl;
    auto using loud_z_string, loud_z_int_positive, loud_z_datetime, loud_UrlLike.
Qed.

Lemma loud_strict_of L e : loud (strict_of L e).
Proof.
  destruct e; simpl;
    auto using loud_ListResponseSchema, loud_PdfDetailSchema,
      loud_PageUrlSchema, loud_SearchResponseSchema.
Qed.

Lemma parseOrThrow_ok schema data u v :
  schema [] data = Ok v → parseOrThrow schema data u = Ok v.
Proof. unfold parseOrThrow. intros ->. reflexivity. Qed.

Lemma parseOrThrow_err schema data u d :
  schema [] data = Err d →
  parseOrThrow schema data u
  = Err (APIError "Invalid API response shape" 200 u (Diagnostics d)).
Proof. unfold parseOrThrow. intros ->. reflexivity. Qed.

Lemma parseOrThrow_cases schema data u :
  loud schema →
  (∃ v, schema [] data = Ok v ∧ parseOrThrow schema data u = Ok v)
  ∨ (∃ d, d ≠ [] ∧ parseOrThrow schema data u
                   = Err (APIError "Invalid API response shape" 200 u (Diagnostics d))).
Proof.
  intros Hl. unfold parseOrThrow. destruct (schema [] data) as [v|d] eqn:H.
  - left. eauto.
  - right. exists d. split; [eapply Hl; eauto|reflexivity].
Qed.

(** The aliases of the normalization pass. *)
Lemma normalizeItemLike_aliases L fs i :
  let n := normalizeItemLike L (JObj fs) i in
  (∀ t, nonempty_string (assoc "title" fs) = None →
        nonempty_string (assoc "name" fs) = Some t → item_title n = t)
  ∧ (∀ q, assoc "pages" fs = None → assoc "pageCount" fs = Some (JNum (Fin q)) →
          (0 < q)%Q → item_pages n = Fin q)
  ∧ (∀ x, assoc "id" fs = None → assoc "_id" fs = Some (JStr x) → x ≠ "" →
          item_id n = x)
  ∧ (isStringArray (assoc "tags" fs) = false → item_tags n = [])
  ∧ (nonempty_string (assoc "updatedAt" fs) = None → item_updatedAt n = now_iso L).
Proof.
  intros n. subst n. unfold normalizeItemLike. simpl.
  split; [|split; [|split; [|split]]].
  - intros t H1 H2. unfold coerce_title. simpl. rewrite H1, H2. reflexivity.
  - intros q H1 H2 Hq. rewrite H1, H2. simpl.
    destruct (Qle_bool q 0) eqn:Hle; [|reflexivity].
    apply Qle_bool_iff in Hle. exfalso. apply (Qlt_not_le _ _ Hq Hle).
  - intros x H1 H2 Hx. rewrite H1, H2. simpl.
    rewrite bool_decide_eq_false_2 by exact Hx. reflexivity.
  - unfold isStringArray, string_array.
    destruct (assoc "tags" fs) as [[]|]; try reflexivity. intros ->. reflexivity.
  - intros H. rewrite H. reflexivity.
Qed.

(** C7 (as amended). For each endpoint and each successfully received
    body:
    - a body that passes the strict validation is the result;
    - when it fails, the list and detail endpoints validate the normalized
      body, and that is the result when it passes (detail raises with the
      diagnostics of this second validation; list first tries its last
      coercion); the page-url and search endpoints raise at once, with the
      diagnostics of the strict validation;
    - every failure is an [APIError] of status 200 that carries a non-empty
      list of issues, and every result is the output of a validation. *)
Theorem validation_contract (L : Lib) (e : Endpoint) (path : string) (raw : JSON) :
  (∀ v, strict_of L e [] raw = Ok v → shape_of L e path raw = Ok v)
  ∧ (∀ d, strict_of L e [] raw = Err d →
       match normalized_of L e raw with
       | Some n =>
           (∀ v, strict_of L e [] n = Ok v → shape_of L e path raw = Ok v)
           ∧ (∀ d', strict_of L e [] n = Err d' →
                shape_of L e path raw
                = match e with
                  | List => parseOrThrow (ListResponseSchema L)
                              (fallbackListResponse L raw) path
                  | _ => Err (APIError "Invalid API response shape" 200 path
                                (Diagnostics d'))
                  end)
       | None =>
           shape_of L e path raw
           = Err (APIError "Invalid API response shape" 200 path (Diagnostics d))
       end)
  ∧ (∀ err, shape_of L e path raw = Err err →
       ∃ d, d ≠ [] ∧ err = APIError "Invalid API response shape" 200 path (Diagnostics d))
  ∧ (∀ v, shape_of L e path raw = Ok v → ∃ x, strict_of L e [] x = Ok v).
Proof.
  split; [|split; [|split]].
  - intros v Hv. destruct e; cbn [strict_of normalized_of shape_of] in *;
      unfold listPdfs_shape, getPdfDetail_shape, getPageUrl_shape, searchPdf_shape;
      rewrite (parseOrThrow_ok _ _ _ _ Hv); reflexivity.
  - intros d Hd. destruct e; cbn [strict_of normalized_of shape_of] in *;
      unfold listPdfs_shape, getPdfDetail_shape, getPageUrl_shape, searchPdf_shape;
      rewrite (parseOrThrow_err _ _ _ _ Hd); try reflexivity.
    + split.
      * intros v Hv. rewrite (parseOrThrow_ok _ _ _ _ Hv). reflexivity.
      * intros d' Hd'. rewrite (parseOrThrow_err _ _ _ _ Hd'). reflexivity.
    + split.
      * intros v Hv. rewrite (parseOrThrow_ok _ _ _ _ Hv). reflexivity.
      * intros d' Hd'. rewrite (parseOrThrow_err _ _ _ _ Hd'). reflexivity.
  - intros err. destruct e; cbn [strict_of normalized_of shape_of];
      unfold listPdfs_shape, getPdfDetail_shape, getPageUrl_shape, searchPdf_shape.
    + destruct (parseOrThrow_cases (ListResponseSchema L) raw path
                  (loud_ListResponseSchema L)) as [(v & _ & ->)|(d & _ & ->)];
        [discriminate|].
      destruct (parseOrThrow_cases (ListResponseSchema L)
                  (normalizeListResponse L raw) path (loud_ListResponseSchema L))
        as [(v & _ & ->)|(d1 & _ & ->)]; [discriminate|].
      destruct (parseOrThrow_cases (ListResponseSchema L)
                  (fallbackListResponse L raw) path (loud_ListResponseSchema L))
        as [(v & _ & ->)|(d2 & Hd2 & ->)]; [discriminate|].
      intros [= <-]. eauto.
    + destruct (parseOrThrow_cases PdfDetailSchema raw path loud_PdfDetailSchema)
        as [(v & _ & ->)|(d & _ & ->)]; [discriminate|].
      destruct (parseOrThrow_cases PdfDetailSchema (detail_json (normalizeDetail L raw))
                  path loud_PdfDetailSchema)
        as [(v & _ & ->)|(d1 & Hd1 & ->)]; [discriminate|].
      intros [= <-]. eauto.
    + destruct (parseOrThrow_cases (PageUrlSchema L) raw path (loud_PageUrlSchema L))
        as [(v & _ & ->)|(d & Hd & ->)]; [discriminate|].
      intros [= <-]. eauto.
    + destruct (parseOrThrow_cases SearchResponseSchema raw path
                  loud_SearchResponseSchema)
        as [(v & _ & ->)|(d & Hd & ->)]; [discriminate|].
      intros [= <-]. eauto.
  - intros v. destruct e; cbn [strict_of normalized_of shape_of];
      unfold listPdfs_shape, getPdfDetail_shape, getPageUrl_shape, searchPdf_shape,
        parseOrThrow.
    + destruct (ListResponseSchema L [] raw) eqn:H1; [intros [= <-]; eauto|].
      destruct (ListResponseSchema L [] (normalizeListResponse L raw)) eqn:H2;
        [intros [= <-]; eauto|].
      destruct (ListResponseSchema L [] (fallbackListResponse L raw)) eqn:H3;
        [intros [= <-]; eauto|discriminate].
    + destruct (PdfDetailSchema [] raw) eqn:H1; [intros [= <-]; eauto|].
      destruct (PdfDetailSchema [] (detail_json (normalizeDetail L raw))) eqn:H2;
        [intros [= <-]; eauto|discriminate].
    + destruct (PageUrlSchema L [] raw) eqn:H1; [intros [= <-]; eauto|discriminate].
    + destruct (SearchResponseSchema [] raw) eqn:H1; [intros [= <-]; eauto|discriminate].
Qed.

End ValidationFacts.

Section ValidationWitnesses.
Import Json Text Client PdfApi.

Lemma validation_contract_witness :
  shape_of Demo.lib Detail "/pdfs/a"
    (JObj [("_id", JStr "a"); ("name", JStr "X"); ("pageCount", JNum (num_of_Z 3))])
  = Ok (JObj [("id", JStr "a"); ("title", JStr "X"); ("pages", JNum (num_of_Z 3));
              ("tags", JArr []); ("pageUrls", JNull)]).
Proof.
  destruct (validation_contract Demo.lib Detail "/pdfs/a"
              (JObj [("_id", JStr "a"); ("name", JStr "X");
                     ("pageCount", JNum (num_of_Z 3))])) as (_ & H & _).
  specialize (H _ eq_refl). destruct H as [H _]. apply H. reflexivity.
Defined.

(** A list item that has [name] where [title] is expected comes out with
    that title. *)
Example list_name_becomes_title :
  listPdfs_shape Demo.lib "/pdfs"
    (JObj [("items",
            JArr [JObj [("id", JStr "a"); ("name", JStr "X");
                        ("pages", JNum (num_of_Z 3));
                        ("updatedAt", JStr "2025-01-01T00:00:00.000Z")]])])
  = Ok (JObj [("items",
               JArr [JObj [("id", JStr "a"); ("title", JStr "X");
                           ("pages", JNum (num_of_Z 3)); ("coverUrl", JNull);
                           ("tags", JArr []);
                           ("updatedAt", JStr "2025-01-01T00:00:00.000Z")]])]).
Proof. reflexivity. Qed.

(** C7 as stated fails. The search endpoint, answered with an empty
    object, raises with the diagnostics of the body as received, after the
    one request and the one validation; it has no normalization pass (nor
    has the page-url endpoint). *)
Lemma search_raises_without_normalizing :
  let out := searchPdf Demo.env_empty Demo.lib "doc1" "x" None (idle Demo.store0) in
  fst out
  = Err (APIError "Invalid API response shape" 200 "/pdfs/doc1/search?q=x"
           (Diagnostics [{| issue_code := "invalid_type"; issue_path := [Key "hits"] |}]))
  ∧ SearchResponseSchema [] (JObj [])
    = Err [{| issue_code := "invalid_type"; issue_path := [Key "hits"] |}]
  ∧ fetches (log (snd out)) = 1
  ∧ normalized_of Demo.lib Search (JObj []) = None
  ∧ normalized_of Demo.lib PageUrl (JObj []) = None.
Proof. repeat split; reflexivity. Qed.

(** [trim] strips the blanks beyond ASCII too: here a no-break space
    (U+00A0) in front and a line separator (U+2028) behind, in UTF-8. *)
Example trim_strips_unicode_blanks :
  let nbsp := String (ascii_of_nat 194) (String (ascii_of_nat 160) EmptyString) in
  let ls := String (ascii_of_nat 226) (String (ascii_of_nat 128)
              (String (ascii_of_nat 168) EmptyString)) in
  trim (" " +:+ nbsp +:+ "https://cdn.example.com/a b.png" +:+ ls +:+ " ")
  = "https://cdn.example.com/a b.png".
Proof. reflexivity. Qed.

End ValidationWitnesses.

(* ===================================================================== *)
(** * Further properties *)
(* ===================================================================== *)

(** ** The secure store *)

Section SecureStoreMore.
Import Json SecureStore.

Local Ltac open_store :=
  unfold getAccessToken, setAccessToken, clearAccessToken,
    getItemAsync, setItemAsync, deleteItemAsync, broadcastToken, secureStoreAvailable.

Lemma deleteItemAsync_unfold pf f key s :
  deleteItemAsync pf f key s = setItemAsync pf f key None s.
Proof.
  open_store.
  destruct (isWeb pf).
  - destruct (WEB_PERSIST pf && has_window pf), (throws f); reflexivity.
  - destruct (secureStoreChecked s); simpl;
      repeat match goal with |- context [if ?b then _ else _] => destruct b end;
      reflexivity.
Qed.

(** X1. Writing [null] and deleting are the same operation: on every
    platform, for every key and every answer of the backing storage, they
    leave the same state. *)
Theorem set_null_is_delete pf f key s :
  setItemAsync pf f key None s = deleteItemAsync pf f key s.
Proof. symmetry. apply deleteItemAsync_unfold. Qed.

Lemma read_after_clear pf fc fr s :
  throws fc = false →
  fst (getAccessToken pf fr (clearAccessToken pf fc s)) = None.
Proof.
  intros Hc. open_store. rewrite Hc.
  destruct (isWeb pf).
  - rewrite bool_decide_eq_true_2 by reflexivity.
    destruct (WEB_PERSIST pf && has_window pf), (has_bc pf), (throws fr); simpl;
      try reflexivity; rewrite lookup_delete_eq; reflexivity.
  - destruct (secureStoreChecked s) eqn:Hch; simpl.
    + destruct (secureStoreIsAvailable s) eqn:Hav; simpl; rewrite ?Hch, ?Hav; simpl;
        [|reflexivity].
      destruct (throws fr); [reflexivity|]. rewrite lookup_delete_eq. reflexivity.
    + destruct (probe fc) as [[]|]; simpl; try reflexivity.
      destruct (throws fr); [reflexivity|]. rewrite lookup_delete_eq. reflexivity.
Qed.

(** X2. After a clear whose storage access did not throw, a read answers
    [null], whatever the platform and whatever happens to the read. *)
Theorem clear_then_read pf fc fr s :
  throws fc = false →
  fst (getAccessToken pf fr (clearAccessToken pf fc s)) = None.
Proof. apply read_after_clear. Qed.



Lemma clear_then_read_witness :
  fst (getAccessToken web_session blocked
         (clearAccessToken web_session healthy
            (setAccessToken web_session healthy (Some (JStr "tok"))
               (initial web_session healthy ∅ ∅)))) = None.
Proof. apply clear_then_read. reflexivity. Defined.

(** With session persistence, a clear that throws leaves the token in
    [sessionStorage], where the next read finds it. *)
Example clear_that_throws_keeps_token :
  fst (getAccessToken web_session healthy
         (clearAccessToken web_session blocked
            (setAccessToken web_session healthy (Some (JStr "tok"))
               (initial web_session healthy ∅ ∅)))) = Some (JStr "tok").
Proof. reflexivity. Qed.

(** X3. A write or a delete under one key leaves every other key of
    [sessionStorage] and of the native store as it was. *)
Theorem other_keys_untouched pf f key v s k' :
  k' ≠ key →
  sessionStorage (setItemAsync pf f key v s) !! k' = sessionStorage s !! k'
  ∧ keychain (setItemAsync pf f key v s) !! k' = keychain s !! k'
  ∧ sessionStorage (deleteItemAsync pf f key s) !! k' = sessionStorage s !! k'
  ∧ keychain (deleteItemAsync pf f key s) !! k' = keychain s !! k'.
Proof.
  intros Hne. revert v.
  assert (Hset : ∀ v,
            sessionStorage (setItemAsync pf f key v s) !! k' = sessionStorage s !! k'
            ∧ keychain (setItemAsync pf f key v s) !! k' = keychain s !! k').
  { intros v. open_store.
    destruct (isWeb pf).
    - destruct (WEB_PERSIST pf && has_window pf), (throws f),
        (bool_decide (key = ACCESS_TOKEN_KEY)), (has_bc pf), v as [[]|]; simpl;
        rewrite ?lookup_insert_ne, ?lookup_delete_ne by congruence; auto.
    - destruct (secureStoreChecked s); simpl;
        repeat match goal with |- context [if ?b then _ else _] => destruct b end;
        destruct v as [[]|]; simpl;
        rewrite ?lookup_insert_ne, ?lookup_delete_ne by congruence; auto. }
  intros v. split; [apply (Hset v)|]. split; [apply (Hset v)|].
  rewrite deleteItemAsync_unfold. apply (Hset None).
Qed.

Lemma other_keys_untouched_witness :
  let s := setItemAsync web_session healthy "theme" (Some (JStr "dark"))
             (initial web_session healthy ∅ ∅) in
  sessionStorage (setItemAsync web_session healthy ACCESS_TOKEN_KEY (Some (JStr "tok")) s)
    !! "theme" = sessionStorage s !! "theme".
Proof.
  intros s.
  apply (other_keys_untouched web_session healthy ACCESS_TOKEN_KEY (Some (JStr "tok")) s "theme").
  discriminate.
Defined.

(** X4. A write tells the other tabs exactly when it is a write of the
    access token on the web with a broadcast channel: then one message with
    the value written is posted; in every other case none is. *)
Theorem broadcast_on_token_write pf f key v s :
  posted (setItemAsync pf f key v s)
  = if isWeb pf && has_bc pf && bool_decide (key = ACCESS_TOKEN_KEY)
    then v :: posted s else posted s.
Proof.
  open_store.
  destruct (isWeb pf); simpl.
  - destruct (WEB_PERSIST pf && has_window pf), (throws f),
      (bool_decide (key = ACCESS_TOKEN_KEY)), (has_bc pf); reflexivity.
  - destruct (secureStoreChecked s); simpl;
      repeat match goal with |- context [if ?b then _ else _] => destruct b end;
      destruct v as [[]|]; reflexivity.
Qed.

(** X5. The availability probe of the native store is made once. If that
    one probe says "unavailable" or rejects, every later write is dropped
    and every later read answers [null], whatever the probe would say by
    then. *)
Theorem unavailable_probe_sticks pf f0 key0 s fw fr key x :
  isWeb pf = false →
  secureStoreChecked s = false →
  probe f0 ≠ Some true →
  let s1 := snd (getItemAsync pf f0 key0 s) in
  setItemAsync pf fw key (Some x) s1 = s1
  ∧ fst (getItemAsync pf fr key s1) = None.
Proof.
  intros Hweb Hch Hprobe s1. subst s1. open_store. rewrite Hweb, Hch.
  destruct (probe f0) as [[]|]; try congruence; simpl; auto.
Qed.

Lemma unavailable_probe_sticks_witness :
  let s1 := snd (getItemAsync native blocked ACCESS_TOKEN_KEY (initial native healthy ∅ ∅)) in
  setItemAsync native healthy ACCESS_TOKEN_KEY (Some (JStr "tok")) s1 = s1
  ∧ fst (getItemAsync native healthy ACCESS_TOKEN_KEY s1) = None.
Proof.
  apply (unavailable_probe_sticks native blocked ACCESS_TOKEN_KEY
           (initial native healthy ∅ ∅) healthy healthy ACCESS_TOKEN_KEY (JStr "tok"));
    [reflexivity|reflexivity|discriminate].
Defined.

(** X6. On the web without session persistence the store is one cell: a
    write under any key is what a read under any key answers. *)
Theorem web_memory_is_one_cell pf fw fr k1 k2 v s :
  isWeb pf = true →
  WEB_PERSIST pf && has_window pf = false →
  fst (getItemAsync pf fr k2 (setItemAsync pf fw k1 v s)) = v.
Proof.
  intros Hweb Hp. open_store. rewrite Hweb, Hp.
  destruct (bool_decide (k1 = ACCESS_TOKEN_KEY)), (has_bc pf); reflexivity.
Qed.

Lemma web_memory_is_one_cell_witness :
  fst (getItemAsync web_memory healthy ACCESS_TOKEN_KEY
         (setItemAsync web_memory healthy "theme" (Some (JStr "dark"))
            (initial web_memory healthy ∅ ∅))) = Some (JStr "dark").
Proof. apply web_memory_is_one_cell; reflexivity. Defined.

End SecureStoreMore.

(** ** URL building, once more *)

Section UrlMore.
Import Text Client.

Lemma starts_with_extend p s t :
  starts_with p s = true → starts_with p (s +:+ t) = true.
Proof.
  revert s. induction p as [|a p IH]; intros s H; [reflexivity|].
  destruct s as [|b s]; simpl in H; [discriminate|].
  apply andb_prop in H as [Hab Hp]. simpl. rewrite Hab. simpl. apply IH, Hp.
Qed.

Lemma scheme_tail_extend r t : scheme_tail r = true → scheme_tail (r +:+ t) = true.
Proof.
  induction r as [|c r IH]; cbn [scheme_tail]; [discriminate|].
  change (String c r +:+ t) with (String c (r +:+ t)). cbn [scheme_tail].
  destruct (is_scheme_char c); [exact IH|].
  intros H. apply (starts_with_extend "://" (String c r) t), H.
Qed.

Lemma is_absolute_extend s t : is_absolute s = true → is_absolute (s +:+ t) = true.
Proof.
  destruct s as [|c r]; [discriminate|]. cbn [is_absolute]. intros H.
  change (String c r +:+ t) with (String c (r +:+ t)). cbn [is_absolute].
  apply andb_prop in H as [Hc Hr]. rewrite Hc. simpl. apply scheme_tail_extend, Hr.
Qed.

(** X7. When the base URL, its trailing slashes removed, is itself an
    absolute URL, every result of [toURL] is absolute and [toURL] leaves it
    alone: building a URL twice is building it once. *)
Theorem toURL_idempotent (E : Env) (input : string) :
  is_absolute (strip_trailing_slashes (BASE_URL E)) = true →
  is_absolute (toURL E input) = true
  ∧ toURL E (toURL E input) = toURL E input.
Proof.
  intros Hbase.
  assert (Habs : is_absolute (toURL E input) = true).
  { unfold toURL. destruct (is_absolute input) eqn:Hi; [exact Hi|].
    apply is_absolute_extend, Hbase. }
  split; [exact Habs|]. unfold toURL at 1. rewrite Habs. reflexivity.
Qed.

Lemma toURL_idempotent_witness :
  is_absolute (toURL Demo.env_empty "/pdfs/1") = true
  ∧ toURL Demo.env_empty (toURL Demo.env_empty "/pdfs/1") = toURL Demo.env_empty "/pdfs/1".
Proof. apply toURL_idempotent. reflexivity. Defined.

(** A base that is only a scheme loses its absoluteness with its slashes. *)
Example toURL_scheme_only_base :
  let E := Demo.env [] (Rejected "offline") in
  let E' := {| BASE_URL := "http://"; pf := pf E; sf := sf E; JSON_parse := JSON_parse E;
               net := net E; auth_net := auth_net E |} in
  toURL E' "a" = "http:/a" ∧ toURL E' (toURL E' "a") = "http:/http:/a".
Proof. split; reflexivity. Qed.

End UrlMore.

(** ** apiFetch, once more *)

Section ApiFetchMore.
Import Json Text Client.

Variable E : Env.

Lemma fetches_app l1 l2 : fetches (l1 ++ l2) = fetches l1 + fetches l2.
Proof. unfold fetches. rewrite filter_app, length_app. reflexivity. Qed.

Lemma posts_app l1 l2 : posts (l1 ++ l2) = posts l1 + posts l2.
Proof. unfold posts. rewrite filter_app, length_app. reflexivity. Qed.

Lemma fetches_rounds rq tmo k : ∀ a, fetches (rounds rq tmo a k) = k.
Proof.
  induction k as [|k IH]; intros a; [reflexivity|].
  cbn [rounds]. change (fetches (EvSleep (waitMs_of a) :: EvFetch rq tmo :: rounds rq tmo (a + 1) k))
    with (S (fetches (rounds rq tmo (a + 1) k))). rewrite IH. reflexivity.
Qed.

Lemma posts_rounds rq tmo k : ∀ a, posts (rounds rq tmo a k) = 0.
Proof. induction k as [|k IH]; intros a; [reflexivity|]. apply IH. Qed.

(** What [apiFetch] is made of. *)
Lemma apiFetch_steps input init options c :
  let rq0 := fst (first_request E input init options c) in
  let c0 := snd (first_request E input init options c) in
  let tmo := opt_timeoutMs options in
  apiFetch E input init options c
  = match net E (log c0) rq0 with
    | Rejected r => (Err (FetchFailed r), add_log (EvFetch rq0 tmo) c0)
    | Responded res =>
        match on401 E options rq0 res (add_log (EvFetch rq0 tmo) c0) with
        | (Err e, c2) => (Err e, c2)
        | (Ok (res1, rq1), c2) =>
            let isGet := bool_decide (method rq0 = "GET") in
            let rem := if isGet then opt_idempotentRetries options else 0%Z in
            match backoff E (Z.to_nat rem) options isGet rq1 rem res1 c2 with
            | (Err e, c3) => (Err e, c3)
            | (Ok res2, c3) => (surface E options (url rq0) res2, c3)
            end
        end
    end.
Proof.
  intros rq0 c0 tmo. subst rq0 c0 tmo. unfold apiFetch.
  destruct (first_request E input init options c) as [rq c0]. simpl.
  unfold fetchWithTimeout. destruct (net E (log c0) rq); reflexivity.
Qed.

Lemma first_request_fields input init options c :
  let rq := fst (first_request E input init options c) in
  url rq = toURL E input
  ∧ method rq = toUpperCase (default "GET" (init_method init))
  ∧ credentials rq = default "include" (init_credentials init)
  ∧ body rq = init_body init.
Proof.
  unfold first_request.
  destruct (opt_auth options);
    [destruct (SecureStore.getAccessToken (pf E) (sf E) (store c)) as [t st]|];
    simpl; auto.
Qed.

Lemma backoff_error fuel options isGet rq :
  ∀ remaining res c e,
    fst (backoff E fuel options isGet rq remaining res c) = Err e →
    ∃ r, e = FetchFailed r.
Proof.
  induction fuel as [|fuel IH]; intros remaining res c e; simpl.
  - destruct (_ && _); discriminate.
  - destruct (negb (ok res) && isGet && (0 <? remaining)%Z && isTransient (status res));
      [|discriminate].
    unfold fetchWithTimeout. destruct (net E _ rq) as [res'|r]; simpl.
    + apply IH.
    + intros [= <-]. eauto.
Qed.

(** The loop touches neither the coordinator nor the token store. *)
Lemma backoff_frame fuel options isGet rq :
  ∀ remaining res c,
    same_coordinator c (snd (backoff E fuel options isGet rq remaining res c))
    ∧ store (snd (backoff E fuel options isGet rq remaining res c)) = store c.
Proof.
  induction fuel as [|fuel IH]; intros remaining res c; simpl.
  - destruct (_ && _); simpl; repeat split; reflexivity.
  - destruct (negb (ok res) && isGet && (0 <? remaining)%Z && isTransient (status res));
      [|simpl; repeat split; reflexivity].
    unfold fetchWithTimeout. destruct (net E _ rq) as [res'|r]; simpl.
    + destruct (IH (remaining - 1)%Z res'
                  (add_log (EvFetch rq (opt_timeoutMs options))
                     (add_log (EvSleep (waitMs_of (attempt_of options remaining))) c)))
        as [Hs Hst].
      split; [exact Hs|exact Hst].
    + repeat split; reflexivity.
Qed.

Lemma on401_error options rq res c e :
  fst (on401 E options rq res c) = Err e → ∃ r, e = FetchFailed r.
Proof.
  destruct (on401_cases E options rq res c)
    as [[_ ->]|(_ & _ & [[_ ->]|(t & _ & _ & _ & ->)])]; try discriminate.
  destruct (net E _ _); [discriminate|]. intros [= <-]. eauto.
Qed.

(** What the 401 branch adds to the trace. *)
Lemma on401_adds options rq res c :
  ∃ extra,
    log (snd (on401 E options rq res c)) = log c ++ extra
    ∧ fetches extra ≤ 1 ∧ refresh_calls extra ≤ 1 ∧ posts extra ≤ 1
    ∧ sleeps extra = [].
Proof.
  pose proof (await_refresh_log E c) as Hl.
  destruct (on401_cases E options rq res c)
    as [[_ ->]|(_ & _ & [[_ ->]|(t & _ & _ & H2 & _)])].
  - exists []. simpl. rewrite app_nil_r. repeat split; auto.
  - eexists. split; [exact Hl|]. destruct (refreshPromise c); simpl; repeat split; auto.
  - simpl in H2. rewrite H2. simpl. rewrite Hl, <- app_assoc. eexists. split; [reflexivity|].
    destruct (refreshPromise c); simpl; repeat split; auto.
Qed.

Lemma last_answer_fetch base p rq tmo :
  last_answer E base (base ++ p ++ [EvFetch rq tmo]) (url rq) (net E (base ++ p) rq).
Proof. exists p, rq, tmo, []. auto. Qed.

Lemma last_answer_app base l u o extra :
  last_answer E base l u o → fetches extra = 0 → last_answer E base (l ++ extra) u o.
Proof.
  intros (pre & rq & tmo & post & -> & Hp & Hu & Hn) He.
  exists pre, rq, tmo, (post ++ extra). rewrite <- !app_assoc. simpl.
  rewrite fetches_app, Hp, He. auto.
Qed.

Lemma last_answer_base base l u o : last_answer E base l u o → ∃ p, l = base ++ p.
Proof. intros (pre & rq & tmo & post & -> & _). eauto. Qed.

(** The loop ends with the answer to the last request sent. *)
Lemma backoff_answer base options isGet rq fuel :
  ∀ remaining res c,
    last_answer E base (log c) (url rq) (Responded res) →
    ∃ o, last_answer E base (log (snd (backoff E fuel options isGet rq remaining res c)))
           (url rq) o
         ∧ fst (backoff E fuel options isGet rq remaining res c)
           = match o with
             | Responded r => Ok r
             | Rejected e => Err (FetchFailed e)
             end.
Proof.
  induction fuel as [|fuel IH]; intros remaining res c Hc; simpl.
  - exists (Responded res). destruct (_ && _); auto.
  - destruct (negb (ok res) && isGet && (0 <? remaining)%Z && isTransient (status res));
      [|exists (Responded res); auto].
    destruct (last_answer_base _ _ _ _ Hc) as [p Hp].
    pose proof (last_answer_fetch base
                  (p ++ [EvSleep (waitMs_of (attempt_of options remaining))])
                  rq (opt_timeoutMs options)) as Hnew.
    rewrite !app_assoc in Hnew. rewrite <- Hp in Hnew.
    unfold fetchWithTimeout. cbn [log add_log].
    destruct (net E _ rq) as [res'|e] eqn:Hnet.
    + apply IH. exact Hnew.
    + exists (Rejected e). split; [exact Hnew|reflexivity].
Qed.

(** So does the 401 branch. *)
Lemma on401_answer base options rq res c :
  last_answer E base (log c) (url rq) (Responded res) →
  match on401 E options rq res c with
  | (Ok (res1, rq1), c2) =>
      url rq1 = url rq ∧ last_answer E base (log c2) (url rq) (Responded res1)
  | (Err e, c2) =>
      ∃ r, e = FetchFailed r ∧ last_answer E base (log c2) (url rq) (Rejected r)
  end.
Proof.
  intros Hc.
  assert (Href : last_answer E base (log (snd (await_refresh E c))) (url rq)
                   (Responded res)).
  { rewrite await_refresh_log. apply last_answer_app; [exact Hc|].
    destruct (refreshPromise c); reflexivity. }
  destruct (on401_cases E options rq res c)
    as [[_ ->]|(_ & _ & [[_ ->]|(t & _ & _ & H2 & H3)])]; [auto|auto|].
  cbv zeta in H2, H3.
  destruct (last_answer_base _ _ _ _ Href) as [p Hp].
  pose proof (last_answer_fetch base p
                (with_headers (headers_set "Authorization" (bearer E t) (headers rq)) rq)
                (opt_timeoutMs options)) as Hnew.
  rewrite app_assoc, <- Hp in Hnew. cbn [url with_headers] in Hnew.
  destruct (on401 E options rq res c) as [[[res1 rq1]|e] c2]; cbn [fst snd] in H2, H3;
    subst c2; cbn [log add_log].
  - destruct (net E _ _) as [r1|e] eqn:Hnet; [|discriminate].
    injection H3 as -> ->. split; [reflexivity|exact Hnew].
  - destruct (net E _ _) as [r1|e'] eqn:Hnet; [discriminate|].
    injection H3 as ->. eauto.
Qed.

(** The result of [apiFetch] is read off the answer to the last request
    it sent. *)
Lemma apiFetch_answer input init options c :
  let out := apiFetch E input init options c in
  ∃ o, last_answer E (log c) (log (snd out)) (toURL E input) o
       ∧ fst out = match o with
                   | Responded res => surface E options (toURL E input) res
                   | Rejected r => Err (FetchFailed r)
                   end.
Proof.
  intros out. subst out. rewrite apiFetch_steps.
  destruct (first_request_fields input init options c) as (Hu & _).
  destruct (first_request_log E input init options c) as [Hl0 _].
  cbv zeta in Hu |- *.
  set (rq0 := fst (first_request E input init options c)) in *.
  set (c0 := snd (first_request E input init options c)) in *.
  pose proof (last_answer_fetch (log c) [] rq0 (opt_timeoutMs options)) as H0.
  rewrite app_nil_r in H0. cbn [app] in H0. rewrite Hu in H0 |- *. rewrite Hl0.
  destruct (net E (log c) rq0) as [res|r] eqn:Hnet.
  2:{ exists (Rejected r). cbn [snd fst log add_log]. rewrite Hl0. auto. }
  assert (H1 : last_answer E (log c) (log (add_log (EvFetch rq0 (opt_timeoutMs options)) c0))
                 (url rq0) (Responded res)).
  { cbn [log add_log]. rewrite Hl0, Hu. exact H0. }
  pose proof (on401_answer (log c) options rq0 res _ H1) as H401.
  destruct (on401 E options rq0 res _) as [[[res1 rq1]|e] c2].
  - destruct H401 as [Hu1 H2]. rewrite <- Hu1 in H2.
    destruct (backoff_answer (log c) options (bool_decide (method rq0 = "GET")) rq1
                (Z.to_nat (if bool_decide (method rq0 = "GET")
                           then opt_idempotentRetries options else 0%Z))
                (if bool_decide (method rq0 = "GET")
                 then opt_idempotentRetries options else 0%Z) res1 c2 H2)
      as (o & Ho & Hr).
    rewrite Hu1, Hu in Ho.
    destruct (backoff E _ options _ rq1 _ res1 c2) as [[res2|e] c3];
      cbn [fst snd] in Ho, Hr |- *.
    + exists o. split; [exact Ho|]. destruct o; [|discriminate].
      injection Hr as ->. reflexivity.
    + exists o. split; [exact Ho|]. destruct o; [discriminate|].
      injection Hr as ->. reflexivity.
  - destruct H401 as (r & -> & H2). rewrite Hu in H2.
    exists (Rejected r). auto.
Qed.

(** X8. What [apiFetch] hands back is read off the answer to the last
    request it sent, a request to [toURL(input)]. A response it returns is
    that answer, and with [throwOnHTTPError] (the default) its status is
    2xx. An [APIError] is raised only with [throwOnHTTPError], for an
    answer whose status is not 2xx, and carries the status, the URL, the
    message [HTTP <status>] and the parsed body of that answer. A rejection
    of [fetch] that is passed on is the rejection of that last request,
    unchanged. *)
Theorem apiFetch_result input init options c :
  let out := apiFetch E input init options c in
  let answered := last_answer E (log c) (log (snd out)) (toURL E input) in
  (∀ res, fst out = Ok res →
     answered (Responded res) ∧ (opt_throwOnHTTPError options = true → ok res = true))
  ∧ (∀ m st u d, fst out = Err (APIError m st u d) →
       opt_throwOnHTTPError options = true
       ∧ u = toURL E input
       ∧ m = "HTTP " +:+ pretty st
       ∧ ∃ res, answered (Responded res)
                ∧ status res = st ∧ ok res = false ∧ d = Body (safeJson E res))
  ∧ (∀ r, fst out = Err (FetchFailed r) → answered (Rejected r)).
Proof.
  intros out answered. subst answered.
  destruct (apiFetch_answer input init options c) as (o & Ho & Hr). fold out in Ho, Hr.
  assert (Hsurf : ∀ res, surface E options (toURL E input) res
            = if opt_throwOnHTTPError options && negb (ok res)
              then Err (APIError ("HTTP " +:+ pretty (status res)) (status res)
                          (toURL E input) (Body (safeJson E res)))
              else Ok res) by reflexivity.
  split; [|split].
  - intros res Hres. rewrite Hr in Hres. destruct o as [res'|r]; [|discriminate].
    rewrite Hsurf in Hres.
    destruct (opt_throwOnHTTPError options) eqn:Hthrow, (ok res') eqn:Hok;
      cbn in Hres; try discriminate; injection Hres as <-; auto.
    split; [exact Ho|discriminate].
  - intros m st u d He. rewrite Hr in He. destruct o as [res'|r]; [|discriminate].
    rewrite Hsurf in He.
    destruct (opt_throwOnHTTPError options) eqn:Hthrow, (ok res') eqn:Hok;
      cbn in He; try discriminate.
    injection He as <- <- <- <-. repeat split; auto. exists res'. auto.
  - intros r He. rewrite Hr in He. destruct o as [res'|r'].
    + unfold surface in He. destruct (_ && _); discriminate.
    + injection He as <-. exact Ho.
Qed.

Lemma sleeps_snoc_fetch l rq t : sleeps (l ++ [EvFetch rq t]) = sleeps l.
Proof. rewrite sleeps_app. simpl. apply app_nil_r. Qed.

(** The whole trace of one [apiFetch], counted. *)
Lemma apiFetch_counts input init options c :
  let rq0 := fst (first_request E input init options c) in
  let N := opt_idempotentRetries options in
  let out := apiFetch E input init options c in
  ∃ extra k,
    log (snd out) = log c ++ extra
    ∧ fetches extra ≤ 2 + k
    ∧ 1 ≤ fetches extra
    ∧ refresh_calls extra ≤ 1
    ∧ posts extra ≤ 1
    ∧ length (sleeps extra) = k
    ∧ k ≤ Z.to_nat N
    ∧ (method rq0 ≠ "GET" → k = 0).
Proof.
  intros rq0 N out. subst out. rewrite apiFetch_steps. fold rq0.
  destruct (first_request_log E input init options c) as [Hl0 _].
  set (c0 := snd (first_request E input init options c)) in *.
  set (tmo := opt_timeoutMs options).
  destruct (net E (log c0) rq0) as [res|r].
  2:{ exists [EvFetch rq0 tmo], 0. simpl. rewrite Hl0.
      repeat split; auto; lia. }
  destruct (on401_adds options rq0 res (add_log (EvFetch rq0 tmo) c0))
    as (ex1 & Hl1 & Hf1 & Hr1 & Hp1 & Hs1).
  destruct (on401 E options rq0 res _) as [[[res1 rq1]|e] c2]; simpl in Hl1.
  - cbv zeta.
    destruct (backoff_entry E options (bool_decide (method rq0 = "GET")) rq1 res1 c2)
      as (k & Hk & Hlog & Hng & _).
    fold N in Hk, Hlog |- *.
    assert (Hlog' : ∀ r c3,
      backoff E (Z.to_nat (if bool_decide (method rq0 = "GET") then N else 0%Z)) options
        (bool_decide (method rq0 = "GET")) rq1
        (if bool_decide (method rq0 = "GET") then N else 0%Z) res1 c2 = (r, c3) →
      log c3 = log c ++ ([EvFetch rq0 tmo] ++ ex1 ++ rounds rq1 tmo 1 k)).
    { intros r c3 Hb. rewrite Hb in Hlog. simpl in Hlog.
      rewrite Hlog, Hl1, Hl0. subst tmo. rewrite <- !app_assoc. reflexivity. }
    exists ([EvFetch rq0 tmo] ++ ex1 ++ rounds rq1 tmo 1 k), k.
    split.
    { destruct (backoff E _ options _ rq1 _ res1 c2) as [[res2|e] c3] eqn:Hb;
        simpl; apply (Hlog' _ _ eq_refl). }
    rewrite !fetches_app, !refresh_calls_app, !posts_app, !sleeps_app,
      fetches_rounds, refresh_calls_rounds, posts_rounds, Hs1, sleeps_rounds_1.
    simpl. rewrite length_map, length_seq. repeat split; try lia.
    intros Hm. apply Hng, bool_decide_eq_false_2, Hm.
  - exists ([EvFetch rq0 tmo] ++ ex1), 0. simpl.
    rewrite Hl1, Hl0, <- app_assoc. simpl.
    change (EvFetch rq0 tmo :: ex1) with ([EvFetch rq0 tmo] ++ ex1).
    rewrite !fetches_app, !refresh_calls_app, !posts_app, ?sleeps_app, Hs1.
    simpl. repeat split; auto; lia.
Qed.

(** X9. The budget of one [apiFetch]: at least one and at most
    [2 + idempotentRetries] requests (at most 2 when the method is not
    GET), at most one call of the refresh coordinator and at most one POST
    to the refresh endpoint, and one wait per request beyond the second. *)
Theorem apiFetch_budget input init options c :
  let rq0 := fst (first_request E input init options c) in
  let N := Z.to_nat (opt_idempotentRetries options) in
  let out := apiFetch E input init options c in
  fetches (log c) + 1 ≤ fetches (log (snd out))
  ∧ fetches (log (snd out)) ≤ fetches (log c) + 2 + N
  ∧ (method rq0 ≠ "GET" → fetches (log (snd out)) ≤ fetches (log c) + 2)
  ∧ refresh_calls (log (snd out)) ≤ refresh_calls (log c) + 1
  ∧ posts (log (snd out)) ≤ posts (log c) + 1
  ∧ fetches (log (snd out))
    ≤ fetches (log c) + 2 + (length (sleeps (log (snd out))) - length (sleeps (log c))).
Proof.
  intros rq0 N out.
  destruct (apiFetch_counts input init options c)
    as (extra & k & Hlog & Hf & Hf1 & Hr & Hp & Hs & Hk & Hng).
  fold out in Hlog. fold rq0 in Hng. fold N in Hk.
  rewrite Hlog, fetches_app, refresh_calls_app, posts_app, sleeps_app, length_app.
  repeat split; try lia.
  intros Hm. specialize (Hng Hm). lia.
Qed.

Lemma counts_of_fetch rq t :
  refresh_calls [EvFetch rq t] = 0 ∧ posts [EvFetch rq t] = 0.
Proof. split; reflexivity. Qed.

Lemma same_coordinator_trans c1 c2 c3 :
  same_coordinator c1 c2 → same_coordinator c2 c3 → same_coordinator c1 c3.
Proof.
  unfold same_coordinator. intros (A1 & A2 & A3 & A4) (B1 & B2 & B3 & B4).
  repeat split; congruence.
Qed.

Lemma first_request_store input init options c :
  store (snd (first_request E input init options c))
  = if opt_auth options
    then snd (SecureStore.getAccessToken (pf E) (sf E) (store c))
    else store c.
Proof.
  unfold first_request. destruct (opt_auth options); [|reflexivity].
  destruct (SecureStore.getAccessToken (pf E) (sf E) (store c)); reflexivity.
Qed.

(** X10. Without a first response 401 with [retryOn401] on, [apiFetch]
    stays away from the refresh machinery: no call of the coordinator, no
    POST to the refresh endpoint, the coordinator as it was, and the token
    store as the first read left it. *)
Theorem no_refresh_without_401 input init options c :
  let rq0 := fst (first_request E input init options c) in
  let c0 := snd (first_request E input init options c) in
  let out := apiFetch E input init options c in
  (opt_retryOn401 options = false
   ∨ ∀ res, net E (log c0) rq0 = Responded res → status res ≠ 401%Z) →
  refresh_calls (log (snd out)) = refresh_calls (log c)
  ∧ posts (log (snd out)) = posts (log c)
  ∧ same_coordinator c (snd out)
  ∧ store (snd out) = store c0.
Proof.
  intros rq0 c0 out H. subst out. rewrite apiFetch_steps. fold rq0 c0.
  destruct (first_request_log E input init options c) as [Hl0 Hsame]. fold c0 in Hl0, Hsame.
  set (tmo := opt_timeoutMs options).
  destruct (net E (log c0) rq0) as [res|r] eqn:Hnet.
  2:{ simpl. rewrite Hl0, refresh_calls_app, posts_app.
      destruct (counts_of_fetch rq0 tmo) as [-> ->].
      split; [lia|]. split; [lia|]. split; [apply Hsame|reflexivity]. }
  destruct (on401_cases E options rq0 res (add_log (EvFetch rq0 tmo) c0))
    as [[_ ->]|(H401 & Hretry & _)].
  2:{ destruct H as [H|H]; [congruence|]. destruct (H res eq_refl H401). }
  cbv zeta.
  destruct (backoff_entry E options (bool_decide (method rq0 = "GET")) rq0 res
              (add_log (EvFetch rq0 tmo) c0)) as (k & _ & Hlog & _).
  destruct (backoff_frame (Z.to_nat (if bool_decide (method rq0 = "GET")
                                      then opt_idempotentRetries options else 0%Z))
              options (bool_decide (method rq0 = "GET")) rq0
              (if bool_decide (method rq0 = "GET")
               then opt_idempotentRetries options else 0%Z) res
              (add_log (EvFetch rq0 tmo) c0)) as [Hfr Hst].
  cbv zeta in Hlog.
  assert (Hgoal : ∀ c3,
    c3 = snd (backoff E (Z.to_nat (if bool_decide (method rq0 = "GET")
                                   then opt_idempotentRetries options else 0%Z))
                options (bool_decide (method rq0 = "GET")) rq0
                (if bool_decide (method rq0 = "GET")
                 then opt_idempotentRetries options else 0%Z) res
                (add_log (EvFetch rq0 tmo) c0)) →
    refresh_calls (log c3) = refresh_calls (log c) ∧ posts (log c3) = posts (log c)
    ∧ same_coordinator c c3 ∧ store c3 = store c0).
  { intros c3 ->. rewrite Hlog, Hst. simpl.
    rewrite Hl0, !refresh_calls_app, !posts_app, refresh_calls_rounds, posts_rounds.
    destruct (counts_of_fetch rq0 tmo) as [-> ->].
    split; [lia|]. split; [lia|]. split; [|reflexivity]. repeat split.
    - destruct Hfr as (F1 & _). rewrite F1. apply Hsame.
    - destruct Hfr as (_ & F2 & _). rewrite F2. apply Hsame.
    - destruct Hfr as (_ & _ & F3 & _). rewrite F3. apply Hsame.
    - destruct Hfr as (_ & _ & _ & F4). rewrite F4. apply Hsame. }
  destruct (backoff E _ options _ rq0 _ res _) as [[res2|e] c3]; simpl in *;
    apply Hgoal; reflexivity.
Qed.

Lemma to_lower_idem a : to_lower (to_lower a) = to_lower a.
Proof. destruct a as [[] [] [] [] [] [] [] []]; reflexivity. Qed.

Lemma toLowerCase_idem s : toLowerCase (toLowerCase s) = toLowerCase s.
Proof.
  induction s as [|a s IH]; [reflexivity|].
  cbn [toLowerCase map_chars]. fold (toLowerCase s) (toLowerCase (toLowerCase s)).
  rewrite to_lower_idem, IH. reflexivity.
Qed.

Lemma Headers_new_snoc l k v :
  Headers_new (l ++ [(k, v)]) = headers_append k v (Headers_new l).
Proof. unfold Headers_new. rewrite foldl_app. reflexivity. Qed.

(** The names of a [Headers] object are in lower case. *)
Lemma Headers_new_lower l : ∀ k v, Headers_new l !! k = Some v → toLowerCase k = k.
Proof.
  induction l as [|[k0 v0] l IH] using rev_ind; intros k v.
  - unfold Headers_new. cbn [foldl]. rewrite lookup_empty. discriminate.
  - rewrite Headers_new_snoc. unfold headers_append.
    destruct (decide (k = toLowerCase k0)) as [->|Hne].
    + intros _. apply toLowerCase_idem.
    + destruct (Headers_new l !! toLowerCase k0);
        rewrite lookup_insert_ne by congruence; apply IH.
Qed.

(** When the names given are distinct up to case, the object holds
    exactly the values given, each under its name in lower case. *)
Lemma Headers_new_lookup l :
  NoDup (map (λ kv, toLowerCase (fst kv)) l) →
  ∀ k v, Headers_new l !! k = Some v ↔ ∃ k', (k', v) ∈ l ∧ toLowerCase k' = k.
Proof.
  induction l as [|[k0 v0] l IH] using rev_ind; intros Hnd k v.
  - unfold Headers_new. cbn [foldl]. rewrite lookup_empty. split; [discriminate|].
    intros (k' & Hin & _). inversion Hin.
  - rewrite map_app in Hnd. apply NoDup_app in Hnd as (Hl & Hx & _). cbn [map fst] in Hx.
    assert (Hnot : ∀ k' w, (k', w) ∈ l → toLowerCase k' ≠ toLowerCase k0).
    { intros k' w Hin Heq. apply (Hx (toLowerCase k0)); [|left].
      apply list_elem_of_fmap. exists (k', w). split; [symmetry; exact Heq|exact Hin]. }
    assert (Hfresh : Headers_new l !! toLowerCase k0 = None).
    { destruct (Headers_new l !! toLowerCase k0) as [w|] eqn:Hw; [|reflexivity].
      apply (IH Hl) in Hw as (k' & Hin & Hk'). destruct (Hnot k' w Hin Hk'). }
    rewrite Headers_new_snoc. unfold headers_append. rewrite Hfresh.
    destruct (decide (k = toLowerCase k0)) as [->|Hne].
    + rewrite lookup_insert_eq. split.
      * intros [= <-]. exists k0. split; [|reflexivity].
        apply elem_of_app. right. left.
      * intros (k' & Hin & Hk'). apply elem_of_app in Hin as [Hin|Hin].
        -- destruct (Hnot k' v Hin Hk').
        -- apply list_elem_of_singleton in Hin. injection Hin as -> ->. reflexivity.
    + rewrite lookup_insert_ne by congruence. rewrite (IH Hl). split.
      * intros (k' & Hin & Hk'). exists k'. split; [|exact Hk'].
        apply elem_of_app. left. exact Hin.
      * intros (k' & Hin & Hk'). apply elem_of_app in Hin as [Hin|Hin]; [eauto|].
        apply list_elem_of_singleton in Hin. injection Hin as -> ->. congruence.
Qed.

Lemma Headers_new_list_to_map l :
  NoDup l.*1 → (∀ k v, (k, v) ∈ l → toLowerCase k = k) →
  Headers_new l = list_to_map l.
Proof.
  induction l as [|[k0 v0] l IH] using rev_ind; intros Hnd Hlow; [reflexivity|].
  rewrite fmap_app in Hnd. apply NoDup_app in Hnd as (Hl & Hx & _).
  assert (Hk0 : k0 ∉ l.*1).
  { intros Hin. apply (Hx k0 Hin). left. }
  rewrite Headers_new_snoc, IH; [|exact Hl|].
  2:{ intros k v Hin. apply (Hlow k v), elem_of_app. left. exact Hin. }
  unfold headers_append.
  rewrite (Hlow k0 v0) by (apply elem_of_app; right; left).
  rewrite (not_elem_of_list_to_map_1 _ _ Hk0).
  symmetry. apply list_to_map_snoc, Hk0.
Qed.

(** [new Headers(h)] of a [Headers] object is a copy. *)
Lemma Headers_new_entries h :
  (∀ k v, h !! k = Some v → toLowerCase k = k) → Headers_new (entries h) = h.
Proof.
  intros Hlow. unfold entries. rewrite Headers_new_list_to_map.
  - apply list_to_map_to_list.
  - apply NoDup_fst_map_to_list.
  - intros k v Hin. apply (Hlow k v), elem_of_map_to_list, Hin.
Qed.

Lemma Headers_new_accept :
  Headers_new [("Accept", "application/json")] = {["accept" := "application/json"]}.
Proof. reflexivity. Qed.

(** The headers of the first request, name by name. *)
Lemma first_request_header input init options c k :
  let rq := fst (first_request E input init options c) in
  let token := fst (SecureStore.getAccessToken (pf E) (sf E) (store c)) in
  headers rq !! k
  = if bool_decide (k = "authorization") && opt_auth options && truthy_value token
    then bearer E <$> token
    else match Headers_new (init_headers init) !! k with
         | Some v => Some v
         | None => if bool_decide (k = "accept") then Some "application/json" else None
         end.
Proof.
  intros rq token. subst rq token. unfold first_request.
  assert (Hmerge : mergeHeaders [("Accept", "application/json")] (init_headers init) !! k
                   = match Headers_new (init_headers init) !! k with
                     | Some v => Some v
                     | None => if bool_decide (k = "accept")
                               then Some "application/json" else None
                     end).
  { unfold mergeHeaders. rewrite Headers_new_accept.
    destruct (Headers_new (init_headers init) !! k) as [v|] eqn:Hk.
    - erewrite lookup_union_Some_l; eauto.
    - rewrite lookup_union_r by exact Hk.
      destruct (decide (k = "accept")) as [->|Ha].
      + rewrite bool_decide_eq_true_2 by reflexivity. apply lookup_singleton_eq.
      + rewrite (bool_decide_eq_false_2 _ Ha). apply lookup_singleton_ne. congruence. }
  destruct (opt_auth options) eqn:Hauth.
  - destruct (SecureStore.getAccessToken (pf E) (sf E) (store c)) as [[t|] st];
      cbn [fst snd headers fmap option_fmap option_map].
    + destruct (truthy_value (Some t)) eqn:Ht; cbn [andb].
      * unfold headers_set at 1.
        change (toLowerCase "Authorization") with "authorization".
        destruct (decide (k = "authorization")) as [->|Hk].
        -- rewrite bool_decide_eq_true_2 by reflexivity. cbn [andb].
           apply lookup_insert_eq.
        -- rewrite (bool_decide_eq_false_2 _ Hk). cbn [andb].
           rewrite lookup_insert_ne by congruence. exact Hmerge.
      * rewrite !andb_false_r. exact Hmerge.
    + rewrite !andb_false_r. exact Hmerge.
  - cbn [fst snd headers]. rewrite andb_false_r. cbn [andb]. exact Hmerge.
Qed.

(** X11. The headers of the first request. The caller's headers are read
    through [new Headers], which folds their names to lower case; when the
    names are distinct up to case the object holds exactly the caller's
    values. [Authorization] is [Bearer ${token}] when [auth] is on and the
    store holds a truthy token, overriding what the caller passed in any
    case of the name; otherwise it is the caller's. [Accept] is the
    caller's, or [application/json]. Every other header is the caller's. *)
Theorem first_request_headers input init options c :
  let rq := fst (first_request E input init options c) in
  let token := fst (SecureStore.getAccessToken (pf E) (sf E) (store c)) in
  let caller := Headers_new (init_headers init) in
  headers rq !! "authorization"
  = (if opt_auth options && truthy_value token then bearer E <$> token
     else caller !! "authorization")
  ∧ headers rq !! "accept" = Some (default "application/json" (caller !! "accept"))
  ∧ (∀ k, k ≠ "authorization" → k ≠ "accept" → headers rq !! k = caller !! k)
  ∧ (∀ k v, headers rq !! k = Some v → toLowerCase k = k)
  ∧ (NoDup (map (λ kv, toLowerCase (fst kv)) (init_headers init)) →
     ∀ k v, caller !! k = Some v
            ↔ ∃ k', (k', v) ∈ init_headers init ∧ toLowerCase k' = k).
Proof.
  intros rq token caller. subst rq token caller. split; [|split; [|split; [|split]]].
  - rewrite first_request_header. simpl.
    destruct (opt_auth options && truthy_value _); [reflexivity|].
    destruct (Headers_new (init_headers init) !! "authorization"); reflexivity.
  - rewrite first_request_header. simpl.
    destruct (Headers_new (init_headers init) !! "accept"); reflexivity.
  - intros k H1 H2. rewrite first_request_header.
    rewrite (bool_decide_eq_false_2 _ H1), (bool_decide_eq_false_2 _ H2). simpl.
    destruct (Headers_new (init_headers init) !! k); reflexivity.
  - intros k v. rewrite first_request_header.
    destruct (decide (k = "authorization")) as [->|H1]; [reflexivity|].
    rewrite (bool_decide_eq_false_2 _ H1). cbn [andb].
    destruct (Headers_new (init_headers init) !! k) as [w|] eqn:Hw.
    + intros _. apply (Headers_new_lower _ _ _ Hw).
    + case_bool_decide as Ha; [subst k; reflexivity|discriminate].
  - apply Headers_new_lookup.
Qed.

End ApiFetchMore.

Section ApiFetchMoreWitnesses.
Import Json Text Client Demo.

Lemma apiFetch_result_witness :
  let out := apiFetch env_429 "/upload" (with_method "post" empty_init) no_options
               (idle store0) in
  ∃ res, last_answer env_429 [] (log (snd out)) "https://api.example.com/upload"
           (Responded res)
         ∧ status res = 429%Z ∧ ok res = false
         ∧ fst out = Err (APIError "HTTP 429" 429 "https://api.example.com/upload"
                            (Body (safeJson env_429 res))).
Proof.
  intros out.
  destruct (apiFetch_result env_429 "/upload" (with_method "post" empty_init) no_options
              (idle store0)) as (_ & H & _).
  destruct (H "HTTP 429" 429%Z "https://api.example.com/upload" (Body JNull) eq_refl)
    as (_ & _ & _ & res & Hlast & Hst & Hok & Hd).
  exists res. split; [exact Hlast|]. split; [exact Hst|]. split; [exact Hok|].
  rewrite <- Hd. reflexivity.
Defined.

(** A caller who writes header names with capitals: [Accept] replaces the
    default, and the stored token replaces the caller's [AUTHORIZATION]. *)
Example capital_header_names :
  let init := {| init_method := None;
                 init_headers := [("Accept", "text/csv"); ("AUTHORIZATION", "Basic abc")];
                 init_body := None; init_credentials := None |} in
  headers (fst (first_request env_empty "/pdfs" init no_options (idle store0)))
  = {[ "accept" := "text/csv"; "authorization" := "Bearer t1" ]}.
Proof. reflexivity. Qed.

Example budget_of_a_rate_limited_post :
  let out := apiFetch env_429 "/upload" (with_method "post" empty_init) no_options
               (idle store0) in
  fetches (log (snd out)) = 1 ∧ sleeps (log (snd out)) = [].
Proof. split; reflexivity. Qed.

Lemma no_refresh_without_401_witness :
  let out := apiFetch env_429 "/pdfs" empty_init no_options (idle store0) in
  refresh_calls (log (snd out)) = 0
  ∧ posts (log (snd out)) = 0
  ∧ same_coordinator (idle store0) (snd out).
Proof.
  intros out.
  destruct (no_refresh_without_401 env_429 "/pdfs" empty_init no_options (idle store0))
    as (H1 & H2 & H3 & _).
  - right. intros res Hres. vm_compute in Hres. injection Hres as <-. discriminate.
  - split; [exact H1|]. split; [exact H2|exact H3].
Defined.

End ApiFetchMoreWitnesses.

(** ** The JSON helpers and the session *)

Section SessionMore.
Import Json Text Client Session.

Variable E : Env.
Variable stringify : JSON → string.

Lemma parsed_state r : snd (parsed E r) = snd r.
Proof. destruct r as [[res|e] c]; reflexivity. Qed.

(** A request that is not a GET is never waited for. *)
Lemma apiFetch_no_wait input init options c :
  method (fst (first_request E input init options c)) ≠ "GET" →
  sleeps (log (snd (apiFetch E input init options c))) = sleeps (log c)
  ∧ fetches (log (snd (apiFetch E input init options c))) ≤ fetches (log c) + 2.
Proof.
  intros Hm.
  destruct (apiFetch_counts E input init options c)
    as (extra & k & Hlog & Hf & _ & _ & _ & Hs & _ & Hng).
  cbv zeta in Hng. specialize (Hng Hm). rewrite Hng in Hs.
  apply nil_length_inv in Hs.
  rewrite Hlog, sleeps_app, fetches_app, Hs, app_nil_r. split; [reflexivity|lia].
Qed.

Lemma method_of_first_request input init options c m :
  init_method init = Some m →
  method (fst (first_request E input init options c)) = toUpperCase m.
Proof.
  intros Hm. destruct (first_request_fields E input init options c) as (_ & H & _).
  cbv zeta in H. rewrite H, Hm. reflexivity.
Qed.

(** X12. The helpers fix the method, whatever the caller's [init] names:
    [getJSON] sends a GET, the others POST, PATCH, PUT and DELETE. So a
    mutating helper never waits and retries: it makes at most two requests
    (the second after a refresh) and no backoff wait. *)
Theorem mutating_helpers_never_wait path b init opts c :
  let sent i := method (fst (first_request E path i opts c)) in
  let quiet (out : Result JSON Error * State) :=
    sleeps (log (snd out)) = sleeps (log c)
    ∧ fetches (log (snd out)) ≤ fetches (log c) + 2 in
  sent (with_method "GET" init) = "GET"
  ∧ (sent (body_init stringify "POST" b init) = "POST"
     ∧ quiet (postJSON E stringify path b init opts c))
  ∧ (sent (body_init stringify "PATCH" b init) = "PATCH"
     ∧ quiet (patchJSON E stringify path b init opts c))
  ∧ (sent (body_init stringify "PUT" b init) = "PUT"
     ∧ quiet (putJSON E stringify path b init opts c))
  ∧ (sent (with_method "DELETE" init) = "DELETE"
     ∧ quiet (deleteJSON E path init opts c)).
Proof.
  intros sent quiet. subst sent quiet. cbv beta.
  unfold postJSON, patchJSON, putJSON, deleteJSON. rewrite !parsed_state.
  split; [apply (method_of_first_request _ _ _ _ "GET"); reflexivity|].
  repeat split;
    try (erewrite method_of_first_request by reflexivity; reflexivity);
    apply apiFetch_no_wait;
    erewrite method_of_first_request by reflexivity; discriminate.
Qed.

Lemma jsonHeaders_lower l k v : jsonHeaders l !! k = Some v → toLowerCase k = k.
Proof.
  unfold jsonHeaders. cbv zeta.
  change (toLowerCase "Content-Type") with "content-type".
  destruct (Headers_new l !! "content-type").
  - apply Headers_new_lower.
  - unfold headers_set. change (toLowerCase "Content-Type") with "content-type".
    destruct (decide (k = "content-type")) as [->|Hne]; [reflexivity|].
    rewrite lookup_insert_ne by congruence. apply Headers_new_lower.
Qed.

Lemma jsonHeaders_content_type l :
  jsonHeaders l !! "content-type"
  = Some (default "application/json" (Headers_new l !! "content-type")).
Proof.
  unfold jsonHeaders. cbv zeta.
  change (toLowerCase "Content-Type") with "content-type".
  destruct (Headers_new l !! "content-type") as [v|] eqn:Hv; [exact Hv|].
  unfold headers_set. change (toLowerCase "Content-Type") with "content-type".
  apply lookup_insert_eq.
Qed.

(** X13. The three helpers with a body declare JSON unless the body is a
    form. The caller's headers are read through [new Headers], which folds
    their names to lower case: [Content-Type] is the caller's, in whatever
    case it was written, when there is one or the body is a form, and
    [application/json] otherwise, also when no body is sent. A body is
    sent unless it is absent or [null]. *)
Theorem json_body_headers path m b init opts c :
  let rq := fst (first_request E path (body_init stringify m b init) opts c) in
  let caller := Headers_new (init_headers init) in
  headers rq !! "content-type"
  = (if isForm b then caller !! "content-type"
     else Some (default "application/json" (caller !! "content-type")))
  ∧ (∀ k v, NoDup (map (λ kv, toLowerCase (fst kv)) (init_headers init)) →
            (k, v) ∈ init_headers init → toLowerCase k = "content-type" →
            headers rq !! "content-type" = Some v)
  ∧ (body rq = None ↔ b = NoPayload ∨ b = JsonPayload JNull).
Proof.
  intros rq caller. subst rq caller.
  assert (Hct : headers (fst (first_request E path (body_init stringify m b init) opts c))
                  !! "content-type"
                = (if isForm b then Headers_new (init_headers init) !! "content-type"
                   else Some (default "application/json"
                                (Headers_new (init_headers init) !! "content-type")))).
  { rewrite first_request_header.
    rewrite (bool_decide_eq_false_2 ("content-type" = "authorization")) by discriminate.
    rewrite (bool_decide_eq_false_2 ("content-type" = "accept")) by discriminate.
    cbn [andb body_init init_headers].
    destruct (isForm b).
    - destruct (Headers_new (init_headers init) !! "content-type"); reflexivity.
    - rewrite Headers_new_entries by apply jsonHeaders_lower.
      rewrite jsonHeaders_content_type. reflexivity. }
  split; [exact Hct|]. split.
  - intros k v Hnd Hin Hk. rewrite Hct.
    assert (Hv : Headers_new (init_headers init) !! "content-type" = Some v).
    { apply (Headers_new_lookup _ Hnd). eauto. }
    rewrite Hv. destruct (isForm b); reflexivity.
  - destruct (first_request_fields E path (body_init stringify m b init) opts c)
      as (_ & _ & _ & Hb).
    cbv zeta in Hb. rewrite Hb. cbn [body_init init_body].
    destruct b as [|j|f]; [tauto| |].
    + destruct j; split; try discriminate; try tauto;
        intros [H|H]; discriminate.
    + split; [discriminate|]. intros [H|H]; discriminate.
Qed.

Lemma login_outcomes input answer c :
  let c1 := add_log (EvLoginPost (toURL E "/auth/login") (stringify input)) c in
  (∃ t res, loginWithPassword E stringify input answer c
            = (Ok t, set_store (SecureStore.setAccessToken (pf E) (sf E) (Some t) (store c))
                       c1)
            ∧ answer = Responded res ∧ ok res = true
            ∧ accessToken_of (safeJson E res) = Some t ∧ js_truthy t = true)
  ∨ (∃ e, loginWithPassword E stringify input answer c = (Err e, c1)
          ∧ match answer with
            | Rejected r => e = FetchFailed r
            | Responded res =>
                e = APIError (if ok res then "No access token in response" else "Login failed")
                      (status res) (toURL E "/auth/login") (Body (safeJson E res))
                ∧ (ok res = true →
                   truthy_value (accessToken_of (safeJson E res)) = false)
            end).
Proof.
  intros c1. subst c1. unfold loginWithPassword. cbv zeta.
  destruct answer as [res|r]; [|right; eauto].
  destruct (ok res) eqn:Hok; cbn [negb]; [|right; eexists; split; [reflexivity|]; split;
                                             [reflexivity|discriminate]].
  destruct (accessToken_of (safeJson E res)) as [t|] eqn:Ht.
  - destruct (js_truthy t) eqn:Htr.
    + left. exists t, res. repeat split; auto.
    + right. eexists. split; [reflexivity|]. split; [reflexivity|]. auto.
  - right. eexists. split; [reflexivity|]. split; [reflexivity|]. auto.
Qed.


(** X15. A login that fails leaves the token alone: one POST to
    [/auth/login] was sent and nothing else of the client state has
    changed. The error is the rejection of the fetch, or an [APIError]
    for [/auth/login] with the status and parsed body of the answer,
    [Login failed] for an answer that is not 2xx and
    [No access token in response] for a 2xx answer that holds no truthy
    value under [accessToken]. *)
Theorem login_failure_keeps_token input answer c e c1 :
  loginWithPassword E stringify input answer c = (Err e, c1) →
  c1 = add_log (EvLoginPost (toURL E "/auth/login") (stringify input)) c
  ∧ store c1 = store c
  ∧ match answer with
    | Rejected r => e = FetchFailed r
    | Responded res =>
        e = APIError (if ok res then "No access token in response" else "Login failed")
              (status res) (toURL E "/auth/login") (Body (safeJson E res))
        ∧ (ok res = true → truthy_value (accessToken_of (safeJson E res)) = false)
    end.
Proof.
  intros Hlogin.
  destruct (login_outcomes input answer c)
    as [(t' & res & H & _)|(e' & H & Hcase)];
    rewrite H in Hlogin; [discriminate|].
  injection Hlogin as <- <-. split; [reflexivity|]. split; [reflexivity|exact Hcase].
Qed.


End SessionMore.

Section SessionWitnesses.
Import Json Text Client Session Demo.


(** The same login with a string for a token. *)
Example login_with_a_string :
  let out := loginWithPassword env_empty stringify credentials
               (reply 200 (token_body "t2")) (idle store0) in
  fst out = Ok (JStr "t2")
  ∧ headers (fst (first_request env_empty "/pdfs" empty_init no_options (snd out)))
      !! "authorization" = Some "Bearer t2"
  ∧ length (log (snd out)) = 1.
Proof. repeat split; reflexivity. Qed.

Lemma login_failure_keeps_token_witness :
  let out := loginWithPassword env_empty stringify credentials (reply 200 "{}")
               (idle store0) in
  store (snd out) = store0
  ∧ fst out = Err (APIError "No access token in response" 200
                     "https://api.example.com/auth/login" (Body (JObj []))).
Proof.
  intros out.
  destruct (login_failure_keeps_token env_empty stringify credentials (reply 200 "{}")
              (idle store0)
              (APIError "No access token in response" 200
                 "https://api.example.com/auth/login" (Body (JObj [])))
              (snd out) eq_refl) as (_ & H & _).
  split; [exact H|reflexivity].
Defined.


End SessionWitnesses.

(** ** The resource endpoints, once more *)

Section PdfApiMore.
Import Json Text Client PdfApi.

Lemma join_pairs_nonempty L kv rest : join_pairs L (kv :: rest) ≠ "".
Proof.
  destruct kv as [k v]. cbn [join_pairs].
  destruct rest; destruct (form_encode L k); discriminate.
Qed.

(** X17. The query string is empty exactly when every parameter is absent
    or renders as the empty string; otherwise it is [?] followed by a
    non-empty text. *)
Theorem qs_empty_iff L params :
  (qs L params = "" ↔ ∀ k x, (k, Some x) ∈ params → qv_string L x = "")
  ∧ (qs L params = "" ∨ ∃ s, qs L params = "?" +:+ s ∧ s ≠ "").
Proof.
  unfold qs.
  set (keep := λ kv : string * option QV,
         match snd kv with
         | None => None
         | Some x => let s := qv_string L x in
                     if bool_decide (s = "") then None else Some (fst kv, s)
         end).
  assert (Hkept : omap keep params = [] ↔ ∀ k x, (k, Some x) ∈ params → qv_string L x = "").
  { induction params as [|[k v] rest IH].
    - split; [|reflexivity]. intros _ k x Hin. inversion Hin.
    - cbn [omap list_omap]. unfold keep at 1. cbn [snd fst].
      destruct v as [x|].
      + cbv zeta. case_bool_decide as Hx.
        * rewrite IH. split.
          -- intros H k' x' Hin. apply elem_of_cons in Hin as [[= -> ->]|Hin]; eauto.
          -- intros H k' x' Hin. apply (H k'). right. exact Hin.
        * split; [discriminate|]. intros H. destruct Hx. apply (H k). left.
      + rewrite IH. split.
        * intros H k' x' Hin. apply elem_of_cons in Hin as [[=]|Hin]; eauto.
        * intros H k' x' Hin. apply (H k'). right. exact Hin. }
  destruct (omap keep params) as [|kv rest] eqn:Hk.
  - split; [|left; reflexivity]. rewrite <- Hkept. split; reflexivity.
  - pose proof (join_pairs_nonempty L kv rest) as Hne.
    rewrite (bool_decide_eq_false_2 _ Hne). split.
    + rewrite <- Hkept. split; discriminate.
    + right. eexists. split; [reflexivity|exact Hne].
Qed.

Lemma then_shape_state shape r : snd (then_shape shape r) = snd r.
Proof. destruct r as [[raw|e] c]; reflexivity. Qed.

Lemma api_get_state E path opts c :
  snd (api_get E path opts c)
  = snd (apiFetch E path (with_method "GET" empty_init) opts c).
Proof.
  unfold api_get, getJSON.
  destruct (apiFetch E path (with_method "GET" empty_init) opts c) as [[res|e] c'];
    reflexivity.
Qed.

Lemma api_get_budget E path opts c :
  fetches (log (snd (api_get E path opts c)))
  ≤ fetches (log c) + 2 + Z.to_nat (opt_idempotentRetries opts)
  ∧ length (sleeps (log (snd (api_get E path opts c))))
    ≤ length (sleeps (log c)) + Z.to_nat (opt_idempotentRetries opts).
Proof.
  rewrite api_get_state.
  destruct (apiFetch_counts E path (with_method "GET" empty_init) opts c)
    as (extra & k & Hlog & Hf & _ & _ & _ & Hs & Hk & _).
  cbv zeta in Hk. rewrite Hlog, fetches_app, sleeps_app, length_app. lia.
Qed.

Lemma withGetDefaults_retries opts extra :
  opt_idempotentRetries (withGetDefaults opts extra)
  = default (default 2%Z (opts ≫= idempotentRetries)) (extra ≫= idempotentRetries).
Proof.
  destruct opts as [o|], extra as [x|]; cbn;
    unfold opt_idempotentRetries; cbn;
    repeat match goal with |- context [idempotentRetries ?r] =>
             is_var r; destruct (idempotentRetries r) end;
    reflexivity.
Qed.

(** X18. How many requests an endpoint makes. The page-url endpoint makes
    at most five, with at most three waits, whatever options the caller
    passes: its own [idempotentRetries: 3] is spread last. The other three
    make at most [2 + idempotentRetries] of the caller, 2 when the caller
    names none. *)
Theorem endpoint_request_budget E L c :
  (∀ id page h m,
     let out := getPageUrl E L id page h m c in
     fetches (log (snd out)) ≤ fetches (log c) + 5
     ∧ length (sleeps (log (snd out))) ≤ length (sleeps (log c)) + 3)
  ∧ (∀ cursor q category tag sort opts,
       fetches (log (snd (listPdfs E L cursor q category tag sort opts c)))
       ≤ fetches (log c) + 2 + Z.to_nat (default 2%Z (opts ≫= idempotentRetries)))
  ∧ (∀ id opts,
       fetches (log (snd (getPdfDetail E L id opts c)))
       ≤ fetches (log c) + 2 + Z.to_nat (default 2%Z (opts ≫= idempotentRetries)))
  ∧ (∀ id q opts,
       fetches (log (snd (searchPdf E L id q opts c)))
       ≤ fetches (log c) + 2 + Z.to_nat (default 2%Z (opts ≫= idempotentRetries))).
Proof.
  split; [|split; [|split]].
  - intros id page h m out. subst out. unfold getPageUrl.
    destruct (negb (isFinite page) || num_lt page (Fin 1)); [simpl; lia|].
    cbv zeta. rewrite then_shape_state.
    match goal with
    | |- context [api_get E ?p ?o c] =>
        pose proof (api_get_budget E p o c) as Hb;
        assert (Hr : opt_idempotentRetries o = 3%Z) by apply withGetDefaults_retries
    end.
    rewrite Hr in Hb. change (Z.to_nat 3) with 3 in Hb. lia.
  - intros cursor q category tag sort opts. unfold listPdfs. cbv zeta.
    rewrite then_shape_state.
    match goal with
    | |- context [api_get E ?p ?o c] => pose proof (api_get_budget E p o c) as Hb
    end.
    rewrite withGetDefaults_retries in Hb. apply Hb.
  - intros id opts. unfold getPdfDetail. cbv zeta. rewrite then_shape_state.
    match goal with
    | |- context [api_get E ?p ?o c] => pose proof (api_get_budget E p o c) as Hb
    end.
    rewrite withGetDefaults_retries in Hb. apply Hb.
  - intros id q opts. unfold searchPdf. cbv zeta. rewrite then_shape_state.
    match goal with
    | |- context [api_get E ?p ?o c] => pose proof (api_get_budget E p o c) as Hb
    end.
    rewrite withGetDefaults_retries in Hb. apply Hb.
Qed.

Lemma round_of_integer z : round (inject_Z z) = z.
Proof.
  unfold round, Qfloor, Qplus, inject_Z. cbn.
  symmetry. apply (Z.div_unique _ _ _ 1); lia.
Qed.

(** X19. The size hints that reach the query string. A width or height is
    sent only for a finite number, as an integer at least 1; a quality as
    an integer from 1 to 100; NaN and the infinities are dropped. Clamping
    a clamped value changes nothing. *)
Theorem clamped_hints n :
  (∀ m, clampInt n = Some m → ∃ z, m = num_of_Z z ∧ (1 ≤ z)%Z)
  ∧ (∀ m, clampQuality n = Some m → ∃ z, m = num_of_Z z ∧ (1 ≤ z ≤ 100)%Z)
  ∧ (clampInt n = None ↔ ∀ q, n ≠ Some (Fin q))
  ∧ (clampQuality n = None ↔ ∀ q, n ≠ Some (Fin q))
  ∧ clampInt (clampInt n) = clampInt n
  ∧ clampQuality (clampQuality n) = clampQuality n.
Proof.
  destruct n as [[| | |q]|]; cbn [clampInt clampQuality];
    repeat split; try discriminate; try congruence; eauto.
  - intros m [= <-]. eexists. split; [reflexivity|lia].
  - intros m [= <-]. eexists. split; [reflexivity|lia].
  - intros H. destruct (H q eq_refl).
  - intros H. destruct (H q eq_refl).
  - unfold num_of_Z. rewrite round_of_integer. f_equal. f_equal. f_equal. lia.
  - unfold num_of_Z. rewrite round_of_integer. f_equal. f_equal. f_equal. lia.
Qed.

(** X20. The old calling convention of the page-url endpoint: when the
    third argument is not a hints object (it is absent, fetch options, or
    an object with none of [w], [h], [dpr], [quality]), the fourth argument
    is ignored, and a missing third argument is the same as empty fetch
    options. *)
Theorem getPageUrl_old_convention E L id page h m1 m2 c :
  isHints h = false →
  getPageUrl E L id page h m1 c = getPageUrl E L id page h m2 c
  ∧ (h = None →
     getPageUrl E L id page h m1 c
     = getPageUrl E L id page (Some (AsOpts no_options)) m2 c).
Proof.
  intros Hh. unfold getPageUrl. rewrite Hh. split; [reflexivity|].
  intros ->. reflexivity.
Qed.

Lemma getPageUrl_old_convention_witness :
  let o := Some (AsOpts (retries 0)) in
  getPageUrl Demo.env_429 Demo.lib "doc1" (num_of_Z 1) o (Some (retries 7))
    (idle Demo.store0)
  = getPageUrl Demo.env_429 Demo.lib "doc1" (num_of_Z 1) o None (idle Demo.store0).
Proof.
  intros o.
  destruct (getPageUrl_old_convention Demo.env_429 Demo.lib "doc1" (num_of_Z 1) o
              (Some (retries 7)) None (idle Demo.store0) eq_refl) as [H _].
  exact H.
Defined.

End PdfApiMore.

Section NormalizerMore.
Import Json Text Client PdfApi.

Lemma nonempty_string_spec v s : nonempty_string v = Some s → s ≠ "".
Proof.
  destruct v as [[| | |t| |]|]; cbn [nonempty_string]; try discriminate.
  case_bool_decide as Ht; [discriminate|]. intros [= <-]. exact Ht.
Qed.

Lemma coerce_title_nonempty r : coerce_title r ≠ "".
Proof.
  unfold coerce_title.
  destruct (nonempty_string (prop "title" r)) as [t|] eqn:Ht;
    [exact (nonempty_string_spec _ _ Ht)|].
  destruct (nonempty_string (prop "name" r)) as [t|] eqn:Hn;
    [exact (nonempty_string_spec _ _ Hn)|discriminate].
Qed.

Lemma coerce_pages_positive p :
  isFinite (coerce_pages p) = true ∧ num_lt (Fin 0) (coerce_pages p) = true.
Proof.
  unfold coerce_pages. destruct p as [[| |n| | |]|]; try (split; reflexivity).
  destruct (isFinite n && num_lt (Fin 0) n) eqn:H; [|split; reflexivity].
  apply andb_prop in H. exact H.
Qed.

Lemma coerceId_empty L idRaw i :
  coerceId L idRaw i = "" → ∃ n, idRaw = Some (JNum n) ∧ Number_toString L n = "".
Proof.
  unfold coerceId. destruct idRaw as [[|b|n|s| |]|]; try discriminate.
  - destruct b; discriminate.
  - eauto.
  - case_bool_decide as Hs; [discriminate|]. intros H. destruct (Hs H).
Qed.

(** X21. What the normalizers guarantee, whatever they are given: a
    non-empty title, a finite page count above 0, never an empty category;
    and an id that is empty only if it came from a number that the runtime
    renders as the empty string. The page count is not rounded. The detail
    normalizer agrees with the item normalizer at index 0. *)
Theorem normalizer_invariants L raw i :
  let n := normalizeItemLike L raw i in
  let d := normalizeDetail L raw in
  (item_title n ≠ ""
   ∧ isFinite (item_pages n) = true ∧ num_lt (Fin 0) (item_pages n) = true
   ∧ item_category n ≠ Some ""
   ∧ (item_id n = "" → ∃ x, Number_toString L x = ""))
  ∧ (detail_id d = item_id (normalizeItemLike L raw 0)
     ∧ detail_title d = item_title n
     ∧ detail_pages d = item_pages n
     ∧ detail_category d = item_category n
     ∧ detail_tags d = item_tags n)
  ∧ (∀ q, prop "pages" raw = Some (JNum (Fin q)) → (0 < q)%Q →
          item_pages n = Fin q).
Proof.
  intros n d. subst n d. unfold normalizeItemLike, normalizeDetail.
  cbn [item_title item_pages item_category item_id item_tags
       detail_id detail_title detail_pages detail_category detail_tags].
  split; [|split].
  - split; [apply coerce_title_nonempty|].
    split; [apply coerce_pages_positive|]. split; [apply coerce_pages_positive|].
    split.
    + intros H. apply nonempty_string_spec in H. congruence.
    + intros H. apply coerceId_empty in H as (x & _ & Hx). eauto.
  - repeat split.
  - intros q Hp Hq. destruct raw; try discriminate. cbn [isRecord].
    rewrite Hp. cbn [nullish coerce_pages isFinite num_lt andb].
    assert (Hle : Qle_bool q 0 = false).
    { destruct (Qle_bool q 0) eqn:H; [|reflexivity].
      apply Qle_bool_iff in H. exfalso. exact (Qlt_not_le _ _ Hq H). }
    rewrite Hle. reflexivity.
Qed.

Lemma coerce_item_id L it i :
  item_id (normalizeItemLike L it i) ≠ "" →
  coerce_item (normalizeItemLike L it i) i = normalizeItemLike L it i.
Proof.
  intros Hid.
  assert (Ht : item_title (normalizeItemLike L it i) ≠ "")
    by apply coerce_title_nonempty.
  assert (Hp : num_lt (Fin 0) (item_pages (normalizeItemLike L it i)) = true)
    by apply coerce_pages_positive.
  unfold coerce_item.
  rewrite (bool_decide_eq_false_2 _ Hid), (bool_decide_eq_false_2 _ Ht), Hp.
  reflexivity.
Qed.

(** X22. The last, "very defensive" coercion of [listPdfs] rescues
    nothing: when every item has a non-empty id after normalization, the
    result is that of the strict validation or, when that fails, that of
    the validation of the normalized body; a body that fails both fails. *)
Theorem list_fallback_adds_nothing L path raw :
  (∀ i it, items_in raw !! i = Some it → item_id (normalizeItemLike L it i) ≠ "") →
  listPdfs_shape L path raw
  = match parseOrThrow (ListResponseSchema L) raw path with
    | Ok v => Ok v
    | Err _ => parseOrThrow (ListResponseSchema L) (normalizeListResponse L raw) path
    end.
Proof.
  intros Hids.
  assert (Hsame : fallbackListResponse L raw = normalizeListResponse L raw).
  { unfold fallbackListResponse, normalizeListResponse.
    apply (f_equal (λ x, JObj (("items", JArr x) :: next_cursor raw))).
    apply imap_ext. intros i it Hit. cbv beta.
    rewrite (coerce_item_id L it i (Hids i it Hit)). reflexivity. }
  unfold listPdfs_shape. rewrite Hsame.
  destruct (parseOrThrow (ListResponseSchema L) raw path); [reflexivity|].
  destruct (parseOrThrow (ListResponseSchema L) (normalizeListResponse L raw) path);
    reflexivity.
Qed.

Lemma list_fallback_adds_nothing_witness :
  let raw := JObj [("items", JArr [JObj [("_id", JNum (Fin 7)); ("pages", JNum (Fin (5 # 2)))]])] in
  ∃ d, listPdfs_shape Demo.lib "/pdfs" raw
       = Err (APIError "Invalid API response shape" 200 "/pdfs" d).
Proof.
  intros raw.
  rewrite (list_fallback_adds_nothing Demo.lib "/pdfs" raw).
  - eexists. reflexivity.
  - intros i it Hit. destruct i as [|i]; [|discriminate].
    injection Hit as <-. discriminate.
Defined.

(** X23. A body that is not an object (null, a string, a number, an array)
    is accepted by the list and the detail endpoint, as an empty list and
    as a document [tmp-0] called [Untitled] with one page, and rejected by
    the page-url and the search endpoint. *)
Theorem non_object_body L path raw :
  isRecord raw = false →
  listPdfs_shape L path raw = Ok (JObj [("items", JArr [])])
  ∧ getPdfDetail_shape L path raw
    = Ok (JObj [("id", JStr "tmp-0"); ("title", JStr "Untitled");
                ("pages", JNum (Fin 1)); ("tags", JArr []); ("pageUrls", JNull)])
  ∧ (∃ d, getPageUrl_shape L path raw
          = Err (APIError "Invalid API response shape" 200 path d))
  ∧ (∃ d, searchPdf_shape path raw
          = Err (APIError "Invalid API response shape" 200 path d)).
Proof.
  intros Hr. destruct raw; try discriminate;
    (split; [reflexivity|]; split; [reflexivity|]; split; eexists; reflexivity).
Qed.

Lemma non_object_body_witness :
  listPdfs_shape Demo.lib "/pdfs" (JArr []) = Ok (JObj [("items", JArr [])]).
Proof. apply (non_object_body Demo.lib "/pdfs" (JArr [])). reflexivity. Defined.

End NormalizerMore.

(** ** The reader store, once more *)

Section ReaderMore.
Import Json ReaderStore ReaderActions.

Lemma clamp_idem n total : clamp (clamp n total) total = clamp n total.
Proof. unfold clamp. lia. Qed.

(** X24. A URL that has been resolved is served again for free. After a
    call that returned a URL (from the cache, from the static list, or
    from the endpoint), a second call for the same page returns the same
    URL without a call of the endpoint and without a change of the store,
    as long as the entry has not gone stale, and whatever rendering hints
    either call names: the cache is keyed by the page alone. *)
Theorem resolve_again_is_free K1 K2 api n o1 o2 s calls u s1 calls1 :
  resolvePageUrl K1 api n o1 s calls = (Ok u, s1, calls1) →
  (∀ cur e, current s1 = Some cur →
            pageCache s1 !! clamp n (default 1%Z (pages cur)) = Some e →
            isExpired K2 (expiresAt e) = false) →
  resolvePageUrl K2 api n o2 s1 calls1 = (Ok u, s1, calls1).
Proof.
  intros Hfirst Hfresh. unfold resolvePageUrl in Hfirst.
  destruct (resolve_start K1 n s) as [u' s'|e|docId pg] eqn:Hstart.
  - injection Hfirst as -> -> ->. unfold resolve_start in Hstart.
    destruct (current s) as [cur|] eqn:Hc; [|discriminate]. cbv zeta in Hstart.
    destruct (pageCache s !! clamp n (default 1%Z (pages cur))) as [e|] eqn:He.
    + destruct (isExpired K1 (expiresAt e)); [discriminate|].
      injection Hstart as <- <-.
      apply (resolve_cached K2 api n o2 s calls1 cur e Hc He).
      apply (Hfresh cur e Hc He).
    + destruct (static_url cur (clamp n (default 1%Z (pages cur)))) as [st|];
        [|discriminate].
      injection Hstart as <- <-.
      match goal with
      | |- resolvePageUrl K2 api n o2 ?st0 _ = _ =>
          apply (resolve_cached K2 api n o2 st0 calls1 cur
                   {| entry_url := st; expiresAt := None |} Hc);
            [apply lookup_insert_eq|reflexivity]
      end.
  - discriminate.
  - destruct (resolve_resume docId pg (api calls docId pg o1) s) as [r s'] eqn:Hres.
    injection Hfirst as -> -> <-.
    unfold resolve_start in Hstart.
    destruct (current s) as [cur|] eqn:Hc; [|discriminate]. cbv zeta in Hstart.
    assert (Hpg : docId = id cur ∧ pg = clamp n (default 1%Z (pages cur))).
    { destruct (pageCache s !! clamp n (default 1%Z (pages cur))) as [e|].
      - destruct (isExpired K1 (expiresAt e)); [|discriminate].
        injection Hstart as <- <-. auto.
      - destruct (static_url cur (clamp n (default 1%Z (pages cur))));
          [discriminate|]. injection Hstart as <- <-. auto. }
    destruct Hpg as [-> ->].
    unfold resolve_resume in Hres.
    destruct (safeGetPageUrl (api calls (id cur) _ o1)) as [resp|e]; [|discriminate].
    rewrite Hc in Hres. rewrite bool_decide_eq_true_2 in Hres by reflexivity.
    cbv zeta in Hres. injection Hres as <- <-.
    match goal with
    | |- resolvePageUrl K2 api n o2 ?st _ = _ =>
        apply (resolve_cached K2 api n o2 st _
                 {| id := id cur; pages := pages cur;
                    pageUrls := Some (array_set
                      (Z.to_nat (clamp n (default 1%Z (pages cur)) - 1)) (resp_url resp)
                      match pageUrls cur with
                      | Some urls => urls
                      | None => replicate
                                  (Z.to_nat (Z.max 1 (default 1%Z (pages cur)))) None
                      end) |}
                 {| entry_url := resp_url resp; expiresAt := resp_expiresAt resp |}
                 eq_refl)
    end.
    + apply lookup_insert_eq.
    + apply (Hfresh _ _ eq_refl). apply lookup_insert_eq.
Qed.

Lemma resolve_again_is_free_witness :
  let big := {| PdfApi.hint_w := Some (num_of_Z 2048); PdfApi.hint_h := None;
                PdfApi.hint_dpr := None; PdfApi.hint_quality := None |} in
  let first := resolvePageUrl (Demo.clock 0) Demo.signer 1 None
                 (Demo.reading Demo.doc2 ∅) [] in
  resolvePageUrl (Demo.clock 1000) Demo.signer 1 (Some big) (snd (fst first)) (snd first)
  = (Ok "https://cdn.example.com/doc2/fresh.png", snd (fst first), [("doc2", 1%Z, None)]).
Proof.
  intros big first.
  apply (resolve_again_is_free (Demo.clock 0) (Demo.clock 1000) Demo.signer 1 None
           (Some big) (Demo.reading Demo.doc2 ∅) []
           "https://cdn.example.com/doc2/fresh.png" (snd (fst first)) (snd first)).
  - reflexivity.
  - intros cur e Hc He. vm_compute in Hc. injection Hc as <-.
    vm_compute in He. injection He as <-. reflexivity.
Defined.

(** X25. What [open] leaves behind. Whatever happens, the page cache is
    empty, the search hits are cleared and the loading flag is off. For
    the document that is open already nothing is fetched: the answer plays
    no part, and the page stays. For another document the page goes back
    to 1, also when the fetch fails, in which case the old document stays
    open. *)
Theorem open_outcomes docId answer s :
  let r := fst (open docId answer s) in
  let s' := snd (open docId answer s) in
  pageCache s' = ∅ ∧ searchHits s' = [] ∧ loadingDoc s' = false
  ∧ (id <$> current s = Some docId →
     r = Ok () ∧ current s' = current s ∧ page s' = page s
     ∧ ∀ answer', open docId answer' s = open docId answer s)
  ∧ (id <$> current s ≠ Some docId →
     page s' = 1%Z
     ∧ match answer with
       | Ok detail => r = Ok () ∧ current s' = Some detail
       | Err _ => r = Err (Failure "Failed to open document") ∧ current s' = current s
       end).
Proof.
  intros r s'. subst r s'. unfold open.
  destruct (current s) as [cur|] eqn:Hc; cbn [fmap option_fmap option_map].
  - case_bool_decide as Hid.
    + cbn. do 3 (split; [reflexivity|]). split.
      * intros _. repeat split; congruence.
      * intros Hne. destruct Hne. congruence.
    + assert (Hne : Some (id cur) ≠ Some docId) by congruence.
      destruct answer as [detail|e]; cbn; do 3 (split; [reflexivity|]);
        (split; [intros Heq; destruct (Hne Heq)|]);
        intros _; repeat split; congruence.
  - destruct answer as [detail|e]; cbn; do 3 (split; [reflexivity|]);
      (split; [discriminate|]); intros _; repeat split; congruence.
Qed.

(** X26. [setPage] and [resolvePageUrl] clamp alike. The page set is at
    least 1 and at most the page count of the open document (1 when none
    is open); setting it again changes nothing; nothing but the page
    changes; and resolving the page the reader then shows is resolving the
    page that was asked for. *)
Theorem setPage_then_resolve K n s :
  let s' := setPage n s in
  (1 ≤ page s')%Z
  ∧ (∀ cur, current s = Some cur → (page s' ≤ Z.max 1 (default 1 (pages cur)))%Z)
  ∧ (current s = None → page s' = 1%Z)
  ∧ setPage n s' = s' ∧ setPage (page s') s = s'
  ∧ current s' = current s ∧ pageCache s' = pageCache s
  ∧ resolve_start K (page s') s'
    = match resolve_start K n s with
      | Returned u s2 => Returned u (setPage n s2)
      | other => other
      end.
Proof.
  intros s'. subst s'. unfold setPage. cbn [page current pageCache searchHits loadingDoc].
  split; [unfold clamp; lia|].
  split; [intros cur ->; unfold clamp; lia|].
  split; [intros ->; unfold clamp; lia|].
  rewrite !clamp_idem.
  split; [reflexivity|]. split; [reflexivity|]. split; [reflexivity|].
  split; [reflexivity|].
  unfold resolve_start. cbn [page current pageCache searchHits loadingDoc].
  destruct (current s) as [cur|] eqn:Hc; [|reflexivity].
  cbv zeta. rewrite clamp_idem.
  destruct (pageCache s !! clamp n (default 1%Z (pages cur))) as [e|].
  - destruct (isExpired K (expiresAt e)); cbn [negb]; [reflexivity|].
    rewrite Hc. reflexivity.
  - destruct (static_url cur (clamp n (default 1%Z (pages cur)))); [|reflexivity].
    unfold set_cache. cbn [page current pageCache searchHits loadingDoc].
    rewrite Hc. reflexivity.
Qed.

(** X30. Staleness is monotone in time: an entry that is stale stays
    stale, so a stale entry is never served from the cache again; and an
    entry without an expiry is never stale. *)
Theorem staleness_is_monotone parse t1 t2 x :
  (t1 ≤ t2)%Z →
  isExpired {| Date_parse := parse; nowMs := t1 |} x = true →
  isExpired {| Date_parse := parse; nowMs := t2 |} x = true
  ∧ x ≠ None.
Proof.
  intros Ht H. apply isExpired_spec in H as (e & t & -> & He & Hp & Hle).
  cbn [Date_parse nowMs] in Hp, Hle. split; [|discriminate].
  apply isExpired_spec. exists e, t. cbn [Date_parse nowMs].
  repeat split; auto; lia.
Qed.

Lemma staleness_is_monotone_witness :
  isExpired (Demo.clock 3600000) (Some "1970-01-01T01:00:00.000Z") = true.
Proof.
  apply (staleness_is_monotone Demo.date_parse 3580000 3600000
           (Some "1970-01-01T01:00:00.000Z")); [lia|reflexivity].
Defined.

End ReaderMore.

(** ** The library store *)

Section LibraryMore.
Import Json LibraryStore.

Lemma map_set_keys {A} k (v : A) m :
  map fst (map_set k v m)
  = if bool_decide (k ∈ map fst m) then map fst m else map fst m ++ [k].
Proof.
  induction m as [|[k' v'] rest IH]; cbn [map_set map fst app].
  - rewrite bool_decide_eq_false_2 by apply not_elem_of_nil. reflexivity.
  - destruct (decide (k = k')) as [<-|Hk].
    + rewrite !bool_decide_eq_true_2; [reflexivity|left|reflexivity].
    + rewrite (bool_decide_eq_false_2 _ Hk). cbn [map fst]. rewrite IH.
      destruct (decide (k ∈ map fst rest)) as [Hin|Hin].
      * rewrite !bool_decide_eq_true_2; [reflexivity|right; exact Hin|exact Hin].
      * rewrite !bool_decide_eq_false_2; [reflexivity| |exact Hin].
        intros Hc. apply elem_of_cons in Hc as [?|?]; congruence.
Qed.

Lemma map_set_fresh {A} k (v : A) m :
  k ∉ map fst m → map_set k v m = m ++ [(k, v)].
Proof.
  induction m as [|[k' v'] rest IH]; intros Hk; [reflexivity|].
  cbn [map fst] in Hk. apply not_elem_of_cons in Hk as [Hne Hk].
  cbn [map_set]. rewrite (bool_decide_eq_false_2 _ Hne), (IH Hk). reflexivity.
Qed.

Lemma map_set_Forall {A} (P : string * A → Prop) k v m :
  Forall P m → P (k, v) → Forall P (map_set k v m).
Proof.
  intros Hm Hkv. induction Hm as [|[k' v'] rest Hx Hrest IH]; cbn [map_set].
  - constructor; [exact Hkv|constructor].
  - case_bool_decide; constructor; auto.
Qed.

Lemma map_set_same {A} k (v : A) m : (k, v) ∈ map_set k v m.
Proof.
  induction m as [|[k' v'] rest IH]; cbn [map_set]; [left|].
  case_bool_decide; [left|right; exact IH].
Qed.

Lemma map_set_other {A} k (v : A) m k' v' :
  k' ≠ k → (k', v') ∈ m → (k', v') ∈ map_set k v m.
Proof.
  intros Hne. induction m as [|[k0 v0] rest IH]; intros Hin; [inversion Hin|].
  cbn [map_set]. apply elem_of_cons in Hin as [[= <- <-]|Hin].
  - rewrite bool_decide_eq_false_2 by congruence. left.
  - case_bool_decide; right; auto.
Qed.

Lemma map_of_snoc l x : map_of (l ++ [x]) = map_set (PdfApi.item_id x) x (map_of l).
Proof. unfold map_of. rewrite foldl_app. reflexivity. Qed.

Lemma map_of_entries l :
  Forall (λ kv, PdfApi.item_id (snd kv) = fst kv ∧ snd kv ∈ l) (map_of l).
Proof.
  induction l as [|x l IH] using rev_ind; [constructor|].
  rewrite map_of_snoc. apply map_set_Forall.
  - eapply Forall_impl; [exact IH|]. intros kv [H1 H2]. split; [exact H1|].
    apply elem_of_app. left. exact H2.
  - split; [reflexivity|]. apply elem_of_app. right. left.
Qed.

Lemma ids_uniqueById l : ids (uniqueById l) = map fst (map_of l).
Proof.
  unfold ids, uniqueById. rewrite map_map.
  pose proof (map_of_entries l) as H.
  induction H as [|kv rest [Hkv _] _ IH]; [reflexivity|].
  cbn [map]. rewrite Hkv, IH. reflexivity.
Qed.

Lemma map_of_keys l :
  NoDup (map fst (map_of l)) ∧ ∀ k, k ∈ map fst (map_of l) ↔ k ∈ ids l.
Proof.
  induction l as [|x l [IHn IHk]] using rev_ind.
  - split; [constructor|]. intros k. reflexivity.
  - rewrite map_of_snoc, map_set_keys. unfold ids. rewrite map_app. cbn [map].
    case_bool_decide as Hin.
    + split; [exact IHn|]. intros k. rewrite elem_of_app, IHk, list_elem_of_singleton.
      split; [auto|]. intros [Hk| ->]; [exact Hk|]. apply IHk, Hin.
    + split.
      * apply NoDup_app. split; [exact IHn|]. split; [|apply NoDup_singleton].
        intros k Hk Hk'. apply list_elem_of_singleton in Hk'. subst k. auto.
      * intros k. rewrite !elem_of_app, IHk. reflexivity.
Qed.

Lemma map_of_last l1 x : ∀ l2,
  PdfApi.item_id x ∉ ids l2 → (PdfApi.item_id x, x) ∈ map_of (l1 ++ x :: l2).
Proof.
  induction l2 as [|y l2 IH] using rev_ind; intros Hx.
  - rewrite map_of_snoc. apply map_set_same.
  - change (l1 ++ x :: l2 ++ [y]) with (l1 ++ (x :: l2) ++ [y]).
    rewrite app_assoc, map_of_snoc.
    unfold ids in Hx. rewrite map_app in Hx. apply not_elem_of_app in Hx as [Hx Hy].
    apply map_set_other; [|apply IH, Hx].
    intros Heq. apply Hy. rewrite Heq. left.
Qed.

Lemma map_of_NoDup l :
  NoDup (ids l) → map_of l = map (λ it, (PdfApi.item_id it, it)) l.
Proof.
  induction l as [|x l IH] using rev_ind; intros Hnd; [reflexivity|].
  unfold ids in Hnd. rewrite map_app in Hnd. apply NoDup_app in Hnd as (Hl & Hx & _).
  rewrite map_of_snoc, (IH Hl), map_app. apply map_set_fresh.
  rewrite map_map. cbn [fst]. intros Hin. apply (Hx _ Hin). left.
Qed.

Lemma uniqueById_facts l :
  NoDup (ids (uniqueById l))
  ∧ (∀ k, k ∈ ids (uniqueById l) ↔ k ∈ ids l)
  ∧ (∀ l1 x l2, l = l1 ++ x :: l2 → PdfApi.item_id x ∉ ids l2 → x ∈ uniqueById l).
Proof.
  rewrite ids_uniqueById. destruct (map_of_keys l) as [Hn Hk].
  split; [exact Hn|]. split; [exact Hk|].
  intros l1 x l2 -> Hx. unfold uniqueById.
  apply list_elem_of_fmap. exists (PdfApi.item_id x, x). split; [reflexivity|].
  apply map_of_last, Hx.
Qed.

(** X27. The de-duplication of [fetchNext]: the result holds every id of
    the input once; every item of the result is an item of the input; of
    the items with one id the last survives (so a page fetched later
    replaces what was there); and a list without duplicates comes back as
    it is, in its order. *)
Theorem uniqueById_spec l :
  NoDup (ids (uniqueById l))
  ∧ (∀ k, k ∈ ids (uniqueById l) ↔ k ∈ ids l)
  ∧ (∀ it, it ∈ uniqueById l → it ∈ l)
  ∧ (∀ l1 x l2, l = l1 ++ x :: l2 → PdfApi.item_id x ∉ ids l2 → x ∈ uniqueById l)
  ∧ (NoDup (ids l) → uniqueById l = l).
Proof.
  destruct (uniqueById_facts l) as (Hn & Hk & Hlast).
  split; [exact Hn|]. split; [exact Hk|]. split; [|split; [exact Hlast|]].
  - intros it Hit. unfold uniqueById in Hit.
    apply list_elem_of_fmap in Hit as (kv & -> & Hkv).
    pose proof (map_of_entries l) as H. rewrite Forall_forall in H.
    apply (H kv Hkv).
  - intros Hnd. unfold uniqueById. rewrite (map_of_NoDup l Hnd), map_map.
    cbn [snd]. apply map_id.
Qed.

Lemma fetchNext_request_spec s rq :
  fetchNext_request s = Some rq ↔
  loading s = false
  ∧ ∃ cursor, nextCursor s = Some cursor ∧ cursor ≠ ""
              ∧ rq = (cursor, query s, category s, tag s).
Proof.
  unfold fetchNext_request, truthy.
  destruct (loading s); cbn [orb].
  - split; [discriminate|]. intros [H _]. discriminate.
  - destruct (nextCursor s) as [cursor|]; cbn [negb default].
    + case_bool_decide as Hc; cbn [negb].
      * split; [discriminate|]. intros (_ & c' & [= <-] & Hne & _). congruence.
      * split.
        -- intros [= <-]. split; [reflexivity|]. exists cursor. auto.
        -- intros (_ & c' & [= <-] & _ & ->). reflexivity.
    + split; [discriminate|]. intros (_ & c' & H & _). discriminate.
Qed.

(** X28. One [fetchNext]. While a load is running, or without a cursor,
    it asks for nothing and changes nothing. Otherwise it asks for the page
    at the cursor with the filters of the store, and
    - on an answer, the list holds every id once, the ids being those it
      had and those of the page, an item of the page replacing an item
      with its id; with no cursor in the answer every later [fetchNext]
      asks for nothing;
    - on a failure the list, the cursor and the filters are as before and
      the load flag is off, so that the same page is asked for again. *)
Theorem fetchNext_outcomes answer s :
  let out := fetchNext answer s in
  (fetchNext_request s = None → out = (Ok (), s))
  ∧ (∀ rq, fetchNext_request s = Some rq →
       loading (snd out) = false
       ∧ query (snd out) = query s ∧ category (snd out) = category s
       ∧ tag (snd out) = tag s
       ∧ match answer with
         | Ok res =>
             fst out = Ok ()
             ∧ NoDup (ids (items (snd out)))
             ∧ (∀ k, k ∈ ids (items (snd out))
                     ↔ k ∈ ids (items s) ∨ k ∈ ids (res_items res))
             ∧ (NoDup (ids (res_items res)) →
                ∀ it, it ∈ res_items res → it ∈ items (snd out))
             ∧ hasMore (snd out) = truthy (nextCursor (snd out))
             ∧ (truthy (res_nextCursor res) = false →
                ∀ a, fetchNext a (snd out) = (Ok (), snd out))
         | Err _ =>
             fst out = Err "Failed to fetch next page"
             ∧ items (snd out) = items s ∧ nextCursor (snd out) = nextCursor s
             ∧ hasMore (snd out) = hasMore s
             ∧ fetchNext_request (snd out) = Some rq
         end).
Proof.
  intros out. subst out. unfold fetchNext.
  split; [intros ->; reflexivity|].
  intros rq Hrq. rewrite Hrq.
  destruct answer as [res|e]; cbn [fst snd loading query category tag items
                                     nextCursor hasMore].
  - do 4 (split; [reflexivity|]). split; [reflexivity|].
    destruct (uniqueById_facts (items s ++ res_items res)) as (Hn & Hk & Hlast).
    split; [exact Hn|]. split.
    { intros k. rewrite Hk. unfold ids. rewrite map_app, elem_of_app. reflexivity. }
    split.
    { intros Hnd it Hit. apply list_elem_of_split in Hit as (l1 & l2 & Hsplit).
      apply (Hlast (items s ++ l1) it l2).
      - rewrite Hsplit, <- app_assoc. reflexivity.
      - rewrite Hsplit in Hnd. unfold ids in Hnd. rewrite map_app in Hnd.
        apply NoDup_app in Hnd as (_ & _ & Hnd). cbn [map] in Hnd.
        apply NoDup_cons in Hnd as [Hnd _]. exact Hnd. }
    split; [reflexivity|].
    intros Hend a. unfold fetchNext_request.
    cbn [loading nextCursor]. rewrite Hend. reflexivity.
  - do 4 (split; [reflexivity|]). do 4 (split; [reflexivity|]).
    apply fetchNext_request_spec in Hrq as (Hl & cursor & Hc & Hne & ->).
    apply fetchNext_request_spec. cbn [loading nextCursor query category tag].
    split; [reflexivity|]. exists cursor. auto.
Qed.

(** X29. [refresh] and the paging that follows it. At the end the load
    flag is off and the filters are those asked for, the query being the
    empty string when none is named. After an answer, [fetchNext] asks for
    the cursor of the answer with those filters, or for nothing when the
    answer names no cursor; the list is the answer's, duplicates and all.
    After a failure of a refresh that began with no load running, the list
    is empty and [fetchNext] asks for nothing; of one that began during a
    load, list and cursor are kept. *)
Theorem refresh_then_page opts answer s :
  let out := refresh opts answer s in
  let s' := snd out in
  loading s' = false
  ∧ query s' = default "" (f_query opts)
  ∧ category s' = f_category opts ∧ tag s' = f_tag opts
  ∧ match answer with
    | Ok res =>
        fst out = Ok () ∧ items s' = res_items res
        ∧ hasMore s' = truthy (nextCursor s')
        ∧ fetchNext_request s'
          = (if truthy (res_nextCursor res)
             then Some (default "" (res_nextCursor res), default "" (f_query opts),
                        f_category opts, f_tag opts)
             else None)
    | Err _ =>
        fst out = Err "Failed to refresh library"
        ∧ (loading s = false → items s' = [] ∧ fetchNext_request s' = None)
        ∧ (loading s = true → items s' = items s ∧ nextCursor s' = nextCursor s)
    end.
Proof.
  intros out s'. subst out s'. unfold refresh.
  destruct answer as [res|e]; cbn [fst snd loading query category tag items
                                     nextCursor hasMore].
  - do 4 (split; [reflexivity|]). do 3 (split; [reflexivity|]).
    unfold fetchNext_request. cbn [loading nextCursor query category tag orb].
    destruct (truthy (res_nextCursor res)); reflexivity.
  - do 4 (split; [destruct (loading s); reflexivity|]). split; [reflexivity|].
    split; intros ->; cbn; split; reflexivity.
Qed.

(** An overlapping page: the later item takes the place of the earlier
    one, where that one stood. *)
Example uniqueById_overlap :
  let item i t :=
    {| PdfApi.item_id := i; PdfApi.item_title := t; PdfApi.item_pages := Fin 1;
       PdfApi.item_coverUrl := None; PdfApi.item_category := None;
       PdfApi.item_tags := []; PdfApi.item_updatedAt := "2025-06-01T12:00:00.000Z" |} in
  uniqueById [item "a" "first"; item "b" "second"; item "a" "again"; item "c" "third"]
  = [item "a" "again"; item "b" "second"; item "c" "third"].
Proof. reflexivity. Qed.

(** A failed refresh from the idle store empties the list for good. *)
Example failed_refresh_empties :
  let s := {| items := []; nextCursor := Some "c2"; loading := false; hasMore := true;
              query := "rocq"; category := None; tag := None |} in
  let s' := snd (refresh {| f_query := Some "rocq"; f_category := None; f_tag := None |}
                   (Err (Client.FetchFailed "offline")) s) in
  fetchNext_request initial = None
  ∧ fetchNext_request s = Some ("c2", "rocq", None, None)
  ∧ fetchNext_request s' = None ∧ hasMore s' = false.
Proof. repeat split; reflexivity. Qed.

End LibraryMore.
